(** * Gastown daemon: dog lifecycle handler and pending-spawn tracker

    A shallow embedding of [internal/daemon]'s dog handler ([handleDogs],
    [cleanupStuckDogs], [dispatchPlugins]) and of the pending-spawn tracker
    of [internal/polecat], with the properties the design document states
    about them.

    The handler is stateful Go code that talks to four collaborators (the dog
    manager, the session manager, the plugin scanner/recorder and the mail
    router).  It is embedded in a small state monad over a [World] that holds
    the persisted state of those collaborators together with the chronological
    trace of every call the handler made and of every line it logged. *)

From Stdlib Require Import ZArith Ascii String List Lia Bool.
From stdpp Require Import base option strings gmap.
Import ListNotations.

Local Open Scope string_scope.
Local Open Scope Z_scope.

(** ** Errors and results *)

Inductive error : Type :=
  | StorageError
  | ConflictError
  | NotFoundError
  | StartError
  | AddressError
  | DurationError
  | NilMailboxError.

Inductive result (A : Type) : Type :=
  | Ok (a : A)
  | Err (e : error).
Arguments Ok {A} a.
Arguments Err {A} e.

(** ** Data model *)

Module dog.

Inductive DogState : Type := StateIdle | StateWorking.

Record Dog : Type := mkDog {
  Name : string;
  State : DogState;
  Work : string
}.

Definition is_idle (d : Dog) : bool :=
  match State d with StateIdle => true | StateWorking => false end.

Record SessionStartOptions : Type := { WorkDesc : string }.

End dog.

Module plugin.

Inductive GateType : Type :=
  | GateCooldown
  | GateOther (tag : string).

Record GateT : Type := mkGate {
  Type_ : GateType;
  Duration : string
}.

Record Plugin : Type := mkPlugin {
  Name : string;
  Instructions : string;
  Gate : option GateT
}.

End plugin.

Module mail.

Inductive MessageType : Type :=
  | TypeTask
  | TypeNotification
  | TypeOther (tag : string).

Record Message : Type := mkMessage {
  ID : string;
  From : string;
  To : string;
  Subject : string;
  Body : string;
  Type_ : MessageType;
  Timestamp : Z
}.

(** A mailbox is partitioned into its active inbox and its archive, both
    kept oldest first. *)
Record Mailbox : Type := mkMailbox {
  active : list Message;
  archived : list Message
}.

Definition empty : Mailbox := {| active := []; archived := [] |}.

Definition NewMessage (id from to subject body : string) : Message :=
  {| ID := id; From := from; To := to; Subject := subject; Body := body;
     Type_ := TypeNotification; Timestamp := 0 |}.

Definition with_type (t : MessageType) (m : Message) : Message :=
  {| ID := ID m; From := From m; To := To m; Subject := Subject m;
     Body := Body m; Type_ := t; Timestamp := Timestamp m |}.

Definition with_timestamp (ts : Z) (m : Message) : Message :=
  {| ID := ID m; From := From m; To := To m; Subject := Subject m;
     Body := Body m; Type_ := Type_ m; Timestamp := ts |}.

(** Modelled from the spec: [Mailbox.Append] (internal/mail is not part of
    the sources at hand); a message is added at the end of the active
    inbox. *)
Definition Append (m : Message) (mb : Mailbox) : Mailbox :=
  {| active := active mb ++ [m]; archived := archived mb |}.

(** Modelled from the spec: [Mailbox.ArchiveByID]; every active message
    carrying the id moves to the archive, and an id that is not in the
    active inbox leaves the mailbox as it is. *)
Definition ArchiveByID (id : string) (mb : Mailbox) : Mailbox :=
  {| active := List.filter (fun m => negb (String.eqb (ID m) id)) (active mb);
     archived := archived mb
                 ++ List.filter (fun m => String.eqb (ID m) id) (active mb) |}.

End mail.

Record RigsConfig : Type := { Rigs : list string }.

(** ** The trace of one handler run *)

Inductive LogLine : Type :=
  | LogLoadRigsFailed (e : error)
  | LogListFailed (e : error)
  | LogSessionCheckError (dogName : string) (e : error)
  | LogSessionDead (dogName : string)
  | LogClearFailed (dogName : string) (e : error)
  | LogDiscoverFailed (e : error)
  | LogCooldownError (pluginName : string) (e : error)
  | LogIdleDogError (e : error)
  | LogNoIdleDogs
  | LogAssignFailed (dogName : string) (e : error)
  | LogStartFailed (dogName : string) (e : error)
  | LogRollbackFailed (dogName : string) (e : error)
  | LogSendFailed (dogName : string) (e : error)
  | LogDispatched (pluginName dogName : string).

(** One entry per call to a collaborator, with the outcome the handler saw
    ([None] in an [option error] is Go's [nil] error). *)
Inductive Event : Type :=
  | EvLoadRigsConfig (r : option error)
  | EvList (r : option error)
  | EvIsRunning (dogName : string) (r : result bool)
  | EvClearWork (dogName : string) (r : option error)
  | EvDiscoverAll (rigNames : list string) (r : option error)
  | EvCountRunsSince (pluginName duration : string) (r : result nat)
  | EvGetIdleDog (r : result (option string))
  | EvAssignWork (dogName workDesc : string) (r : option error)
  | EvStart (dogName workDesc : string) (r : option error)
  | EvSend (msg : mail.Message) (r : option error)
  | EvLog (l : LogLine).

(** ** The world the handler runs in *)

Record World : Type := mkWorld {
  dogs : list dog.Dog;
  sessions : list (string * string);
  mailboxes : gmap string mail.Mailbox;
  runs : list (string * Z);
  now : Z;
  trace : list Event
}.

Definition set_dogs (ds : list dog.Dog) (w : World) : World :=
  {| dogs := ds; sessions := sessions w; mailboxes := mailboxes w;
     runs := runs w; now := now w; trace := trace w |}.

Definition set_sessions (ss : list (string * string)) (w : World) : World :=
  {| dogs := dogs w; sessions := ss; mailboxes := mailboxes w;
     runs := runs w; now := now w; trace := trace w |}.

Definition set_mailboxes (ms : gmap string mail.Mailbox) (w : World) : World :=
  {| dogs := dogs w; sessions := sessions w; mailboxes := ms;
     runs := runs w; now := now w; trace := trace w |}.

Definition record (e : Event) (w : World) : World :=
  {| dogs := dogs w; sessions := sessions w; mailboxes := mailboxes w;
     runs := runs w; now := now w; trace := trace w ++ [e] |}.

(** What the handler cannot decide by itself: whether a collaborator's I/O
    fails, what the liveness probe and the scanner answer, how a duration
    string parses.  Every answer may depend on the whole world, trace
    included, so any pattern of failures over a cycle is an [Env]. *)
Record Env : Type := mkEnv {
  loadRigsConfig_result : World -> result (option RigsConfig);
  List_fault : World -> option error;
  IsRunning_result : World -> string -> result bool;
  ClearWork_fault : World -> string -> option error;
  DiscoverAll_result : World -> list string -> result (list plugin.Plugin);
  ParseDuration : string -> option Z;
  GetIdleDog_fault : World -> option error;
  AssignWork_fault : World -> string -> string -> option error;
  Start_fault : World -> string -> string -> option error;
  Send_fault : World -> mail.Message -> option error;
  NewMessageID : World -> string
}.

(** ** A state monad over the world *)

Definition M (A : Type) : Type := World -> A * World.

Definition ret {A : Type} (a : A) : M A := fun w => (a, w).

Definition bind {A B : Type} (c : M A) (k : A -> M B) : M B :=
  fun w => let (a, w') := c w in k a w'.

Declare Scope handler_scope.
Delimit Scope handler_scope with handler.
Notation "x <- c ;; k" := (bind c (fun x => k))
  (at level 100, c at next level, right associativity) : handler_scope.
Notation "c ;;; k" := (bind c (fun _ => k))
  (at level 100, right associativity) : handler_scope.

Definition emit (e : Event) : M unit := fun w => (tt, record e w).

Definition logf (l : LogLine) : M unit := emit (EvLog l).

Definition run {A : Type} (c : M A) (w : World) : World := snd (c w).

(** Go's [for _, x := range xs { body }] where the body never leaves the
    enclosing function. *)
Fixpoint forEach {A : Type} (body : A -> M unit) (xs : list A) : M unit :=
  match xs with
  | [] => ret tt
  | x :: xs' => bind (body x) (fun _ => forEach body xs')
  end.

(** The two ways a loop body of [dispatchPlugins] ends: [continue] (also
    falling off the end of the body) or [return] from the function. *)
Inductive Ctl : Type := Continue | Return.

Fixpoint forEachCtl {A : Type} (body : A -> M Ctl) (xs : list A) : M unit :=
  match xs with
  | [] => ret tt
  | x :: xs' =>
      bind (body x) (fun c =>
        match c with
        | Continue => forEachCtl body xs'
        | Return => ret tt
        end)
  end.

Definition fault_of {A : Type} (r : result A) : option error :=
  match r with Ok _ => None | Err e => Some e end.

(** ** The collaborators *)

Section Handler.

Variable E : Env.

Local Open Scope handler_scope.

(** [config.LoadRigsConfig]: configuration loading is outside the handler;
    its outcome is the environment's. *)
Definition loadRigsConfig : M (result (option RigsConfig)) :=
  fun w =>
    let r := loadRigsConfig_result E w in
    (r, record (EvLoadRigsConfig (fault_of r)) w).

Definition find_dog (name : string) (ds : list dog.Dog) : option dog.Dog :=
  List.find (fun d => String.eqb (dog.Name d) name) ds.

Fixpoint update_dog (name : string) (f : dog.Dog -> dog.Dog)
    (ds : list dog.Dog) : list dog.Dog :=
  match ds with
  | [] => []
  | d :: ds' =>
      if String.eqb (dog.Name d) name then f d :: ds'
      else d :: update_dog name f ds'
  end.

Definition assigned (desc : string) (d : dog.Dog) : dog.Dog :=
  dog.mkDog (dog.Name d) dog.StateWorking desc.

Definition cleared (d : dog.Dog) : dog.Dog :=
  dog.mkDog (dog.Name d) dog.StateIdle "".

(** Modelled from the spec: [Manager.List] of internal/dog, which is not
    part of the sources at hand; all known workers, failing only on an
    enumeration I/O error. *)
Definition mgr_List : M (result (list dog.Dog)) :=
  fun w =>
    match List_fault E w with
    | Some e => (Err e, record (EvList (Some e)) w)
    | None => (Ok (dogs w), record (EvList None) w)
    end.

(** Modelled from the spec: [Manager.GetIdleDog]; the first worker, in the
    registry's stable order, whose state is idle, and [None] (Go's nil
    dog with a nil error) when there is none. *)
Definition mgr_GetIdleDog : M (result (option dog.Dog)) :=
  fun w =>
    match GetIdleDog_fault E w with
    | Some e => (Err e, record (EvGetIdleDog (Err e)) w)
    | None =>
        match List.find dog.is_idle (dogs w) with
        | Some d =>
            (Ok (Some d), record (EvGetIdleDog (Ok (Some (dog.Name d)))) w)
        | None => (Ok None, record (EvGetIdleDog (Ok None)) w)
        end
    end.

(** Modelled from the spec: [Manager.AssignWork]; a check-and-set from idle
    to working that records the description, a ConflictError on a worker
    that is already working, a NotFoundError on an unknown name. *)
Definition mgr_AssignWork (name desc : string) : M (option error) :=
  fun w =>
    match AssignWork_fault E w name desc with
    | Some e => (Some e, record (EvAssignWork name desc (Some e)) w)
    | None =>
        match find_dog name (dogs w) with
        | None =>
            (Some NotFoundError,
             record (EvAssignWork name desc (Some NotFoundError)) w)
        | Some d =>
            match dog.State d with
            | dog.StateWorking =>
                (Some ConflictError,
                 record (EvAssignWork name desc (Some ConflictError)) w)
            | dog.StateIdle =>
                (None,
                 record (EvAssignWork name desc None)
                   (set_dogs (update_dog name (assigned desc) (dogs w)) w))
            end
        end
    end.

(** Modelled from the spec: [Manager.ClearWork], the rollback primitive;
    the worker becomes idle and its description is cleared, and clearing
    an idle worker is a no-op, not an error. *)
Definition mgr_ClearWork (name : string) : M (option error) :=
  fun w =>
    match ClearWork_fault E w name with
    | Some e => (Some e, record (EvClearWork name (Some e)) w)
    | None =>
        match find_dog name (dogs w) with
        | None =>
            (Some NotFoundError,
             record (EvClearWork name (Some NotFoundError)) w)
        | Some _ =>
            (None,
             record (EvClearWork name None)
               (set_dogs (update_dog name cleared (dogs w)) w))
        end
    end.

(** [SessionManager.IsRunning]: the liveness probe of the external session
    controller. *)
Definition sm_IsRunning (name : string) : M (result bool) :=
  fun w =>
    let r := IsRunning_result E w name in
    (r, record (EvIsRunning name r) w).

(** Modelled from the spec: [SessionManager.Start]; brings up a session
    for the worker, associated with the work description. *)
Definition sm_Start (name : string) (opts : dog.SessionStartOptions)
    : M (option error) :=
  fun w =>
    match Start_fault E w name (dog.WorkDesc opts) with
    | Some e => (Some e, record (EvStart name (dog.WorkDesc opts) (Some e)) w)
    | None =>
        (None,
         record (EvStart name (dog.WorkDesc opts) None)
           (set_sessions (sessions w ++ [(name, dog.WorkDesc opts)]) w))
    end.

(** [Scanner.DiscoverAll]: the configured work items, as the environment
    has them. *)
Definition scanner_DiscoverAll (rigNames : list string)
    : M (result (list plugin.Plugin)) :=
  fun w =>
    let r := DiscoverAll_result E w rigNames in
    (r, record (EvDiscoverAll rigNames (fault_of r)) w).

Definition ran_since (name : string) (since : Z) (r : string * Z) : bool :=
  String.eqb (fst r) name && (since <=? snd r).

(** Modelled from the spec: [Recorder.CountRunsSince]; the number of
    recorded executions of the item within the trailing window that ends
    now, and an error on a duration string that does not parse. *)
Definition recorder_CountRunsSince (name duration : string)
    : M (result nat) :=
  fun w =>
    let r :=
      match ParseDuration E duration with
      | None => Err DurationError
      | Some d =>
          Ok (List.length (List.filter (ran_since name (now w - d)) (runs w)))
      end in
    (r, record (EvCountRunsSince name duration r) w).

Definition deliver (msg : mail.Message)
    (ms : gmap string mail.Mailbox) : gmap string mail.Mailbox :=
  <[mail.To msg := mail.Append msg (default mail.empty (ms !! mail.To msg))]> ms.

(** Modelled from the spec: [Router.Send]; a durable append to the
    recipient's mailbox, an AddressError when the recipient is empty. *)
Definition router_Send (msg : mail.Message) : M (option error) :=
  fun w =>
    match Send_fault E w msg with
    | Some e => (Some e, record (EvSend msg (Some e)) w)
    | None =>
        if String.eqb (mail.To msg) "" then
          (Some AddressError, record (EvSend msg (Some AddressError)) w)
        else
          (None,
           record (EvSend msg None)
             (set_mailboxes (deliver msg (mailboxes w)) w))
    end.

(** [mail.NewMessage] draws a fresh message id. *)
Definition mail_NewMessage (from to subject body : string) : M mail.Message :=
  fun w => (mail.NewMessage (NewMessageID E w) from to subject body, w).

Definition time_Now : M Z := fun w => (now w, w).

(** ** The handler, as in internal/daemon *)

(** [cleanupStuckDogs]: the body of the loop over the listed dogs. *)
Definition cleanupStuckDog (dg : dog.Dog) : M unit :=
  match dog.State dg with
  | dog.StateIdle => ret tt
  | dog.StateWorking =>
      r <- sm_IsRunning (dog.Name dg) ;;
      match r with
      | Err e => logf (LogSessionCheckError (dog.Name dg) e)
      | Ok true => ret tt
      | Ok false =>
          logf (LogSessionDead (dog.Name dg)) ;;;
          r <- mgr_ClearWork (dog.Name dg) ;;
          match r with
          | Some e => logf (LogClearFailed (dog.Name dg) e)
          | None => ret tt
          end
      end
  end.

Definition cleanupStuckDogs : M unit :=
  r <- mgr_List ;;
  match r with
  | Err e => logf (LogListFailed e)
  | Ok dogs => forEach cleanupStuckDog dogs
  end.

(** The cooldown evaluation of [dispatchPlugins]: [true] when the loop
    body goes on to look for an idle dog. *)
Definition cooldownElapsed (p : plugin.Plugin) (g : plugin.GateT) : M bool :=
  if String.eqb (plugin.Duration g) "" then ret true
  else
    r <- recorder_CountRunsSince (plugin.Name p) (plugin.Duration g) ;;
    match r with
    | Err e => logf (LogCooldownError (plugin.Name p) e) ;;; ret false
    | Ok count => ret (Nat.eqb count 0)
    end.

(** [fmt.Sprintf("plugin:%s", p.Name)]. *)
Definition workDescOf (p : plugin.Plugin) : string :=
  "plugin:" ++ plugin.Name p.

(** [dispatchPlugins]: from "Find an idle dog" to the end of the loop
    body. *)
Definition dispatchToIdleDog (p : plugin.Plugin) : M Ctl :=
  r <- mgr_GetIdleDog ;;
  match r with
  | Err e => logf (LogIdleDogError e) ;;; ret Return
  | Ok None => logf LogNoIdleDogs ;;; ret Return
  | Ok (Some idleDog) =>
      let workDesc := workDescOf p in
      r <- mgr_AssignWork (dog.Name idleDog) workDesc ;;
      match r with
      | Some e =>
          logf (LogAssignFailed (dog.Name idleDog) e) ;;; ret Continue
      | None =>
          r <- sm_Start (dog.Name idleDog) {| dog.WorkDesc := workDesc |} ;;
          match r with
          | Some e =>
              logf (LogStartFailed (dog.Name idleDog) e) ;;;
              clearErr <- mgr_ClearWork (dog.Name idleDog) ;;
              match clearErr with
              | Some ce =>
                  logf (LogRollbackFailed (dog.Name idleDog) ce) ;;;
                  ret Continue
              | None => ret Continue
              end
          | None =>
              msg <- mail_NewMessage "daemon"
                       ("dog/" ++ dog.Name idleDog)
                       ("Plugin: " ++ plugin.Name p)
                       (plugin.Instructions p) ;;
              t <- time_Now ;;
              let msg := mail.with_timestamp t
                           (mail.with_type mail.TypeTask msg) in
              r <- router_Send msg ;;
              match r with
              | Some e => logf (LogSendFailed (dog.Name idleDog) e)
              | None => ret tt
              end ;;;
              logf (LogDispatched (plugin.Name p) (dog.Name idleDog)) ;;;
              ret Continue
          end
      end
  end.

(** [dispatchPlugins]: the body of the loop over the discovered plugins. *)
Definition dispatchPlugin (p : plugin.Plugin) : M Ctl :=
  match plugin.Gate p with
  | None => ret Continue
  | Some g =>
      match plugin.Type_ g with
      | plugin.GateOther _ => ret Continue
      | plugin.GateCooldown =>
          go <- cooldownElapsed p g ;;
          if go then dispatchToIdleDog p else ret Continue
      end
  end.

Definition dispatchPlugins (rigsConfig : option RigsConfig) : M unit :=
  let rigNames :=
    match rigsConfig with
    | Some c => Rigs c
    | None => []
    end in
  r <- scanner_DiscoverAll rigNames ;;
  match r with
  | Err e => logf (LogDiscoverFailed e)
  | Ok [] => ret tt
  | Ok plugins => forEachCtl dispatchPlugin plugins
  end.

Definition handleDogs : M unit :=
  r <- loadRigsConfig ;;
  match r with
  | Err e => logf (LogLoadRigsFailed e)
  | Ok rigsConfig =>
      cleanupStuckDogs ;;;
      dispatchPlugins rigsConfig
  end.

End Handler.

(** ** The ways through the loop bodies

    The loop bodies as relations between the dogs before, the dogs after,
    the way the body ends and the calls it made: one constructor per way
    through the Go code. *)

(** Whether an entry of the trace is a call on the dog named [n]. *)
Definition about (n : string) (ev : Event) : bool :=
  match ev with
  | EvIsRunning m _ | EvClearWork m _ | EvAssignWork m _ _ | EvStart m _ _ =>
      String.eqb m n
  | _ => false
  end.

(** [cleanupStuckDogs], one dog of the listing; [probe] is the answer of
    the liveness probe, were it asked. *)
Inductive RepairPath (dg : dog.Dog) (probe : result bool) (ds : list dog.Dog)
    : list dog.Dog -> list Event -> Prop :=
  | NotWorking :
      dog.State dg = dog.StateIdle ->
      RepairPath dg probe ds ds []
  | ProbeFailed e :
      dog.State dg = dog.StateWorking ->
      probe = Err e ->
      RepairPath dg probe ds ds
        [EvIsRunning (dog.Name dg) (Err e);
         EvLog (LogSessionCheckError (dog.Name dg) e)]
  | SessionAlive :
      dog.State dg = dog.StateWorking ->
      probe = Ok true ->
      RepairPath dg probe ds ds [EvIsRunning (dog.Name dg) (Ok true)]
  | SessionDead clearErr :
      dog.State dg = dog.StateWorking ->
      probe = Ok false ->
      RepairPath dg probe ds
        (match clearErr with
         | None => update_dog (dog.Name dg) cleared ds
         | Some _ => ds
         end)
        ([EvIsRunning (dog.Name dg) (Ok false);
          EvLog (LogSessionDead (dog.Name dg));
          EvClearWork (dog.Name dg) clearErr]
         ++ match clearErr with
            | None => []
            | Some e => [EvLog (LogClearFailed (dog.Name dg) e)]
            end).

(** [dispatchPlugins], from the idle-dog lookup to the end of the body. *)
Inductive IdlePath (p : plugin.Plugin) (ds : list dog.Dog)
    : Ctl -> list dog.Dog -> list Event -> Prop :=
  | LookupFailed e :
      IdlePath p ds Return ds
        [EvGetIdleDog (Err e); EvLog (LogIdleDogError e)]
  | NoIdleDog :
      List.find dog.is_idle ds = None ->
      IdlePath p ds Return ds [EvGetIdleDog (Ok None); EvLog LogNoIdleDogs]
  | AssignFailed d e :
      List.find dog.is_idle ds = Some d ->
      IdlePath p ds Continue ds
        [EvGetIdleDog (Ok (Some (dog.Name d)));
         EvAssignWork (dog.Name d) (workDescOf p) (Some e);
         EvLog (LogAssignFailed (dog.Name d) e)]
  | StartFailed d dg e clearErr :
      List.find dog.is_idle ds = Some d ->
      find_dog (dog.Name d) ds = Some dg ->
      dog.State dg = dog.StateIdle ->
      IdlePath p ds Continue
        (match clearErr with
         | None =>
             update_dog (dog.Name d) cleared
               (update_dog (dog.Name d) (assigned (workDescOf p)) ds)
         | Some _ => update_dog (dog.Name d) (assigned (workDescOf p)) ds
         end)
        ([EvGetIdleDog (Ok (Some (dog.Name d)));
          EvAssignWork (dog.Name d) (workDescOf p) None;
          EvStart (dog.Name d) (workDescOf p) (Some e);
          EvLog (LogStartFailed (dog.Name d) e);
          EvClearWork (dog.Name d) clearErr]
         ++ match clearErr with
            | None => []
            | Some ce => [EvLog (LogRollbackFailed (dog.Name d) ce)]
            end)
  | Dispatched d dg msg sendErr :
      List.find dog.is_idle ds = Some d ->
      find_dog (dog.Name d) ds = Some dg ->
      dog.State dg = dog.StateIdle ->
      mail.To msg = "dog/" ++ dog.Name d ->
      mail.Body msg = plugin.Instructions p ->
      mail.Type_ msg = mail.TypeTask ->
      IdlePath p ds Continue
        (update_dog (dog.Name d) (assigned (workDescOf p)) ds)
        ([EvGetIdleDog (Ok (Some (dog.Name d)));
          EvAssignWork (dog.Name d) (workDescOf p) None;
          EvStart (dog.Name d) (workDescOf p) None;
          EvSend msg sendErr]
         ++ match sendErr with
            | None => []
            | Some e => [EvLog (LogSendFailed (dog.Name d) e)]
            end
         ++ [EvLog (LogDispatched (plugin.Name p) (dog.Name d))]).

(** [dispatchPlugins], the whole loop body. *)
Inductive BodyPath (p : plugin.Plugin) (ds : list dog.Dog)
    : Ctl -> list dog.Dog -> list Event -> Prop :=
  | NoCooldownGate :
      (plugin.Gate p = None
       \/ exists g, plugin.Gate p = Some g
                    /\ plugin.Type_ g <> plugin.GateCooldown) ->
      BodyPath p ds Continue ds []
  | CooldownQueryFailed g e :
      plugin.Gate p = Some g ->
      BodyPath p ds Continue ds
        [EvCountRunsSince (plugin.Name p) (plugin.Duration g) (Err e);
         EvLog (LogCooldownError (plugin.Name p) e)]
  | InCooldown g n :
      plugin.Gate p = Some g ->
      n <> 0%nat ->
      BodyPath p ds Continue ds
        [EvCountRunsSince (plugin.Name p) (plugin.Duration g) (Ok n)]
  | DueNoDuration g c ds' tr :
      plugin.Gate p = Some g ->
      plugin.Duration g = "" ->
      IdlePath p ds c ds' tr ->
      BodyPath p ds c ds' tr
  | DueElapsed g c ds' tr :
      plugin.Gate p = Some g ->
      IdlePath p ds c ds' tr ->
      BodyPath p ds c ds'
        (EvCountRunsSince (plugin.Name p) (plugin.Duration g) (Ok 0%nat) :: tr).

(** ** The pending-spawn tracker of internal/polecat

    Only the tests of the tracker ([pending_test.go]) are among the sources at
    hand, so the tracker itself follows the design document; the names of
    the functions, of the fields and of the notification are the tests'. *)

Module polecat.

Record PendingSpawn : Type := mkPendingSpawn {
  Rig : string;
  Polecat : string;
  Session : string;
  Issue : string;
  SpawnedAt : Z;
  MailID : string;
  (** The back-reference to the mailbox, by the name it has in the store;
      [None] is Go's nil pointer. *)
  mailbox : option string
}.

(** [Some rest] when [s] is [pre ++ rest]. *)
Fixpoint trimPrefix (pre s : string) : option string :=
  match pre with
  | EmptyString => Some s
  | String a pre' =>
      match s with
      | EmptyString => None
      | String b s' => if Ascii.eqb a b then trimPrefix pre' s' else None
      end
  end.

(** Cuts [s] at the first occurrence of the character [sep]. *)
Fixpoint cut (sep : Ascii.ascii) (s : string) : option (string * string) :=
  match s with
  | EmptyString => None
  | String a s' =>
      if Ascii.eqb a sep then Some (EmptyString, s')
      else
        match cut sep s' with
        | Some (l, r) => Some (String a l, r)
        | None => None
        end
  end.

Definition newline : Ascii.ascii := "010"%char.

Fixpoint lines (s : string) : list string :=
  match s with
  | EmptyString => [EmptyString]
  | String a s' =>
      if Ascii.eqb a newline then EmptyString :: lines s'
      else
        match lines s' with
        | l :: ls => String a l :: ls
        | [] => [String a EmptyString]
        end
  end.

(** The value of the first [key: value] line of a body. *)
Fixpoint field (key : string) (ls : list string) : option string :=
  match ls with
  | [] => None
  | l :: ls' =>
      match trimPrefix (key ++ ": ") l with
      | Some v => Some v
      | None => field key ls'
      end
  end.

(** Modelled from the spec: the parse-or-skip of one message by
    [checkMailboxForSpawns] (internal/polecat/pending.go is not part of the
    sources at hand).  The subject is [POLECAT_STARTED <rig>/<polecat>],
    the body carries a [Session:] and an [Issue:] line; a message that
    does not match, has no [/] in its subject or lacks a body field
    yields nothing. *)
Definition parseSpawn (mb : string) (msg : mail.Message)
    : option PendingSpawn :=
  match trimPrefix "POLECAT_STARTED " (mail.Subject msg) with
  | None => None
  | Some target =>
      match cut "/"%char target with
      | None => None
      | Some (rig, name) =>
          match field "Session" (lines (mail.Body msg)),
                field "Issue" (lines (mail.Body msg)) with
          | Some session, Some issue =>
              Some {| Rig := rig; Polecat := name; Session := session;
                      Issue := issue; SpawnedAt := mail.Timestamp msg;
                      MailID := mail.ID msg; mailbox := Some mb |}
          | _, _ => None
          end
      end
  end.

(** Modelled from the spec: the loop of [checkMailboxForSpawns] over the
    active messages, in the order of the inbox. *)
Fixpoint scan (mb : string) (msgs : list mail.Message) : list PendingSpawn :=
  match msgs with
  | [] => []
  | msg :: msgs' =>
      match parseSpawn mb msg with
      | Some ps => ps :: scan mb msgs'
      | None => scan mb msgs'
      end
  end.

(** Modelled from the spec: [checkMailboxForSpawns]; one pending spawn per
    matching active message of the mailbox named [mb], each holding a
    back-reference to the mailbox and the id of its message.  A mailbox
    that was never written to is empty. *)
Definition checkMailboxForSpawns (mb : string)
    (store : gmap string mail.Mailbox) : result (list PendingSpawn) :=
  Ok (scan mb (mail.active (default mail.empty (store !! mb)))).

(** Modelled from the spec: archiving through the back-reference of an
    entry, [ps.mailbox.ArchiveByID(ps.MailID)]. *)
Definition archive (mb id : string)
    (store : gmap string mail.Mailbox) : gmap string mail.Mailbox :=
  alter (mail.ArchiveByID id) mb store.

(** Modelled from the spec: an entry is stale when it was spawned before
    the cutoff [now - maxAge]. *)
Definition stale (cutoff : Z) (ps : PendingSpawn) : bool :=
  SpawnedAt ps <? cutoff.

(** Modelled from the spec: the loop of [pruneStalePendingFromList], with
    the number of entries pruned so far. *)
Fixpoint pruneLoop (cutoff : Z) (pending : list PendingSpawn) (pruned : nat)
    (store : gmap string mail.Mailbox)
    : result nat * gmap string mail.Mailbox :=
  match pending with
  | [] => (Ok pruned, store)
  | ps :: rest =>
      if stale cutoff ps then
        match mailbox ps with
        | None => (Err NilMailboxError, store)
        | Some mb => pruneLoop cutoff rest (S pruned) (archive mb (MailID ps) store)
        end
      else pruneLoop cutoff rest pruned store
  end.

(** Modelled from the spec: [pruneStalePendingFromList]; archives, through
    its back-reference, every entry spawned before [now - maxAge] and
    returns how many it pruned; an entry to archive without a mailbox is a
    NilMailboxError. *)
Definition pruneStalePendingFromList (now : Z) (pending : list PendingSpawn)
    (maxAge : Z) (store : gmap string mail.Mailbox)
    : result nat * gmap string mail.Mailbox :=
  pruneLoop (now - maxAge) pending 0%nat store.



(** Whether the message backs an entry of [pending] that is stale. *)
Definition backs_stale (cutoff : Z) (pending : list PendingSpawn)
    (id : string) : bool :=
  existsb (fun ps => stale cutoff ps && String.eqb id (MailID ps)) pending.

End polecat.

(** ** Frame condition on the run-history *)

(** A computation that leaves the gate run-history as it found it. *)
Definition keeps_runs {A : Type} (c : M A) : Prop :=
  forall w, runs (run c w) = runs w.

(** ** Concrete worlds used to exercise the definitions *)

Module Sample.

Definition rex : dog.Dog := dog.mkDog "rex" dog.StateIdle "".
Definition fido : dog.Dog := dog.mkDog "fido" dog.StateWorking "plugin:gc".

Definition world (ds : list dog.Dog) : World :=
  {| dogs := ds; sessions := []; mailboxes := ∅; runs := []; now := 1000;
     trace := [] |}.

Definition parse (s : string) : option Z :=
  if String.eqb s "1h" then Some 3600 else None.

(** An environment whose scanner returns [ps] and whose probed sessions
    are all dead; the faults of the idle-dog lookup, of ClearWork, of
    Session.Start and of Router.Send are given. *)
Definition env (ps : list plugin.Plugin)
    (idle : World -> option error)
    (clear : World -> string -> option error)
    (start : World -> string -> string -> option error)
    (send : World -> mail.Message -> option error) : Env :=
  {| loadRigsConfig_result := fun _ => Ok (Some {| Rigs := ["gastown"] |});
     List_fault := fun _ => None;
     IsRunning_result := fun _ _ => Ok false;
     ClearWork_fault := clear;
     DiscoverAll_result := fun _ _ => Ok ps;
     ParseDuration := parse;
     GetIdleDog_fault := idle;
     AssignWork_fault := fun _ _ _ => None;
     Start_fault := start;
     Send_fault := send;
     NewMessageID := fun _ => "msg" |}.

(** Every collaborator answers. *)
Definition calm (ps : list plugin.Plugin) : Env :=
  env ps (fun _ => None) (fun _ _ => None) (fun _ _ _ => None)
    (fun _ _ => None).

(** The rigs configuration cannot be loaded. *)
Definition no_config : Env :=
  {| loadRigsConfig_result := fun _ => Err StorageError;
     List_fault := fun _ => None;
     IsRunning_result := fun _ _ => Ok false;
     ClearWork_fault := fun _ _ => None;
     DiscoverAll_result := fun _ _ => Ok [];
     ParseDuration := parse;
     GetIdleDog_fault := fun _ => None;
     AssignWork_fault := fun _ _ _ => None;
     Start_fault := fun _ _ _ => None;
     Send_fault := fun _ _ => None;
     NewMessageID := fun _ => "msg" |}.

(** The idle-dog lookup fails the first time it is called in a dispatch
    pass, and answers afterwards. *)
Definition first_lookup_fails (w : World) : option error :=
  if (List.length (trace w) <=? 1)%nat then Some StorageError else None.


Definition spot : dog.Dog := dog.mkDog "spot" dog.StateIdle "".

Definition cooldown (name dur : string) : plugin.Plugin :=
  plugin.mkPlugin name "do it" (Some (plugin.mkGate plugin.GateCooldown dur)).

Definition ungated (name : string) : plugin.Plugin :=
  plugin.mkPlugin name "do it" None.

Definition started : mail.Message :=
  {| mail.ID := "mail-001"; mail.From := "witness"; mail.To := "deacon";
     mail.Subject := "POLECAT_STARTED gastown/Toast";
     mail.Body := "Session: gt-gastown-polecat-Toast"
                  ++ String polecat.newline "Issue: gt-abc123";
     mail.Type_ := mail.TypeNotification; mail.Timestamp := 940 |}.

Definition mail (id subject body : string) (ts : Z) : mail.Message :=
  {| mail.ID := id; mail.From := "witness"; mail.To := "deacon";
     mail.Subject := subject; mail.Body := body;
     mail.Type_ := mail.TypeNotification; mail.Timestamp := ts |}.

Definition body (session issue : string) : string :=
  "Session: " ++ session ++ String polecat.newline ("Issue: " ++ issue).

Definition health_check : mail.Message :=
  mail "mail-002" "HEALTH_CHECK gastown/Toast"
    "Session: gt-gastown-polecat-Toast" 950.

Definition no_slash : mail.Message :=
  mail "mail-003" "POLECAT_STARTED no-slash-here"
    (body "some-session" "gt-abc") 960.

Definition other_mail : mail.Message :=
  mail "mail-004" "Some other mail" "Not a spawn notification" 970.

(** Two notifications, ten minutes and one minute old at time 1000 (in
    seconds). *)
Definition old_toast : mail.Message :=
  mail "mail-old" "POLECAT_STARTED gastown/OldToast"
    (body "gt-gastown-polecat-OldToast" "gt-old") 400.

Definition new_toast : mail.Message :=
  mail "mail-new" "POLECAT_STARTED gastown/NewToast"
    (body "gt-gastown-polecat-NewToast" "gt-new") 940.

Definition deacon_store : gmap string mail.Mailbox :=
  {[ "deacon" := mail.mkMailbox [old_toast; new_toast] [] ]}.

End Sample.

(** ** Measures on the registry and on the trace *)

(** The invariant of the registry: a dog is working exactly when it carries
    a work description. *)
Definition well_formed (d : dog.Dog) : Prop :=
  dog.State d = dog.StateWorking <-> dog.Work d <> "".

Definition idle_count (ds : list dog.Dog) : nat :=
  List.length (List.filter dog.is_idle ds).

(** Whether an entry of the trace is a session start that succeeded. *)
Definition is_started (ev : Event) : bool :=
  match ev with
  | EvStart _ _ None => true
  | _ => false
  end.

Definition sessions_started (tr : list Event) : nat :=
  List.length (List.filter is_started tr).

(** A computation under which a property of the registry is stable. *)
Definition keeps_dogs (P : list dog.Dog -> Prop) {A : Type} (c : M A) : Prop :=
  forall w, P (dogs w) -> P (dogs (run c w)).

(** Whether an entry of the trace is an idle-dog lookup. *)
Definition is_lookup (ev : Event) : bool :=
  match ev with
  | EvGetIdleDog _ => true
  | _ => false
  end.

(** Whether an entry of the trace is a call that claims a dog, starts a
    session or sends mail (what the stuck-repair pass has no business
    doing). *)
Definition is_claim (ev : Event) : bool :=
  match ev with
  | EvAssignWork _ _ _ | EvStart _ _ _ | EvSend _ _ => true
  | _ => false
  end.

(** An environment none of whose registry, session and mail calls fails. *)
Definition healthy (E : Env) : Prop :=
  (forall w, GetIdleDog_fault E w = None)
  /\ (forall w n d, AssignWork_fault E w n d = None)
  /\ (forall w n d, Start_fault E w n d = None)
  /\ (forall w m, Send_fault E w m = None).

(** The cooldown of an item has elapsed: its gate has no duration, or the
    duration parses and no run of the item is recorded inside the trailing
    window. *)
Definition due (E : Env) (p : plugin.Plugin) (g : plugin.GateT) (w : World)
    : Prop :=
  plugin.Duration g = ""
  \/ exists d,
       ParseDuration E (plugin.Duration g) = Some d
       /\ forall ts, In (plugin.Name p, ts) (runs w) -> ts < now w - d.

(** A computation that leaves a component of the world as it found it. *)
Definition keeps {X A : Type} (f : World -> X) (c : M A) : Prop :=
  forall w, f (run c w) = f w.

(** ** Helpers of the test suite of internal/polecat *)

(** [containsSubstr] of pending_test.go, the body of its loop from index [i]
    with [steps] iterations left. *)
Fixpoint containsSubstrFrom (s substr : string) (i steps : nat) : bool :=
  match steps with
  | O => false
  | S steps' =>
      if String.eqb (String.substring i (String.length substr) s) substr
      then true
      else containsSubstrFrom s substr (S i) steps'
  end.

(** [containsSubstr]: the loop runs for [i] from [0] while
    [i <= len(s) - len(substr)], a bound that is negative when the substring
    is the longer one. *)
Definition containsSubstr (s substr : string) : bool :=
  containsSubstrFrom s substr 0
    (Z.to_nat (Z.of_nat (String.length s) - Z.of_nat (String.length substr) + 1)).

(** Modelled from the spec: the loop of [clearPendingSpawnFromList]
    (internal/polecat/pending.go is not part of the sources at hand, its
    tests are); every entry of the session is archived through its
    back-reference, and an entry to archive without a mailbox is a
    NilMailboxError. *)
Fixpoint clearPendingSpawnFromList (pending : list polecat.PendingSpawn)
    (session : string) (store : gmap string mail.Mailbox)
    : option error * gmap string mail.Mailbox :=
  match pending with
  | [] => (None, store)
  | ps :: rest =>
      if String.eqb (polecat.Session ps) session then
        match polecat.mailbox ps with
        | None => (Some NilMailboxError, store)
        | Some mb =>
            clearPendingSpawnFromList rest session
              (polecat.archive mb (polecat.MailID ps) store)
        end
      else clearPendingSpawnFromList rest session store
  end.

(** Whether the message id backs an entry of [pending] of the session. *)
Definition backs_session (session : string)
    (pending : list polecat.PendingSpawn) (id : string) : bool :=
  existsb (fun ps => String.eqb (polecat.Session ps) session
                     && String.eqb id (polecat.MailID ps)) pending.

(** ** Strings as Go reads and writes them

    A Go string is a sequence of bytes.  [for _, r := range s] decodes it
    rune by rune as [utf8.DecodeRuneInString] does, and
    [strings.Builder.WriteRune] appends what [utf8.AppendRune] gives; both
    are Go's standard library, embedded here as far as the code relies on
    them. *)

Module utf8.

Definition rune : Type := Z.

Definition RuneError : rune := 0xFFFD.

(** A byte as a number, and the byte of a number from 0 to 255. *)
Definition byteOf (c : ascii) : Z := Z.of_N (N_of_ascii c).
Definition chr (x : Z) : ascii := ascii_of_N (Z.to_N x).

(** The conversion [byte(x)] of an integer. *)
Definition byte (x : Z) : Z := Z.land x 0xFF.

(** [s[i]]; read in range only. *)
Definition at_ (s : string) (i : nat) : Z :=
  match String.get i s with
  | Some c => byteOf c
  | None => 0
  end.

(** The table [first] with its [acceptRanges], for a leading byte that is
    not ASCII: the size of the encoding and the range of the second byte,
    [None] for a byte that starts no encoding. *)
Definition first (s0 : Z) : option (nat * Z * Z) :=
  if (0xC2 <=? s0) && (s0 <=? 0xDF) then Some (2%nat, 0x80, 0xBF)
  else if s0 =? 0xE0 then Some (3%nat, 0xA0, 0xBF)
  else if (0xE1 <=? s0) && (s0 <=? 0xEC) then Some (3%nat, 0x80, 0xBF)
  else if s0 =? 0xED then Some (3%nat, 0x80, 0x9F)
  else if (0xEE <=? s0) && (s0 <=? 0xEF) then Some (3%nat, 0x80, 0xBF)
  else if s0 =? 0xF0 then Some (4%nat, 0x90, 0xBF)
  else if (0xF1 <=? s0) && (s0 <=? 0xF3) then Some (4%nat, 0x80, 0xBF)
  else if s0 =? 0xF4 then Some (4%nat, 0x80, 0x8F)
  else None.

(** [utf8.DecodeRuneInString]: the first rune of [s] and its width in
    bytes; [(RuneError, 1)] when the encoding is invalid. *)
Definition DecodeRuneInString (s : string) : rune * nat :=
  match s with
  | EmptyString => (RuneError, 0%nat)
  | String c _ =>
      let s0 := byteOf c in
      if s0 <? 0x80 then (s0, 1%nat)
      else
        match first s0 with
        | None => (RuneError, 1%nat)
        | Some (sz, lo, hi) =>
            if (String.length s <? sz)%nat then (RuneError, 1%nat)
            else
              let s1 := at_ s 1 in
              if (s1 <? lo) || (hi <? s1) then (RuneError, 1%nat)
              else if (sz <=? 2)%nat then
                (Z.lor (Z.shiftl (Z.land s0 0x1F) 6) (Z.land s1 0x3F), 2%nat)
              else
                let s2 := at_ s 2 in
                if (s2 <? 0x80) || (0xBF <? s2) then (RuneError, 1%nat)
                else if (sz <=? 3)%nat then
                  (Z.lor (Z.lor (Z.shiftl (Z.land s0 0x0F) 12)
                                (Z.shiftl (Z.land s1 0x3F) 6))
                         (Z.land s2 0x3F), 3%nat)
                else
                  let s3 := at_ s 3 in
                  if (s3 <? 0x80) || (0xBF <? s3) then (RuneError, 1%nat)
                  else
                    (Z.lor (Z.lor (Z.lor (Z.shiftl (Z.land s0 0x07) 18)
                                         (Z.shiftl (Z.land s1 0x3F) 12))
                                  (Z.shiftl (Z.land s2 0x3F) 6))
                           (Z.land s3 0x3F), 4%nat)
        end
  end.

(** The runes [for _, r := range s] yields: the loop decodes at the
    current index and advances by the width, [skip] being the bytes of the
    current encoding still to pass. *)
Fixpoint rangeFrom (s : string) (skip : nat) : list rune :=
  match s with
  | EmptyString => []
  | String c rest =>
      match skip with
      | S k => rangeFrom rest k
      | O =>
          let (r, w) := DecodeRuneInString (String c rest) in
          r :: rangeFrom rest (w - 1)
      end
  end.

Definition range (s : string) : list rune := rangeFrom s 0.

(** [utf8.ValidString]: no step of the decoding is an invalid encoding. *)
Fixpoint validFrom (s : string) (skip : nat) : bool :=
  match s with
  | EmptyString => true
  | String c rest =>
      match skip with
      | S k => validFrom rest k
      | O =>
          let (r, w) := DecodeRuneInString (String c rest) in
          negb ((r =? RuneError) && (w =? 1)%nat) && validFrom rest (w - 1)
      end
  end.

Definition ValidString (s : string) : bool := validFrom s 0.

(** The continuation byte [tx | byte(x)&maskx]. *)
Definition cont (x : Z) : ascii := chr (Z.lor 0x80 (Z.land (byte x) 0x3F)).

(** [utf8.AppendRune] to an empty buffer: the encoding of a rune, that of
    [RuneError] for a surrogate or a value that is no code point. *)
Definition AppendRune (r : rune) : string :=
  if (0 <=? r) && (r <=? 0x7F) then String (chr (byte r)) ""
  else if (0 <=? r) && (r <=? 0x7FF) then
    String (chr (Z.lor 0xC0 (byte (Z.shiftr r 6)))) (String (cont r) "")
  else if (0 <=? r) && ((r <? 0xD800) || (0xDFFF <? r) && (r <=? 0xFFFF)) then
    String (chr (Z.lor 0xE0 (byte (Z.shiftr r 12))))
      (String (cont (Z.shiftr r 6)) (String (cont r) ""))
  else if (0xFFFF <? r) && (r <=? 0x10FFFF) then
    String (chr (Z.lor 0xF0 (byte (Z.shiftr r 18))))
      (String (cont (Z.shiftr r 12))
         (String (cont (Z.shiftr r 6)) (String (cont r) "")))
  else String (chr 0xEF) (String (chr 0xBF) (String (chr 0xBD) "")).

(** The conversion [string(rs)] of a slice of runes: their encodings in a
    row. *)
Fixpoint encode (rs : list rune) : string :=
  match rs with
  | [] => ""
  | r :: rest => AppendRune r ++ encode rest
  end.

End utf8.

(** ** Test utilities: [parseCSVLine] of internal/testutil (Windows) *)

Module testutil.

Definition quote : utf8.rune := 34.
Definition comma : utf8.rune := 44.

(** The variables of the loop: the fields so far, the builder and the
    quoting flag. *)
Record CSVState : Type := mkCSV {
  fields : list string;
  current : string;
  inQuotes : bool
}.

(** [current.WriteRune(r)]. *)
Definition WriteRune (current : string) (r : utf8.rune) : string :=
  current ++ utf8.AppendRune r.

(** One turn of the loop over the runes of the line. *)
Definition csvStep (st : CSVState) (r : utf8.rune) : CSVState :=
  if r =? quote then mkCSV (fields st) (current st) (negb (inQuotes st))
  else if r =? comma then
    if inQuotes st then
      mkCSV (fields st) (WriteRune (current st) r) (inQuotes st)
    else mkCSV (fields st ++ [current st])%list "" (inQuotes st)
  else mkCSV (fields st) (WriteRune (current st) r) (inQuotes st).

Definition csvFinish (st : CSVState) : list string :=
  (fields st ++ [current st])%list.

Definition parseCSVLine (line : string) : list string :=
  csvFinish (fold_left csvStep (utf8.range line) (mkCSV [] "" false)).

(** The double quote and the comma as bytes, and a field between double
    quotes. *)
Definition dquote : ascii := utf8.chr 34.

Definition quoted (f : string) : string :=
  String dquote (f ++ String dquote "").

(** Whether a string holds the byte. *)
Definition holds (c : ascii) (s : string) : Prop :=
  In c (list_ascii_of_string s).

End testutil.

(** ** The doctor's leak check: [extractDataDir] *)

Module doctor.

(** [extractDataDir], the loop over the whitespace-separated parts of the
    command line: the part after [--data-dir] when there is one, or what
    follows [--data-dir=], whichever comes first. *)
Fixpoint extractDataDirParts (parts : list string) : string :=
  match parts with
  | [] => ""
  | part :: rest =>
      let otherwise :=
        match polecat.trimPrefix "--data-dir=" part with
        | Some v => v
        | None => extractDataDirParts rest
        end in
      if String.eqb part "--data-dir" then
        match rest with
        | next :: _ => next
        | [] => otherwise
        end
      else otherwise
  end.

(** [extractDataDir]; [Fields] is Go's [strings.Fields]. *)
Definition extractDataDir (Fields : string -> list string) (args : string)
    : string :=
  extractDataDirParts (Fields args).

(** A part that is the flag, in either of its two spellings. *)
Definition is_data_dir_flag (part : string) : bool :=
  String.eqb part "--data-dir" || String.prefix "--data-dir=" part.

End doctor.

(** ** The compactor dog of internal/daemon *)

Module compactor.

Record CompactorDogConfig : Type := mkCompactorDogConfig {
  Enabled : bool;
  IntervalStr : string;
  Databases : list string;
  CommitThreshold : Z
}.

(** The declarations of [DaemonPatrolConfig] and of its [Patrols] are not
    among the sources at hand; they are modelled with the field the
    accessors of the compactor read, [None] being Go's nil pointer. *)
Record PatrolsConfig : Type := { CompactorDog : option CompactorDogConfig }.
Record DaemonPatrolConfig : Type := { Patrols : option PatrolsConfig }.

(** [config != nil && config.Patrols != nil &&
    config.Patrols.CompactorDog != nil], with the configuration it guards. *)
Definition configured (config : option DaemonPatrolConfig)
    : option CompactorDogConfig :=
  match config with
  | Some c =>
      match Patrols c with
      | Some ps => CompactorDog ps
      | None => None
      end
  | None => None
  end.

(** Durations are counted in nanoseconds, as [time.Duration]. *)
Definition hour : Z := 3600 * 1000000000.
Definition defaultCompactorDogInterval : Z := 24 * hour.
Definition compactorDogDefaultCommitThreshold : Z := 500.

(** [compactorDogInterval]; [ParseDuration] is Go's [time.ParseDuration],
    [None] when it returns an error. *)
Definition compactorDogInterval (ParseDuration : string -> option Z)
    (config : option DaemonPatrolConfig) : Z :=
  match configured config with
  | Some cd =>
      if String.eqb (IntervalStr cd) "" then defaultCompactorDogInterval
      else
        match ParseDuration (IntervalStr cd) with
        | Some d => if 0 <? d then d else defaultCompactorDogInterval
        | None => defaultCompactorDogInterval
        end
  | None => defaultCompactorDogInterval
  end.

Definition compactorDogDatabases (config : option DaemonPatrolConfig)
    : list string :=
  match configured config with
  | Some cd =>
      if (0 <? Z.of_nat (List.length (Databases cd))) then Databases cd
      else ["hq"; "beads"; "gastown"]
  | None => ["hq"; "beads"; "gastown"]
  end.

Definition compactorDogCommitThreshold (config : option DaemonPatrolConfig)
    : Z :=
  match configured config with
  | Some cd =>
      if 0 <? CommitThreshold cd then CommitThreshold cd
      else compactorDogDefaultCommitThreshold
  | None => compactorDogDefaultCommitThreshold
  end.

(** [validDoltHash], the regular expression [^[0-9a-v]{32}$]: thirty-two
    bytes, each a digit or a letter from a to v. *)
Definition hashChar (c : Ascii.ascii) : bool :=
  let n := Ascii.nat_of_ascii c in
  ((48 <=? n) && (n <=? 57) || (97 <=? n) && (n <=? 118))%nat.

Definition validDoltHash (s : string) : bool :=
  (String.length s =? 32)%nat && forallb hashChar (String.list_ascii_of_string s).

(** The statements [compactorDogFlattenDatabase] executes; the temporary
    branch is always [gt-compaction]. *)
Inductive Stmt : Type :=
  | DeleteTempBranch
  | CreateTempBranch
  | SoftReset (hash : string)
  | CommitAll
  | CheckoutMain
  | HardReset (hash : string).

Inductive FlattenLog : Type :=
  | LogSkipping (commits threshold : Z)
  | LogFlattening (commits threshold : Z)
  | LogAlreadyFlat
  | LogMainMoved (was now_ : string)
  | LogDeleteWarning (e : error)
  | LogCountWarning (e : error)
  | LogFlattened (before after : Z).

(** What happened on the connection, in order. *)
Inductive DbEvent : Type :=
  | DbOpen (r : option error)
  | QCount (r : result Z)
  | QHead (r : result string)
  | QRoot (r : result string)
  | Exec (s : Stmt) (r : option error)
  | DbLog (l : FlattenLog).

(** The answers of the database server, which may depend on everything
    that happened on the connection so far. *)
Record DbEnv : Type := mkDbEnv {
  open_fault : option error;
  count_result : list DbEvent -> result Z;
  head_result : list DbEvent -> result string;
  root_result : list DbEvent -> result string;
  exec_fault : list DbEvent -> Stmt -> option error
}.

(** The errors [compactorDogFlattenDatabase] returns, by the step they
    wrap. *)
Inductive FlattenError : Type :=
  | ErrOpen (e : error)
  | ErrCount (e : error)
  | ErrGetHead (e : error)
  | ErrGetRoot (e : error)
  | ErrInvalidHead (hash : string)
  | ErrInvalidRoot (hash : string)
  | ErrCreateBranch (e : error)
  | ErrSoftReset (e : error)
  | ErrCommit (e : error)
  | ErrFlattenedHead (e : error)
  | ErrCheckoutMain (e : error)
  | ErrVerifyHead (e : error)
  | ErrResetMain (e : error).

(** How a call ends: it returns [(compacted, err)], or the slice
    [currentMain[:8]] of the log line panics. *)
Inductive Outcome : Type :=
  | Returned (compacted : bool) (err : option FlattenError)
  | Panicked.

(** Computations on the connection that may return from the function. *)
Definition D (A : Type) : Type :=
  list DbEvent -> (A + Outcome) * list DbEvent.

Definition dret {A : Type} (a : A) : D A := fun tr => (inl a, tr).

Definition dbind {A B : Type} (c : D A) (k : A -> D B) : D B :=
  fun tr =>
    match c tr with
    | (inl a, tr') => k a tr'
    | (inr o, tr') => (inr o, tr')
    end.

Definition leave {A : Type} (o : Outcome) : D A := fun tr => (inr o, tr).

Declare Scope db_scope.
Delimit Scope db_scope with db.
Notation "x <- c ;; k" := (dbind c (fun x => k))
  (at level 100, c at next level, right associativity) : db_scope.
Notation "c ;;; k" := (dbind c (fun _ => k))
  (at level 100, right associativity) : db_scope.

Definition note (e : DbEvent) : D unit := fun tr => (inl tt, (tr ++ [e])%list).

Definition dlog (l : FlattenLog) : D unit := note (DbLog l).

Section Flatten.

Variable E : DbEnv.

Local Open Scope db_scope.

Definition sqlOpen : D (option error) :=
  fun tr => (inl (open_fault E), (tr ++ [DbOpen (open_fault E)])%list).

(** [compactorDogCountCommits]. *)
Definition countCommits : D (result Z) :=
  fun tr => let r := count_result E tr in (inl r, (tr ++ [QCount r])%list).

(** [compactorDogGetHead]. *)
Definition getHead : D (result string) :=
  fun tr => let r := head_result E tr in (inl r, (tr ++ [QHead r])%list).

(** [compactorDogGetRootHash]. *)
Definition getRootHash : D (result string) :=
  fun tr => let r := root_result E tr in (inl r, (tr ++ [QRoot r])%list).

(** [db.ExecContext]. *)
Definition exec (s : Stmt) : D (option error) :=
  fun tr => let r := exec_fault E tr s in (inl r, (tr ++ [Exec s r])%list).

(** The cleanup of the failure branches: back to main, temporary branch
    deleted, both results ignored. *)
Definition backToMain : D unit :=
  exec CheckoutMain ;;; exec DeleteTempBranch ;;; dret tt.

(** [compactorDogFlattenDatabase]. *)
Definition flatten (threshold : Z) : D Outcome :=
  r <- sqlOpen ;;
  match r with
  | Some e => leave (Returned false (Some (ErrOpen e)))
  | None =>
  (* 1. Count commits. *)
  r <- countCommits ;;
  match r with
  | Err e => leave (Returned false (Some (ErrCount e)))
  | Ok commitCount =>
  if commitCount <? threshold then
    dlog (LogSkipping commitCount threshold) ;;; leave (Returned false None)
  else
  dlog (LogFlattening commitCount threshold) ;;;
  (* 2. Record main's HEAD hash. *)
  r <- getHead ;;
  match r with
  | Err e => leave (Returned false (Some (ErrGetHead e)))
  | Ok mainHead =>
  (* 3. Get the root commit hash. *)
  r <- getRootHash ;;
  match r with
  | Err e => leave (Returned false (Some (ErrGetRoot e)))
  | Ok rootHash =>
  if negb (validDoltHash mainHead) then
    leave (Returned false (Some (ErrInvalidHead mainHead)))
  else if negb (validDoltHash rootHash) then
    leave (Returned false (Some (ErrInvalidRoot rootHash)))
  else if String.eqb mainHead rootHash then
    dlog LogAlreadyFlat ;;; leave (Returned false None)
  else
  (* 4. Clean up a leftover temporary branch. *)
  exec DeleteTempBranch ;;;
  (* 5. Create the temporary branch. *)
  r <- exec CreateTempBranch ;;
  match r with
  | Some e => leave (Returned false (Some (ErrCreateBranch e)))
  | None =>
  (* 6. Soft reset to the root commit. *)
  r <- exec (SoftReset rootHash) ;;
  match r with
  | Some e => backToMain ;;; leave (Returned false (Some (ErrSoftReset e)))
  | None =>
  (* 7. Commit all data as a single commit. *)
  r <- exec CommitAll ;;
  match r with
  | Some e => backToMain ;;; leave (Returned false (Some (ErrCommit e)))
  | None =>
  (* 8. Get the flattened commit hash. *)
  r <- getHead ;;
  match r with
  | Err e => backToMain ;;; leave (Returned false (Some (ErrFlattenedHead e)))
  | Ok newHead =>
  (* 9. Switch back to main. *)
  r <- exec CheckoutMain ;;
  match r with
  | Some e => leave (Returned false (Some (ErrCheckoutMain e)))
  | None =>
  (* 10. Verify main has not moved. *)
  r <- getHead ;;
  match r with
  | Err e =>
      exec DeleteTempBranch ;;; leave (Returned false (Some (ErrVerifyHead e)))
  | Ok currentMain =>
  if negb (String.eqb currentMain mainHead) then
    if (String.length currentMain <? 8)%nat then leave Panicked
    else
      dlog (LogMainMoved (String.substring 0 8 mainHead)
                         (String.substring 0 8 currentMain)) ;;;
      exec DeleteTempBranch ;;;
      leave (Returned false None)
  else
  (* 11. Hard reset main to the flattened commit. *)
  r <- exec (HardReset newHead) ;;
  match r with
  | Some e =>
      exec DeleteTempBranch ;;; leave (Returned false (Some (ErrResetMain e)))
  | None =>
  (* 12. Delete the temporary branch. *)
  r <- exec DeleteTempBranch ;;
  match r with
  | Some e => dlog (LogDeleteWarning e)
  | None => dret tt
  end ;;;
  (* 13. Verify the flatten worked. *)
  r <- countCommits ;;
  match r with
  | Err e => dlog (LogCountWarning e)
  | Ok newCount => dlog (LogFlattened commitCount newCount)
  end ;;;
  dret (Returned true None)
  end end end end end end end end end end end.

(** The call on a fresh connection: how it ends, and what happened on the
    connection. *)
Definition compactorDogFlattenDatabase (threshold : Z)
    : Outcome * list DbEvent :=
  match flatten threshold [] with
  | (inl o, tr) => (o, tr)
  | (inr o, tr) => (o, tr)
  end.

End Flatten.

Definition is_exec (ev : DbEvent) : bool :=
  match ev with
  | Exec _ _ => true
  | _ => false
  end.

End compactor.

(** A database for exercising the compactor: 600 commits, a main branch
    whose head is [main_hash] until it is hard-reset, a root commit
    [root_hash], and a flattened commit [flat_hash] on the temporary
    branch; every statement succeeds. *)
Module SampleDb.

Definition main_hash : string := "0123456789abcdefghijklmnopqrstuv".
Definition root_hash : string := "00000000000000000000000000000000".
Definition flat_hash : string := "vvvvvvvvvvvvvvvvvvvvvvvvvvvvvvvv".

Definition head (tr : list compactor.DbEvent) : result string :=
  match List.last tr (compactor.DbOpen None) with
  | compactor.Exec compactor.CommitAll _ => Ok flat_hash
  | _ => Ok main_hash
  end.

Definition steady : compactor.DbEnv :=
  {| compactor.open_fault := None;
     compactor.count_result := fun _ => Ok 600;
     compactor.head_result := head;
     compactor.root_result := fun _ => Ok root_hash;
     compactor.exec_fault := fun _ _ => None |}.

(** The same database with a concurrent writer: main has moved to
    [moved_hash] when it is read again after the flattening. *)
Definition moved_hash : string := "abcdefghijklmnopqrstuv0123456789".

Definition racing : compactor.DbEnv :=
  {| compactor.open_fault := None;
     compactor.count_result := fun _ => Ok 600;
     compactor.head_result :=
       fun tr =>
         match List.last tr (compactor.DbOpen None) with
         | compactor.Exec compactor.CommitAll _ => Ok flat_hash
         | compactor.Exec compactor.CheckoutMain _ => Ok moved_hash
         | _ => Ok main_hash
         end;
     compactor.root_result := fun _ => Ok root_hash;
     compactor.exec_fault := fun _ _ => None |}.

(** A server that answers the reading of main's head after the checkout
    with a value shorter than a hash. *)
Definition truncated : compactor.DbEnv :=
  {| compactor.open_fault := None;
     compactor.count_result := fun _ => Ok 600;
     compactor.head_result :=
       fun tr =>
         match List.last tr (compactor.DbOpen None) with
         | compactor.Exec compactor.CommitAll _ => Ok flat_hash
         | compactor.Exec compactor.CheckoutMain _ => Ok "abc"
         | _ => Ok main_hash
         end;
     compactor.root_result := fun _ => Ok root_hash;
     compactor.exec_fault := fun _ _ => None |}.

End SampleDb.

(** * Properties *)

Local Open Scope list_scope.

(** ** Bookkeeping on worlds and traces *)

Ltac unfold_prims :=
  unfold bind, ret, logf, emit, mgr_List, mgr_GetIdleDog, mgr_AssignWork,
    mgr_ClearWork, sm_IsRunning, sm_Start, scanner_DiscoverAll,
    recorder_CountRunsSince, router_Send, mail_NewMessage, time_Now,
    loadRigsConfig in *.

Ltac unfold_body :=
  unfold dispatchPlugin, cooldownElapsed, dispatchToIdleDog in *; unfold_prims.

(** The run-history is read, never written, by every step of the handler. *)
Lemma keeps_ret {A : Type} (a : A) : keeps_runs (ret a).
Proof. intros w. reflexivity. Qed.

Lemma keeps_bind {A B : Type} (c : M A) (k : A -> M B) :
  keeps_runs c -> (forall a, keeps_runs (k a)) -> keeps_runs (bind c k).
Proof.
  intros Hc Hk w. unfold keeps_runs, run, bind in *.
  specialize (Hc w). destruct (c w) as [a w1]. simpl in Hc.
  rewrite Hk. exact Hc.
Qed.

Lemma keeps_emit e : keeps_runs (emit e).
Proof. intros w. reflexivity. Qed.

Lemma keeps_forEach {A : Type} (body : A -> M unit) (xs : list A) :
  (forall x, keeps_runs (body x)) -> keeps_runs (forEach body xs).
Proof.
  intros Hbody. induction xs as [|x xs IH]; simpl.
  - apply keeps_ret.
  - apply keeps_bind; auto.
Qed.

Lemma keeps_forEachCtl {A : Type} (body : A -> M Ctl) (xs : list A) :
  (forall x, keeps_runs (body x)) -> keeps_runs (forEachCtl body xs).
Proof.
  intros Hbody. induction xs as [|x xs IH]; simpl.
  - apply keeps_ret.
  - apply keeps_bind; [auto|]. intros [|]; [exact IH | apply keeps_ret].
Qed.

Ltac keeps_prim :=
  intros w; unfold run; unfold_prims; repeat case_match; reflexivity.

Lemma keeps_loadRigsConfig E : keeps_runs (loadRigsConfig E).
Proof. keeps_prim. Qed.
Lemma keeps_List E : keeps_runs (mgr_List E).
Proof. keeps_prim. Qed.
Lemma keeps_GetIdleDog E : keeps_runs (mgr_GetIdleDog E).
Proof. keeps_prim. Qed.
Lemma keeps_AssignWork E n d : keeps_runs (mgr_AssignWork E n d).
Proof. keeps_prim. Qed.
Lemma keeps_ClearWork E n : keeps_runs (mgr_ClearWork E n).
Proof. keeps_prim. Qed.
Lemma keeps_IsRunning E n : keeps_runs (sm_IsRunning E n).
Proof. keeps_prim. Qed.
Lemma keeps_Start E n o : keeps_runs (sm_Start E n o).
Proof. keeps_prim. Qed.
Lemma keeps_DiscoverAll E rs : keeps_runs (scanner_DiscoverAll E rs).
Proof. keeps_prim. Qed.
Lemma keeps_CountRunsSince E n d : keeps_runs (recorder_CountRunsSince E n d).
Proof. keeps_prim. Qed.
Lemma keeps_Send E m : keeps_runs (router_Send E m).
Proof. keeps_prim. Qed.
Lemma keeps_NewMessage E a b c d : keeps_runs (mail_NewMessage E a b c d).
Proof. keeps_prim. Qed.
Lemma keeps_Now : keeps_runs time_Now.
Proof. keeps_prim. Qed.

Create HintDb keeps.
#[local] Hint Resolve keeps_ret keeps_emit keeps_loadRigsConfig keeps_List
  keeps_GetIdleDog keeps_AssignWork keeps_ClearWork keeps_IsRunning
  keeps_Start keeps_DiscoverAll keeps_CountRunsSince keeps_Send
  keeps_NewMessage keeps_Now : keeps.

(** Walks through binds, matches and conditionals of a handler function. *)
Ltac keeps_walk :=
  repeat first
    [ solve [auto with keeps]
    | apply keeps_bind
    | progress intros
    | match goal with
      | |- keeps_runs (match ?x with _ => _ end) => destruct x
      | |- keeps_runs (logf _) => apply keeps_emit
      end ].

Lemma keeps_cleanupStuckDogs E : keeps_runs (cleanupStuckDogs E).
Proof.
  unfold cleanupStuckDogs. apply keeps_bind; [auto with keeps|].
  intros [ds|e]; [|apply keeps_emit].
  apply keeps_forEach. intros dg. unfold cleanupStuckDog. keeps_walk.
Qed.

Lemma keeps_dispatchPlugin E p : keeps_runs (dispatchPlugin E p).
Proof.
  unfold dispatchPlugin, cooldownElapsed, dispatchToIdleDog. keeps_walk.
Qed.

Lemma keeps_dispatchPlugins E cfg : keeps_runs (dispatchPlugins E cfg).
Proof.
  unfold dispatchPlugins. apply keeps_bind; [auto with keeps|].
  intros [[|p ps]|e]; [apply keeps_ret| |apply keeps_emit].
  apply keeps_forEachCtl. apply keeps_dispatchPlugin.
Qed.

Lemma keeps_handleDogs E : keeps_runs (handleDogs E).
Proof.
  unfold handleDogs. apply keeps_bind; [auto with keeps|].
  intros [c|e]; [|apply keeps_emit].
  apply keeps_bind; [apply keeps_cleanupStuckDogs|].
  intros _. apply keeps_dispatchPlugins.
Qed.

(** ** The definitions at work *)

(** A whole cycle: fido is working on a dead session and is repaired, then
    takes the due item; the item without a gate is passed over. *)
Example cycle_repairs_then_dispatches :
  let E := Sample.calm [Sample.cooldown "gc" "1h"; Sample.ungated "sweep"] in
  let w' := run (handleDogs E) (Sample.world [Sample.fido; Sample.rex]) in
  trace w'
  = [EvLoadRigsConfig None; EvList None; EvIsRunning "fido" (Ok false);
     EvLog (LogSessionDead "fido"); EvClearWork "fido" None;
     EvDiscoverAll ["gastown"] None; EvCountRunsSince "gc" "1h" (Ok 0%nat);
     EvGetIdleDog (Ok (Some "fido")); EvAssignWork "fido" "plugin:gc" None;
     EvStart "fido" "plugin:gc" None;
     EvSend (mail.mkMessage "msg" "daemon" "dog/fido" "Plugin: gc" "do it"
               mail.TypeTask 1000) None;
     EvLog (LogDispatched "gc" "fido")]
  /\ dogs w' = [dog.mkDog "fido" dog.StateWorking "plugin:gc"; Sample.rex]
  /\ sessions w' = [("fido", "plugin:gc")].
Proof. repeat split. Qed.

(** The cooldown gate: an item that ran ten minutes ago is not due within
    its hour, one that ran two hours ago is. *)
Example cooldown_gate_window :
  let E := Sample.calm [] in
  let ran (at_ : Z) :=
    {| dogs := [Sample.rex]; sessions := []; mailboxes := ∅;
       runs := [("gc", at_)]; now := 10000; trace := [] |} in
  fst (cooldownElapsed E (Sample.cooldown "gc" "1h")
         (plugin.mkGate plugin.GateCooldown "1h") (ran 9400)) = false
  /\ fst (cooldownElapsed E (Sample.cooldown "gc" "1h")
            (plugin.mkGate plugin.GateCooldown "1h") (ran 2800)) = true.
Proof. split; reflexivity. Qed.

(** The scans of [pending_test.go]: other subjects are ignored, a subject
    without [/] yields nothing, an empty mailbox yields nothing. *)
Example scan_ignores_other_subjects :
  polecat.scan "deacon"
    [Sample.started; Sample.health_check; Sample.other_mail]
  = polecat.scan "deacon" [Sample.started]
  /\ polecat.scan "deacon" [Sample.no_slash] = []
  /\ polecat.checkMailboxForSpawns "deacon" ∅ = Ok [].
Proof. repeat split. Qed.

(** ** The scheduling cycle without its configuration *)

(** C10: when loading the rigs configuration fails, [handleDogs] logs the
    failure and returns; the trace of the cycle holds the failed load and
    the log line only (neither the stuck-repair pass nor the dispatch pass
    made a call), and the dogs, the sessions, the mailboxes and the
    run-history are those of the start of the cycle. *)
Theorem handleDogs_config_failure_is_noop E w e :
  loadRigsConfig_result E w = Err e ->
  let w' := run (handleDogs E) w in
  trace w' = trace w ++ [EvLoadRigsConfig (Some e); EvLog (LogLoadRigsFailed e)]
  /\ dogs w' = dogs w
  /\ sessions w' = sessions w
  /\ mailboxes w' = mailboxes w
  /\ runs w' = runs w.
Proof.
  intros Hload. unfold run, handleDogs, bind, loadRigsConfig.
  rewrite Hload. simpl. rewrite <- app_assoc. auto.
Qed.

Lemma handleDogs_config_failure_witness :
  let w := Sample.world [Sample.fido; Sample.rex] in
  let w' := run (handleDogs Sample.no_config) w in
  trace w' = [EvLoadRigsConfig (Some StorageError);
              EvLog (LogLoadRigsFailed StorageError)]
  /\ dogs w' = [Sample.fido; Sample.rex]
  /\ sessions w' = []
  /\ mailboxes w' = ∅
  /\ runs w' = [].
Proof.
  exact (handleDogs_config_failure_is_noop Sample.no_config
           (Sample.world [Sample.fido; Sample.rex]) StorageError eq_refl).
Defined.

(** ** Which items the dispatch pass takes up *)

(** C1, as the design document has it, fails: with an idle dog at hand
    and every collaborator answering, an item without a gate is passed
    over; no idle dog is asked for, nothing is assigned, started or sent. *)
Lemma ungated_item_not_dispatched :
  let p := Sample.ungated "sweep" in
  let w' := run (dispatchPlugins (Sample.calm [p]) None)
              (Sample.world [Sample.rex]) in
  plugin.Gate p = None
  /\ trace w' = [EvDiscoverAll [] None]
  /\ (forall r, ~ In (EvGetIdleDog r) (trace w'))
  /\ dogs w' = [Sample.rex]
  /\ sessions w' = []
  /\ mailboxes w' = ∅.
Proof.
  cbv zeta. repeat split.
  intros r [H|[]]. discriminate H.
Qed.

(** C1, amended: an item whose gate is absent or is not a cooldown gate is
    skipped by the dispatch pass; the loop body makes no call and changes
    nothing, and the loop goes on with the remaining items. *)
Theorem dispatchPlugin_skips_without_cooldown_gate E p rest w :
  (plugin.Gate p = None
   \/ exists g, plugin.Gate p = Some g /\ plugin.Type_ g <> plugin.GateCooldown) ->
  dispatchPlugin E p w = (Continue, w)
  /\ forEachCtl (dispatchPlugin E) (p :: rest) w
     = forEachCtl (dispatchPlugin E) rest w.
Proof.
  intros Hgate.
  assert (dispatchPlugin E p w = (Continue, w)) as Hskip.
  { unfold dispatchPlugin.
    destruct Hgate as [-> | (g & -> & Hty)]; [reflexivity|].
    destruct (plugin.Type_ g); [contradiction|reflexivity]. }
  split; [exact Hskip|]. simpl. unfold bind. rewrite Hskip. reflexivity.
Qed.

Lemma dispatchPlugin_skips_without_cooldown_gate_witness :
  let E := Sample.calm [] in
  let p := Sample.ungated "sweep" in
  let w := Sample.world [Sample.rex] in
  dispatchPlugin E p w = (Continue, w)
  /\ forEachCtl (dispatchPlugin E) [p; Sample.cooldown "gc" "1h"] w
     = forEachCtl (dispatchPlugin E) [Sample.cooldown "gc" "1h"] w.
Proof.
  apply (dispatchPlugin_skips_without_cooldown_gate (Sample.calm [])
           (Sample.ungated "sweep") [Sample.cooldown "gc" "1h"]
           (Sample.world [Sample.rex])).
  left. reflexivity.
Defined.

(** ** The run-history *)

(** C2, as the design document has it, fails: the item reaches the
    mail-send step (its session is started and its mail delivered), yet the
    run-history is as empty after the cycle as before, and the cooldown
    query still counts no run. *)
Lemma dispatched_item_records_no_run :
  let E := Sample.calm [Sample.cooldown "gc" "1h"] in
  let w' := run (handleDogs E) (Sample.world [Sample.rex]) in
  In (EvStart "rex" "plugin:gc" None) (trace w')
  /\ (exists m, In (EvSend m None) (trace w'))
  /\ runs w' = []
  /\ fst (recorder_CountRunsSince E "gc" "1h" w') = Ok 0%nat.
Proof.
  cbv zeta. split; [|split; [|split]].
  - vm_compute. tauto.
  - eexists. vm_compute. do 7 right. left. reflexivity.
  - reflexivity.
  - reflexivity.
Qed.

(** C2, amended: no step of a scheduling cycle records a run; whether or
    not an item reached the mail-send step, the run-history after the
    dispatch pass, and after the whole cycle, is the one before it. *)
Theorem dispatch_never_records_a_run E cfg w :
  runs (run (dispatchPlugins E cfg) w) = runs w
  /\ runs (run (handleDogs E) w) = runs w.
Proof. split; [apply keeps_dispatchPlugins | apply keeps_handleDogs]. Qed.

(** ** A cooldown gate whose duration does not parse *)

(** C3, as the design document has it, fails: the duration of the gate
    does not parse, the run-count query fails, and the item is passed over
    although a dog is idle. *)
Lemma malformed_duration_blocks_dispatch :
  let p := Sample.cooldown "gc" "soon" in
  let w' := run (dispatchPlugins (Sample.calm [p]) None)
              (Sample.world [Sample.rex]) in
  Sample.parse "soon" = None
  /\ trace w' = [EvDiscoverAll [] None;
                 EvCountRunsSince "gc" "soon" (Err DurationError);
                 EvLog (LogCooldownError "gc" DurationError)]
  /\ dogs w' = [Sample.rex]
  /\ sessions w' = [].
Proof. cbv zeta. repeat split. Qed.

(** C3, amended: when the duration of a cooldown gate is not empty and does
    not parse, the run-count query fails, the failure is logged and the
    item is skipped this cycle (the gate fails closed): no idle dog is asked
    for, nothing changes but the trace, and the loop goes on with the
    remaining items. *)
Theorem dispatchPlugin_cooldown_error_skips E p g rest w :
  plugin.Gate p = Some g ->
  plugin.Type_ g = plugin.GateCooldown ->
  plugin.Duration g <> ""%string ->
  ParseDuration E (plugin.Duration g) = None ->
  let w' :=
    record (EvLog (LogCooldownError (plugin.Name p) DurationError))
      (record (EvCountRunsSince (plugin.Name p) (plugin.Duration g)
                 (Err DurationError)) w) in
  dispatchPlugin E p w = (Continue, w')
  /\ forEachCtl (dispatchPlugin E) (p :: rest) w
     = forEachCtl (dispatchPlugin E) rest w'.
Proof.
  intros Hg Hty Hdur Hparse w'.
  assert (dispatchPlugin E p w = (Continue, w')) as Hskip.
  { unfold_body. rewrite Hg, Hty.
    destruct (String.eqb_spec (plugin.Duration g) ""); [contradiction|].
    rewrite Hparse. reflexivity. }
  split; [exact Hskip|]. simpl. unfold bind. rewrite Hskip. reflexivity.
Qed.

Lemma dispatchPlugin_cooldown_error_skips_witness :
  let E := Sample.calm [] in
  let p := Sample.cooldown "gc" "soon" in
  let w := Sample.world [Sample.rex] in
  let w' :=
    record (EvLog (LogCooldownError "gc" DurationError))
      (record (EvCountRunsSince "gc" "soon" (Err DurationError)) w) in
  dispatchPlugin E p w = (Continue, w')
  /\ forEachCtl (dispatchPlugin E) [p; Sample.cooldown "dream" ""] w
     = forEachCtl (dispatchPlugin E) [Sample.cooldown "dream" ""] w'.
Proof.
  apply (dispatchPlugin_cooldown_error_skips (Sample.calm [])
           (Sample.cooldown "gc" "soon")
           (plugin.mkGate plugin.GateCooldown "soon")
           [Sample.cooldown "dream" ""] (Sample.world [Sample.rex]));
    [reflexivity | reflexivity | discriminate | reflexivity].
Defined.

(** ** The loop bodies follow their paths *)

Ltac trace_done :=
  simpl; repeat rewrite <- app_assoc; simpl;
  first [reflexivity | symmetry; apply app_nil_r].

Lemma cleanupStuckDog_path E dg w :
  let w' := run (cleanupStuckDog E dg) w in
  exists tr,
    trace w' = trace w ++ tr
    /\ RepairPath dg (IsRunning_result E w (dog.Name dg)) (dogs w) (dogs w') tr.
Proof.
  unfold run, cleanupStuckDog. unfold_prims.
  destruct (dog.State dg) eqn:Hst.
  - exists []. split; [trace_done | now constructor].
  - destruct (IsRunning_result E w (dog.Name dg)) as [[|]|e] eqn:Hprobe.
    + eexists. split; [trace_done | now constructor].
    + repeat case_match; simplify_eq; eexists; (split; [trace_done|]);
        first [ now apply (SessionDead dg _ (dogs w) None)
              | now apply (SessionDead dg _ (dogs w) (Some _)) ].
    + eexists. split; [trace_done | now constructor].
Qed.

Lemma dispatchToIdleDog_path E p w :
  let w' := run (dispatchToIdleDog E p) w in
  exists tr,
    trace w' = trace w ++ tr
    /\ IdlePath p (dogs w) (fst (dispatchToIdleDog E p w)) (dogs w') tr.
Proof.
  unfold run, dispatchToIdleDog. unfold_prims.
  repeat case_match; simplify_eq; simpl; eexists; (split; [trace_done|]).
  all: try (now econstructor; eauto).
  all: first [ eapply (StartFailed p _ _ _ _ None); eassumption
             | eapply (StartFailed p _ _ _ _ (Some _)); eassumption ].
Qed.

Lemma dispatchPlugin_path E p w :
  let w' := run (dispatchPlugin E p) w in
  exists tr,
    trace w' = trace w ++ tr
    /\ BodyPath p (dogs w) (fst (dispatchPlugin E p w)) (dogs w') tr.
Proof.
  unfold run, dispatchPlugin.
  destruct (plugin.Gate p) as [g|] eqn:Hg;
    [|exists []; split; [trace_done | constructor; now left]].
  destruct (plugin.Type_ g) eqn:Hty;
    [|exists []; split; [trace_done|];
      constructor; right; exists g; split; [assumption | congruence]].
  unfold cooldownElapsed, bind at 1.
  destruct (String.eqb_spec (plugin.Duration g) "") as [Hdur|Hdur].
  - unfold ret.
    destruct (dispatchToIdleDog_path E p w) as (tr & Htr & Hpath).
    unfold run in *. exists tr. split; [exact Htr|].
    eapply DueNoDuration; eauto.
  - unfold bind, recorder_CountRunsSince, logf, emit, ret.
    destruct (ParseDuration E (plugin.Duration g)) as [z|].
    + destruct (List.length _) as [|n] eqn:Hcount; simpl.
      * match goal with
        | |- context [dispatchToIdleDog E p ?w1] =>
            destruct (dispatchToIdleDog_path E p w1) as (tr & Htr & Hpath)
        end.
        unfold run in *. eexists. split.
        -- rewrite Htr. simpl. rewrite <- app_assoc. reflexivity.
        -- eapply DueElapsed; eauto.
      * eexists. split; [trace_done|]. now apply InCooldown.
    + eexists. split; [trace_done|]. now apply CooldownQueryFailed.
Qed.


(** Case analysis on the path a loop body took. *)
Ltac invert_IdlePath H :=
  inversion H; subst; clear H;
  repeat match goal with
    | c : option error |- _ => destruct c
    end.

Ltac invert_BodyPath H :=
  inversion H; subst; clear H;
  repeat match goal with
    | H' : IdlePath _ _ _ _ _ |- _ => invert_IdlePath H'
    end.

Ltac in_cases :=
  repeat match goal with
    | H : ex _ |- _ => destruct H
    | H : _ /\ _ |- _ => destruct H
    | H : In _ _ |- _ => simpl in H
    | H : _ \/ _ |- _ => destruct H
    | H : False |- _ => contradiction
    | H : @eq Event _ _ |- _ => first [discriminate H | injection H as H; subst]
    | H : @eq Ctl _ _ |- _ => discriminate H
    end.

Lemma forEachCtl_cons {A : Type} (body : A -> M Ctl) x xs w :
  forEachCtl body (x :: xs) w
  = match fst (body x w) with
    | Continue => forEachCtl body xs (run (body x) w)
    | Return => (tt, run (body x) w)
    end.
Proof.
  simpl. unfold bind, run. destruct (body x w) as [[|] w']; reflexivity.
Qed.

Lemma run_forEachCtl_cons {A : Type} (body : A -> M Ctl) x xs w :
  run (forEachCtl body (x :: xs)) w
  = match fst (body x w) with
    | Continue => run (forEachCtl body xs) (run (body x) w)
    | Return => run (body x) w
    end.
Proof.
  unfold run at 1. rewrite forEachCtl_cons.
  destruct (fst (body x w)); reflexivity.
Qed.

(** ** Failures inside the dispatch loop *)

(** C4, as the design document has it, fails: the idle-dog lookup fails
    for the first of two due items, and the pass returns; the second item,
    which the same environment would have dispatched to the idle dog, is
    never considered. *)
Lemma failed_idle_lookup_aborts_pass :
  let gc := Sample.cooldown "gc" "" in
  let dream := Sample.cooldown "dream" "" in
  let E := Sample.env [gc; dream] Sample.first_lookup_fails
             (fun _ _ => None) (fun _ _ _ => None) (fun _ _ => None) in
  let w' := run (dispatchPlugins E None) (Sample.world [Sample.rex]) in
  trace w' = [EvDiscoverAll [] None;
              EvGetIdleDog (Err StorageError);
              EvLog (LogIdleDogError StorageError)]
  /\ dogs w' = [Sample.rex]
  /\ In (EvStart "rex" "plugin:dream" None)
        (trace (run (dispatchPlugin E dream) w')).
Proof.
  cbv zeta. split; [reflexivity|]. split; [reflexivity|].
  vm_compute. tauto.
Qed.

(** C4, amended: the loop body ends the pass exactly when the idle-dog
    lookup fails or finds no idle dog, and then no later item is
    considered; a failed cooldown query, a failed AssignWork, a failed
    Session.Start, a failed rollback and a failed Router.Send all leave the
    loop running, and it goes on with the remaining items. *)
Theorem dispatchPlugin_failure_isolation E p rest w :
  let c := fst (dispatchPlugin E p w) in
  let w' := run (dispatchPlugin E p) w in
  exists tr,
    trace w' = trace w ++ tr
    /\ (c = Return <->
        (exists e, In (EvGetIdleDog (Err e)) tr) \/ In (EvGetIdleDog (Ok None)) tr)
    /\ (c = Return -> forEachCtl (dispatchPlugin E) (p :: rest) w = (tt, w'))
    /\ (c = Continue ->
        forEachCtl (dispatchPlugin E) (p :: rest) w
        = forEachCtl (dispatchPlugin E) rest w')
    /\ ((exists n d e, In (EvCountRunsSince n d (Err e)) tr) -> c = Continue)
    /\ ((exists n d e, In (EvAssignWork n d (Some e)) tr) -> c = Continue)
    /\ ((exists n d e, In (EvStart n d (Some e)) tr) -> c = Continue)
    /\ ((exists n e, In (EvClearWork n (Some e)) tr) -> c = Continue)
    /\ ((exists m e, In (EvSend m (Some e)) tr) -> c = Continue).
Proof.
  intros c w'.
  pose proof (forEachCtl_cons (dispatchPlugin E) p rest w) as Hloop.
  fold c w' in Hloop.
  destruct (dispatchPlugin_path E p w) as (tr & Htr & Hpath).
  fold c w' in Htr, Hpath.
  exists tr. split; [exact Htr|].
  split; [|split; [intros Hc; rewrite Hc in Hloop; exact Hloop|
           split; [intros Hc; rewrite Hc in Hloop; exact Hloop|]]].
  - clear Hloop Htr. clearbody c. remember (dogs w') as ds' eqn:Hds. clear Hds.
    invert_BodyPath Hpath; split; intros; in_cases; try reflexivity;
      solve [ left; eexists; simpl; eauto | right; simpl; eauto ].
  - clear Hloop Htr. clearbody c. remember (dogs w') as ds' eqn:Hds. clear Hds.
    invert_BodyPath Hpath; repeat split; intros; in_cases; reflexivity.
Qed.

(** ** The registry under the dispatch loop *)

Lemma find_dog_name n ds d : find_dog n ds = Some d -> dog.Name d = n.
Proof.
  unfold find_dog. intros H. apply find_some in H as [_ H].
  now apply String.eqb_eq.
Qed.

Lemma find_dog_update_eq n f ds d :
  (forall x, dog.Name (f x) = dog.Name x) ->
  find_dog n ds = Some d ->
  find_dog n (update_dog n f ds) = Some (f d).
Proof.
  intros Hf. unfold find_dog. induction ds as [|x ds IH]; simpl; [discriminate|].
  destruct (String.eqb (dog.Name x) n) eqn:Hx; simpl.
  - intros [= ->]. now rewrite Hf, Hx.
  - rewrite Hx. exact IH.
Qed.

Lemma find_dog_update_ne n m f ds :
  (forall x, dog.Name (f x) = dog.Name x) ->
  n <> m ->
  find_dog n (update_dog m f ds) = find_dog n ds.
Proof.
  intros Hf Hne. unfold find_dog. induction ds as [|x ds IH]; simpl; [reflexivity|].
  destruct (String.eqb_spec (dog.Name x) m) as [Hm|Hm]; simpl.
  - rewrite Hf. destruct (String.eqb_spec (dog.Name x) n); [congruence|reflexivity].
  - destruct (String.eqb (dog.Name x) n); [reflexivity | exact IH].
Qed.

Lemma assigned_name desc x : dog.Name (assigned desc x) = dog.Name x.
Proof. reflexivity. Qed.

Lemma cleared_name x : dog.Name (cleared x) = dog.Name x.
Proof. reflexivity. Qed.

#[local] Hint Resolve assigned_name cleared_name : core.



(** A dog registered as working is out of the loop body's reach: it is
    never the target of a successful AssignWork, hence never of the
    rollback either. *)
Lemma IdlePath_working p ds c ds' tr n dg :
  IdlePath p ds c ds' tr ->
  find_dog n ds = Some dg ->
  dog.State dg = dog.StateWorking ->
  find_dog n ds' = Some dg /\ forall r, ~ In (EvClearWork n r) tr.
Proof.
  intros Hpath Hn Hw. invert_IdlePath Hpath.
  all: try (split; [assumption | intros r Hin; in_cases]).
  all: destruct (String.eqb_spec n (dog.Name d)) as [-> | Hne];
    [ match goal with
      | H1 : find_dog ?m ?l = Some ?a, H2 : find_dog ?m ?l = Some ?b |- _ =>
          rewrite H1 in H2; injection H2 as ->; congruence
      end |].
  all: repeat rewrite find_dog_update_ne by auto.
  all: split; [assumption | intros r Hin; in_cases; congruence].
Qed.

Lemma BodyPath_working p ds c ds' tr n dg :
  BodyPath p ds c ds' tr ->
  find_dog n ds = Some dg ->
  dog.State dg = dog.StateWorking ->
  find_dog n ds' = Some dg /\ forall r, ~ In (EvClearWork n r) tr.
Proof.
  intros Hpath Hn Hw. inversion Hpath; subst.
  1-3: split; [assumption | intros r Hin; in_cases].
  - eapply IdlePath_working; eauto.
  - destruct (IdlePath_working _ _ _ _ _ _ _ H0 Hn Hw) as [Hd Hc].
    split; [assumption|]. intros r [Hin|Hin]; [discriminate | now apply (Hc r)].
Qed.


Lemma dispatch_loop_working E rest : forall w n dg,
  find_dog n (dogs w) = Some dg ->
  dog.State dg = dog.StateWorking ->
  let w' := run (forEachCtl (dispatchPlugin E) rest) w in
  find_dog n (dogs w') = Some dg
  /\ exists tr, trace w' = trace w ++ tr /\ forall r, ~ In (EvClearWork n r) tr.
Proof.
  induction rest as [|p rest IH]; intros w n dg Hn Hw.
  - split; [assumption|]. exists []. split; [symmetry; apply app_nil_r | auto].
  - cbv zeta. rewrite run_forEachCtl_cons.
    destruct (dispatchPlugin_path E p w) as (tr & Htr & Hpath).
    destruct (BodyPath_working _ _ _ _ _ n dg Hpath Hn Hw) as [Hd Hc].
    set (w1 := run (dispatchPlugin E p) w) in *.
    destruct (fst (dispatchPlugin E p w)).
    + destruct (IH w1 n dg Hd Hw) as (Hd' & tr' & Htr' & Hc').
      split; [exact Hd'|]. exists (tr ++ tr'). split.
      * rewrite Htr', Htr. now rewrite app_assoc.
      * intros r Hin. apply in_app_or in Hin as [Hin|Hin];
          [now apply (Hc r) | now apply (Hc' r)].
    + split; [exact Hd|]. exists tr. split; [exact Htr | exact Hc].
Qed.

(** ** Rollback of a failed session start *)




(** ** A failed mail send after the session started *)

(** C7: when Router.Send fails, the session of the dog addressed had been
    started, no ClearWork is called by the loop body, the dog is left
    working on the item, and the loop goes on with the next item; through
    the rest of the pass no ClearWork is called on that dog either, and it
    ends the pass working on the item. *)
Theorem send_failure_is_not_rolled_back E p rest w tr msg e :
  let c := fst (dispatchPlugin E p w) in
  let w1 := run (dispatchPlugin E p) w in
  let w2 := run (forEachCtl (dispatchPlugin E) rest) w1 in
  trace w1 = trace w ++ tr ->
  In (EvSend msg (Some e)) tr ->
  exists d,
    mail.To msg = ("dog/" ++ d)%string
    /\ In (EvStart d (workDescOf p) None) tr
    /\ (forall n r, ~ In (EvClearWork n r) tr)
    /\ find_dog d (dogs w1) = Some (dog.mkDog d dog.StateWorking (workDescOf p))
    /\ c = Continue
    /\ run (forEachCtl (dispatchPlugin E) (p :: rest)) w = w2
    /\ find_dog d (dogs w2) = Some (dog.mkDog d dog.StateWorking (workDescOf p))
    /\ exists tr',
         trace w2 = trace w1 ++ tr' /\ forall r, ~ In (EvClearWork d r) tr'.
Proof.
  intros c w1 w2 Htr Hsend.
  pose proof (run_forEachCtl_cons (dispatchPlugin E) p rest w) as Hloop.
  destruct (dispatchPlugin_path E p w) as (tr' & Htr' & Hpath).
  fold w1 in Htr', Hpath, Hloop. fold c in Hpath, Hloop. fold w2 in Hloop.
  assert (tr' = tr) as -> by (rewrite Htr in Htr'; now apply app_inv_head in Htr').
  pose proof (dispatch_loop_working E rest w1) as Hlater. fold w2 in Hlater.
  clearbody c. clear Htr Htr'.
  remember (dogs w1) as ds1 eqn:Hds1.
  invert_BodyPath Hpath; in_cases.
  all: match goal with
       | H : find_dog (dog.Name ?x) ?l = Some ?dg |- _ =>
           pose proof (find_dog_name _ _ _ H) as Hname;
           pose proof (find_dog_update_eq _ (assigned (workDescOf p)) _ _
                         (assigned_name _) H) as Hassigned
       end.
  all: unfold assigned in Hassigned; rewrite Hname in Hassigned.
  all: match goal with
       | H : find dog.is_idle _ = Some ?x |- _ => exists (dog.Name x)
       end.
  all: split; [assumption|]; split; [simpl; tauto|].
  all: split; [intros n r Hin; in_cases|].
  all: split; [exact Hassigned|]; split; [reflexivity|]; split; [exact Hloop|].
  all: apply Hlater; [|reflexivity].
  all: match goal with H : update_dog _ _ _ = dogs _ |- _ => rewrite <- H end.
  all: exact Hassigned.
Qed.

Lemma send_failure_is_not_rolled_back_witness :
  let gc := Sample.cooldown "gc" "" in
  let dream := Sample.cooldown "dream" "" in
  let E := Sample.env [gc; dream] (fun _ => None) (fun _ _ => None)
             (fun _ _ _ => None) (fun _ _ => Some StorageError) in
  let w := Sample.world [Sample.rex; Sample.spot] in
  let msg := mail.mkMessage "msg" "daemon" "dog/rex" "Plugin: gc" "do it"
               mail.TypeTask 1000 in
  let w1 := run (dispatchPlugin E gc) w in
  let w2 := run (forEachCtl (dispatchPlugin E) [dream]) w1 in
  exists d,
    mail.To msg = ("dog/" ++ d)%string
    /\ In (EvStart d (workDescOf gc) None) (trace w1)
    /\ (forall n r, ~ In (EvClearWork n r) (trace w1))
    /\ find_dog d (dogs w1) = Some (dog.mkDog d dog.StateWorking (workDescOf gc))
    /\ fst (dispatchPlugin E gc w) = Continue
    /\ run (forEachCtl (dispatchPlugin E) [gc; dream]) w = w2
    /\ find_dog d (dogs w2) = Some (dog.mkDog d dog.StateWorking (workDescOf gc))
    /\ exists tr',
         trace w2 = trace w1 ++ tr' /\ forall r, ~ In (EvClearWork d r) tr'.
Proof.
  intros gc dream E w msg w1 w2.
  apply (send_failure_is_not_rolled_back E gc [dream] w (trace w1) msg
           StorageError).
  - reflexivity.
  - vm_compute. tauto.
Defined.

(** ** The stuck-repair pass *)

Lemma run_forEach_cons {A : Type} (body : A -> M unit) x xs w :
  run (forEach body (x :: xs)) w = run (forEach body xs) (run (body x) w).
Proof. unfold run. simpl. unfold bind. now destruct (body x w). Qed.

(** The body run on one dog makes no call on a dog of another name and
    leaves that dog's registration alone. *)
Lemma RepairPath_other dg probe ds ds' tr n :
  RepairPath dg probe ds ds' tr ->
  dog.Name dg <> n ->
  List.filter (about n) tr = [] /\ find_dog n ds' = find_dog n ds.
Proof.
  intros Hpath Hne. apply String.eqb_neq in Hne as Hneb.
  inversion Hpath; subst; simpl; rewrite ?Hneb; auto.
  destruct clearErr; simpl; rewrite ?Hneb; split; auto.
  apply find_dog_update_ne; auto.
Qed.

Lemma repair_loop_other E l : forall w n,
  ~ In n (map dog.Name l) ->
  let w' := run (forEach (cleanupStuckDog E) l) w in
  exists tr,
    trace w' = trace w ++ tr
    /\ List.filter (about n) tr = []
    /\ find_dog n (dogs w') = find_dog n (dogs w).
Proof.
  induction l as [|a l IH]; intros w n Hn.
  - exists []. split; [symmetry; apply app_nil_r | auto].
  - cbv zeta. rewrite run_forEach_cons.
    destruct (cleanupStuckDog_path E a w) as (tr1 & Htr1 & Hpath).
    destruct (RepairPath_other _ _ _ _ _ n Hpath) as [Hf1 Hd1];
      [intros Heq; apply Hn; left; exact Heq|].
    destruct (IH (run (cleanupStuckDog E a) w) n) as (tr2 & Htr2 & Hf2 & Hd2);
      [intros Hin; apply Hn; right; exact Hin|].
    exists (tr1 ++ tr2). split; [|split].
    + rewrite Htr2, Htr1. now rewrite app_assoc.
    + rewrite List.filter_app, Hf1, Hf2. reflexivity.
    + rewrite Hd2. exact Hd1.
Qed.

(** What the body does about a working dog that is registered: the calls
    it makes, in order, and the registration afterwards, by the answer of
    the probe and of ClearWork. *)
Lemma cleanupStuckDog_working E dg x w :
  dog.State dg = dog.StateWorking ->
  find_dog (dog.Name dg) (dogs w) = Some x ->
  let n := dog.Name dg in
  let w' := run (cleanupStuckDog E dg) w in
  match IsRunning_result E w n with
  | Ok false =>
      let w1 := record (EvLog (LogSessionDead n))
                  (record (EvIsRunning n (Ok false)) w) in
      match ClearWork_fault E w1 n with
      | None =>
          trace w'
          = trace w ++ [EvIsRunning n (Ok false); EvLog (LogSessionDead n);
                        EvClearWork n None]
          /\ find_dog n (dogs w') = Some (cleared x)
      | Some e =>
          trace w'
          = trace w ++ [EvIsRunning n (Ok false); EvLog (LogSessionDead n);
                        EvClearWork n (Some e); EvLog (LogClearFailed n e)]
          /\ find_dog n (dogs w') = Some x
      end
  | Ok true =>
      trace w' = trace w ++ [EvIsRunning n (Ok true)]
      /\ find_dog n (dogs w') = Some x
  | Err e =>
      trace w'
      = trace w ++ [EvIsRunning n (Err e); EvLog (LogSessionCheckError n e)]
      /\ find_dog n (dogs w') = Some x
  end.
Proof.
  intros Hst Hx. cbv zeta.
  unfold run, cleanupStuckDog. rewrite Hst. unfold_prims.
  destruct (IsRunning_result E w (dog.Name dg)) as [[|]|e] eqn:Hprobe; simpl.
  - split; [reflexivity | exact Hx].
  - destruct (ClearWork_fault E _ (dog.Name dg)) as [e|] eqn:Hclear; simpl.
    + split; [now rewrite <- !app_assoc | exact Hx].
    + rewrite Hx. simpl. split; [now rewrite <- !app_assoc|].
      now apply find_dog_update_eq.
  - split; [now rewrite <- !app_assoc | exact Hx].
Qed.

Lemma repair_loop_working E l : forall w dg x,
  List.NoDup (map dog.Name l) ->
  In dg l ->
  dog.State dg = dog.StateWorking ->
  find_dog (dog.Name dg) (dogs w) = Some x ->
  let n := dog.Name dg in
  let w' := run (forEach (cleanupStuckDog E) l) w in
  exists l1 l2 w0 pre post,
    l = l1 ++ dg :: l2
    /\ w0 = run (forEach (cleanupStuckDog E) l1) w
    /\ trace w0 = trace w ++ pre
    /\ find_dog n (dogs w0) = Some x
    /\ List.filter (about n) pre = []
    /\ List.filter (about n) post = []
    /\ match IsRunning_result E w0 n with
       | Ok false =>
           let w1 := record (EvLog (LogSessionDead n))
                       (record (EvIsRunning n (Ok false)) w0) in
           match ClearWork_fault E w1 n with
           | None =>
               trace w'
               = trace w0 ++ [EvIsRunning n (Ok false);
                              EvLog (LogSessionDead n); EvClearWork n None]
                          ++ post
               /\ find_dog n (dogs w') = Some (cleared x)
           | Some e =>
               trace w'
               = trace w0 ++ [EvIsRunning n (Ok false);
                              EvLog (LogSessionDead n);
                              EvClearWork n (Some e);
                              EvLog (LogClearFailed n e)] ++ post
               /\ find_dog n (dogs w') = Some x
           end
       | Ok true =>
           trace w' = trace w0 ++ [EvIsRunning n (Ok true)] ++ post
           /\ find_dog n (dogs w') = Some x
       | Err e =>
           trace w'
           = trace w0 ++ [EvIsRunning n (Err e);
                          EvLog (LogSessionCheckError n e)] ++ post
           /\ find_dog n (dogs w') = Some x
       end.
Proof.
  induction l as [|a l IH]; intros w dg x Hnd Hin Hw Hx; [destruct Hin|].
  cbv zeta. rewrite run_forEach_cons.
  simpl in Hnd. apply List.NoDup_cons_iff in Hnd as [Ha Hnd].
  set (w1 := run (cleanupStuckDog E a) w) in *.
  destruct Hin as [-> | Hin].
  - destruct (repair_loop_other E l w1 (dog.Name dg) Ha)
      as (post & Hpost & Hfpost & Hdpost).
    cbv zeta in Hpost, Hdpost.
    pose proof (cleanupStuckDog_working E dg x w Hw Hx) as Hbody.
    cbv zeta in Hbody. fold w1 in Hbody.
    exists [], l, w, [], post.
    split; [reflexivity|]. split; [reflexivity|].
    split; [symmetry; apply app_nil_r|].
    split; [exact Hx|]. split; [reflexivity|]. split; [exact Hfpost|].
    rewrite Hpost, Hdpost.
    destruct (IsRunning_result E w (dog.Name dg)) as [[|]|e];
      [| destruct (ClearWork_fault E _ (dog.Name dg)) |];
      destruct Hbody as [-> ->]; (split; [now rewrite <- app_assoc | reflexivity]).
  - assert (dog.Name a <> dog.Name dg) as Hne.
    { intros Heq. apply Ha. rewrite Heq. now apply in_map. }
    destruct (cleanupStuckDog_path E a w) as (tr1 & Htr1 & Hpath).
    fold w1 in Htr1, Hpath.
    destruct (RepairPath_other _ _ _ _ _ _ Hpath Hne) as [Hf1 Hd1].
    rewrite <- Hd1 in Hx.
    destruct (IH w1 dg x Hnd Hin Hw Hx)
      as (l1 & l2 & w0 & pre & post & Hl & Hrun & Hw0 & Hx0 & Hfpre & Hfpost
          & Hrest).
    exists (a :: l1), l2, w0, (tr1 ++ pre), post.
    split; [now rewrite Hl|].
    split; [now rewrite run_forEach_cons|].
    split; [rewrite Hw0, Htr1; now rewrite app_assoc|].
    split; [exact Hx0|].
    split; [rewrite List.filter_app, Hf1, Hfpre; reflexivity|].
    split; [exact Hfpost | exact Hrest].
Qed.

Lemma find_dog_NoDup ds : forall dg,
  List.NoDup (map dog.Name ds) -> In dg ds -> find_dog (dog.Name dg) ds = Some dg.
Proof.
  unfold find_dog. induction ds as [|a ds IH]; intros dg Hnd Hin; [destruct Hin|].
  simpl in Hnd. apply List.NoDup_cons_iff in Hnd as [Ha Hnd]. simpl.
  destruct Hin as [-> | Hin]; [now rewrite String.eqb_refl|].
  destruct (String.eqb_spec (dog.Name a) (dog.Name dg)) as [Heq|_]; [|now apply IH].
  exfalso. apply Ha. rewrite Heq. now apply in_map.
Qed.

(** C6, as the claim has it, fails where ClearWork fails: fido is working,
    its session is dead and the probe says so without error, ClearWork is
    called on it once and returns an error, which the pass only logs; fido
    is still working after the pass. *)
Lemma failed_clear_leaves_dog_working :
  let E := Sample.env [] (fun _ => None) (fun _ _ => Some StorageError)
             (fun _ _ _ => None) (fun _ _ => None) in
  let w := Sample.world [Sample.fido; Sample.rex] in
  let w' := run (cleanupStuckDogs E) w in
  dog.State Sample.fido = dog.StateWorking
  /\ IsRunning_result E w "fido" = Ok false
  /\ trace w'
     = [EvList None; EvIsRunning "fido" (Ok false);
        EvLog (LogSessionDead "fido");
        EvClearWork "fido" (Some StorageError);
        EvLog (LogClearFailed "fido" StorageError)]
  /\ dogs w' = [Sample.fido; Sample.rex]
  /\ find_dog "fido" (dogs w')
     = Some (dog.mkDog "fido" dog.StateWorking "plugin:gc").
Proof.
  cbv zeta. repeat split.
Qed.

(** C6, amended: in one stuck-repair pass over a listing of distinctly
    named dogs, every dog listed as working is probed exactly once, in the
    world [w0] the loop has reached after the dogs listed before it, and no
    other call is made on it before or after.  When the probe answers false, the dead session is logged and
    ClearWork is called on the dog exactly once: when ClearWork succeeds the
    dog is idle, without work, after the pass; when it fails the failure is
    logged and the dog is left as it was, working.  When the probe fails
    the failure is logged, and when it fails or answers true no ClearWork
    is called on the dog and the dog is unchanged.  This holds for each
    working dog whatever the probes of the other dogs answered, so the pass
    goes on after a failed probe. *)
Theorem stuck_repair_pass E w dg :
  List_fault E w = None ->
  List.NoDup (map dog.Name (dogs w)) ->
  In dg (dogs w) ->
  dog.State dg = dog.StateWorking ->
  let n := dog.Name dg in
  let w' := run (cleanupStuckDogs E) w in
  exists l1 l2 w0 pre post,
    dogs w = l1 ++ dg :: l2
    /\ w0 = run (forEach (cleanupStuckDog E) l1) (record (EvList None) w)
    /\ trace w0 = trace w ++ EvList None :: pre
    /\ find_dog n (dogs w0) = Some dg
    /\ List.filter (about n) pre = []
    /\ List.filter (about n) post = []
    /\ match IsRunning_result E w0 n with
       | Ok false =>
           let w1 := record (EvLog (LogSessionDead n))
                       (record (EvIsRunning n (Ok false)) w0) in
           match ClearWork_fault E w1 n with
           | None =>
               trace w'
               = trace w0 ++ [EvIsRunning n (Ok false);
                              EvLog (LogSessionDead n); EvClearWork n None]
                          ++ post
               /\ find_dog n (dogs w') = Some (dog.mkDog n dog.StateIdle "")
           | Some e =>
               trace w'
               = trace w0 ++ [EvIsRunning n (Ok false);
                              EvLog (LogSessionDead n);
                              EvClearWork n (Some e);
                              EvLog (LogClearFailed n e)] ++ post
               /\ find_dog n (dogs w') = Some dg
           end
       | Ok true =>
           trace w' = trace w0 ++ [EvIsRunning n (Ok true)] ++ post
           /\ find_dog n (dogs w') = Some dg
       | Err e =>
           trace w'
           = trace w0 ++ [EvIsRunning n (Err e);
                          EvLog (LogSessionCheckError n e)] ++ post
           /\ find_dog n (dogs w') = Some dg
       end.
Proof.
  intros Hlist Hnd Hin Hw n w'.
  unfold w', run, cleanupStuckDogs, bind, mgr_List. rewrite Hlist.
  pose proof (find_dog_NoDup _ _ Hnd Hin) as Hx.
  destruct (repair_loop_working E (dogs w) (record (EvList None) w) dg dg
              Hnd Hin Hw Hx)
    as (l1 & l2 & w0 & pre & post & Hl & Hrun & Hw0 & Hx0 & Hfpre & Hfpost
        & Hrest).
  exists l1, l2, w0, pre, post.
  split; [exact Hl|]. split; [exact Hrun|].
  split; [rewrite Hw0; simpl; now rewrite <- app_assoc|].
  split; [exact Hx0|]. split; [exact Hfpre|]. split; [exact Hfpost|].
  exact Hrest.
Qed.

Lemma stuck_repair_pass_witness :
  let E := Sample.calm [] in
  let w := Sample.world [Sample.fido; Sample.rex] in
  let n := dog.Name Sample.fido in
  let w' := run (cleanupStuckDogs E) w in
  exists l1 l2 w0 pre post,
    dogs w = l1 ++ Sample.fido :: l2
    /\ w0 = run (forEach (cleanupStuckDog E) l1) (record (EvList None) w)
    /\ trace w0 = trace w ++ EvList None :: pre
    /\ find_dog n (dogs w0) = Some Sample.fido
    /\ List.filter (about n) pre = []
    /\ List.filter (about n) post = []
    /\ match IsRunning_result E w0 n with
       | Ok false =>
           let w1 := record (EvLog (LogSessionDead n))
                       (record (EvIsRunning n (Ok false)) w0) in
           match ClearWork_fault E w1 n with
           | None =>
               trace w'
               = trace w0 ++ [EvIsRunning n (Ok false);
                              EvLog (LogSessionDead n); EvClearWork n None]
                          ++ post
               /\ find_dog n (dogs w') = Some (dog.mkDog n dog.StateIdle "")
           | Some e =>
               trace w'
               = trace w0 ++ [EvIsRunning n (Ok false);
                              EvLog (LogSessionDead n);
                              EvClearWork n (Some e);
                              EvLog (LogClearFailed n e)] ++ post
               /\ find_dog n (dogs w') = Some Sample.fido
           end
       | Ok true =>
           trace w' = trace w0 ++ [EvIsRunning n (Ok true)] ++ post
           /\ find_dog n (dogs w') = Some Sample.fido
       | Err e =>
           trace w'
           = trace w0 ++ [EvIsRunning n (Err e);
                          EvLog (LogSessionCheckError n e)] ++ post
           /\ find_dog n (dogs w') = Some Sample.fido
       end.
Proof.
  apply (stuck_repair_pass (Sample.calm [])
           (Sample.world [Sample.fido; Sample.rex]) Sample.fido).
  - reflexivity.
  - simpl. repeat constructor; simpl; intuition discriminate.
  - simpl. left. reflexivity.
  - reflexivity.
Defined.

(** ** Scanning a mailbox for started-notifications *)

Import polecat.

Lemma trimPrefix_prefix pre : forall s,
  String.prefix pre s = false -> trimPrefix pre s = None.
Proof.
  induction pre as [|a pre IH]; intros [|b s]; simpl;
    try (intros H; discriminate H); [reflexivity|].
  destruct (Ascii.ascii_dec a b) as [-> | Hne].
  - rewrite Ascii.eqb_refl. apply IH.
  - intros _. apply Ascii.eqb_neq in Hne. now rewrite Hne.
Qed.








(** ** Pruning stale pending spawns *)

Lemma filter_filter {A : Type} (f g : A -> bool) (l : list A) :
  List.filter f (List.filter g l) = List.filter (fun x => g x && f x) l.
Proof.
  induction l as [|x l IH]; simpl; [reflexivity|].
  destruct (g x); simpl; [destruct (f x)|]; now rewrite IH.
Qed.

(** The loop of [pruneStalePendingFromList] over entries that all refer to
    the mailbox [mb]. *)
Lemma pruneLoop_backed cutoff mb : forall pending pruned store box,
  store !! mb = Some box ->
  (forall ps, In ps pending -> mailbox ps = Some mb) ->
  let r := pruneLoop cutoff pending pruned store in
  fst r = Ok (pruned + List.length (List.filter (stale cutoff) pending))%nat
  /\ exists box',
       snd r !! mb = Some box'
       /\ (forall k, k <> mb -> snd r !! k = store !! k)
       /\ mail.active box'
          = List.filter
              (fun m => negb (backs_stale cutoff pending (mail.ID m)))
              (mail.active box)
       /\ (forall m,
             In m (mail.archived box') <->
             In m (mail.archived box)
             \/ (In m (mail.active box)
                 /\ backs_stale cutoff pending (mail.ID m) = true)).
Proof.
  induction pending as [|ps rest IH]; intros pruned store box Hbox Hmb.
  - simpl. split; [f_equal; lia|]. exists box. split; [exact Hbox|].
    split; [reflexivity|]. split; [symmetry; apply List.filter_true|].
    intros m. split; [now left | intros [H|[_ H]]; [exact H | discriminate H]].
  - cbv zeta. simpl pruneLoop. unfold backs_stale. simpl existsb.
    destruct (stale cutoff ps) eqn:Hst.
    + rewrite (Hmb ps (or_introl eq_refl)).
      assert (archive mb (MailID ps) store !! mb
              = Some (mail.ArchiveByID (MailID ps) box)) as Hbox1.
      { unfold archive. rewrite lookup_alter_eq, Hbox. reflexivity. }
      destruct (IH (S pruned) _ _ Hbox1 (fun x Hx => Hmb x (or_intror Hx)))
        as (Hr & box' & Hbox' & Hother & Hact & Harch).
      split; [rewrite Hr; simpl; rewrite Hst; simpl; f_equal; lia|].
      exists box'. split; [exact Hbox'|]. split; [|split].
      * intros k Hk. rewrite (Hother k Hk). unfold archive.
        apply lookup_alter_ne. congruence.
      * rewrite Hact. simpl. rewrite filter_filter.
        apply List.filter_ext. intros m. simpl.
        now rewrite negb_orb.
      * intros m. rewrite (Harch m). simpl.
        rewrite in_app_iff, !List.filter_In. fold (backs_stale cutoff rest (mail.ID m)).
        destruct (String.eqb (mail.ID m) (MailID ps));
          destruct (backs_stale cutoff rest (mail.ID m)); simpl; intuition congruence.
    + destruct (IH pruned _ _ Hbox (fun x Hx => Hmb x (or_intror Hx)))
        as (Hr & box' & Hbox' & Hother & Hact & Harch).
      split; [rewrite Hr; simpl; now rewrite Hst|].
      exists box'. split; [exact Hbox'|]. split; [exact Hother|].
      split; [exact Hact | exact Harch].
Qed.

Lemma pruneLoop_nil cutoff : forall pending pruned store,
  (exists ps, In ps pending /\ stale cutoff ps = true /\ mailbox ps = None) ->
  fst (pruneLoop cutoff pending pruned store) = Err NilMailboxError.
Proof.
  induction pending as [|ps0 rest IH]; intros pruned store (ps & Hin & Hst & Hnil);
    [destruct Hin|].
  simpl. destruct (stale cutoff ps0) eqn:Hst0.
  - destruct (mailbox ps0) as [mb|] eqn:Hmb0; [|reflexivity].
    apply IH. exists ps. destruct Hin as [-> | Hin]; [congruence | auto].
  - apply IH. exists ps. destruct Hin as [-> | Hin]; [congruence | auto].
Qed.

(** A scan of the filtered inbox is the filtered scan, for a filter that
    looks at the message id only. *)
Lemma scan_filter mb (keep : string -> bool) : forall msgs,
  scan mb (List.filter (fun m => keep (mail.ID m)) msgs)
  = List.filter (fun ps => keep (MailID ps)) (scan mb msgs).
Proof.
  induction msgs as [|m msgs IH]; simpl; [reflexivity|].
  destruct (parseSpawn mb m) as [ps|] eqn:Hp.
  - assert (MailID ps = mail.ID m) as Hid.
    { unfold parseSpawn in Hp. repeat case_match; simplify_eq. reflexivity. }
    simpl. rewrite Hid. destruct (keep (mail.ID m)); simpl; rewrite ?Hp, IH; reflexivity.
  - destruct (keep (mail.ID m)); simpl; rewrite ?Hp, IH; reflexivity.
Qed.

Lemma backs_stale_NoDup cutoff pending :
  List.NoDup (map MailID pending) ->
  forall ps, In ps pending ->
  backs_stale cutoff pending (MailID ps) = stale cutoff ps.
Proof.
  induction pending as [|a rest IH]; intros Hnd ps Hin; [destruct Hin|].
  simpl in Hnd. apply List.NoDup_cons_iff in Hnd as [Ha Hnd].
  unfold backs_stale. simpl. fold (backs_stale cutoff rest (MailID ps)).
  destruct Hin as [-> | Hin].
  - rewrite String.eqb_refl, andb_true_r.
    destruct (stale cutoff ps) eqn:Hst; [reflexivity|]. simpl.
    destruct (backs_stale cutoff rest (MailID ps)) eqn:Hb; [|reflexivity].
    exfalso. apply Ha. unfold backs_stale in Hb.
    apply existsb_exists in Hb as (x & Hx & Hxb).
    apply andb_true_iff in Hxb as [_ Hxb]. apply String.eqb_eq in Hxb.
    rewrite Hxb. now apply in_map.
  - rewrite (IH Hnd ps Hin).
    destruct (String.eqb_spec (MailID ps) (MailID a)) as [Heq|_];
      [|now rewrite andb_false_r].
    exfalso. apply Ha. rewrite <- Heq. now apply in_map.
Qed.

(** C9: on a list of pending spawns that all refer to one mailbox,
    [pruneStalePendingFromList] returns the number of entries spawned before
    [now - maxAge]; the active messages that back such an entry have moved
    to the archive of the mailbox, every other active message is still
    active, and no other mailbox has changed; when the list is a fresh scan
    of the mailbox with distinct message ids, a new scan returns exactly the
    younger entries.  On any list, an entry spawned before [now - maxAge]
    that has no mailbox makes the result a NilMailboxError. *)
Theorem pruneStalePendingFromList_spec now maxAge pending store :
  let cutoff := now - maxAge in
  let r := pruneStalePendingFromList now pending maxAge store in
  (forall mb box,
     store !! mb = Some box ->
     (forall ps, In ps pending -> mailbox ps = Some mb) ->
     fst r = Ok (List.length (List.filter (stale cutoff) pending))
     /\ exists box',
          snd r !! mb = Some box'
          /\ (forall k, k <> mb -> snd r !! k = store !! k)
          /\ mail.active box'
             = List.filter
                 (fun m => negb (backs_stale cutoff pending (mail.ID m)))
                 (mail.active box)
          /\ (forall m,
                In m (mail.archived box') <->
                In m (mail.archived box)
                \/ (In m (mail.active box)
                    /\ backs_stale cutoff pending (mail.ID m) = true))
          /\ (pending = scan mb (mail.active box) ->
              List.NoDup (map MailID pending) ->
              checkMailboxForSpawns mb (snd r)
              = Ok (List.filter (fun ps => negb (stale cutoff ps)) pending)))
  /\ ((exists ps, In ps pending /\ stale cutoff ps = true /\ mailbox ps = None) ->
      fst r = Err NilMailboxError).
Proof.
  intros cutoff r. subst r. unfold pruneStalePendingFromList. fold cutoff.
  split.
  - intros mb box Hbox Hmb.
    destruct (pruneLoop_backed cutoff mb pending 0%nat store box Hbox Hmb)
      as (Hr & box' & Hbox' & Hother & Hact & Harch).
    split; [exact Hr|]. exists box'.
    split; [exact Hbox'|]. split; [exact Hother|].
    split; [exact Hact|]. split; [exact Harch|].
    intros Hscan Hnd. unfold checkMailboxForSpawns. rewrite Hbox'. simpl.
    rewrite Hact.
    rewrite (scan_filter mb (fun id => negb (backs_stale cutoff pending id))).
    rewrite <- Hscan. f_equal. apply List.filter_ext_in.
    intros ps Hin. now rewrite (backs_stale_NoDup cutoff pending Hnd ps Hin).
  - apply pruneLoop_nil.
Qed.

Lemma pruneStalePendingFromList_witness :
  let pending := scan "deacon" [Sample.old_toast; Sample.new_toast] in
  let r := pruneStalePendingFromList 1000 pending 300 Sample.deacon_store in
  fst r = Ok 1%nat
  /\ checkMailboxForSpawns "deacon" (snd r)
     = Ok (scan "deacon" [Sample.new_toast])
  /\ (exists box',
        snd r !! "deacon" = Some box'
        /\ forall m, In m (mail.archived box') <-> m = Sample.old_toast).
Proof.
  intros pending r.
  destruct (pruneStalePendingFromList_spec 1000 300 pending Sample.deacon_store)
    as [Hbacked _].
  destruct (Hbacked "deacon" (mail.mkMailbox [Sample.old_toast; Sample.new_toast] []))
    as (Hr & box' & Hbox' & _ & _ & Harch & Hscan).
  - apply lookup_singleton_eq.
  - intros ps [<- | [<- | []]]; reflexivity.
  - fold r in Hr, Hbox', Hscan. split; [exact Hr|]. split.
    + apply Hscan; [reflexivity|].
      repeat constructor; simpl; intuition discriminate.
    + exists box'. split; [exact Hbox'|]. intros m. rewrite (Harch m). simpl.
      split.
      * intros [[] | [[<- | [<- | []]] Hb]]; [reflexivity | discriminate Hb].
      * intros ->. right. split; [now left | reflexivity].
Defined.

(** The NilMailboxError of C9 on the entry of the test suite. *)
Example pruneStalePendingFromList_nil_mailbox :
  fst (pruneStalePendingFromList 1000
         [ {| Rig := ""; Polecat := ""; Session := "gt-gastown-polecat-Toast";
              Issue := ""; SpawnedAt := 400; MailID := "mail-001";
              mailbox := None |} ] 300 ∅)
  = Err NilMailboxError.
Proof. reflexivity. Qed.

(** * Further properties of the handler *)

(** ** Properties of the registry that every cycle keeps *)

Section RegistryInvariant.

Variable P : list dog.Dog -> Prop.
Hypothesis P_clear : forall n ds, P ds -> P (update_dog n cleared ds).
Hypothesis P_assign :
  forall n p ds, P ds -> P (update_dog n (assigned (workDescOf p)) ds).

Lemma keeps_dogs_bind {A B : Type} (c : M A) (k : A -> M B) :
  keeps_dogs P c -> (forall a, keeps_dogs P (k a)) -> keeps_dogs P (bind c k).
Proof.
  intros Hc Hk w HP. unfold keeps_dogs, run, bind in *.
  specialize (Hc w HP). destruct (c w) as [a w1]. simpl in Hc. now apply Hk.
Qed.

Lemma keeps_dogs_forEach {A : Type} (body : A -> M unit) (xs : list A) :
  (forall x, keeps_dogs P (body x)) -> keeps_dogs P (forEach body xs).
Proof.
  intros Hbody. induction xs as [|x xs IH]; simpl.
  - intros w HP. exact HP.
  - apply keeps_dogs_bind; auto.
Qed.

Lemma keeps_dogs_forEachCtl {A : Type} (body : A -> M Ctl) (xs : list A) :
  (forall x, keeps_dogs P (body x)) -> keeps_dogs P (forEachCtl body xs).
Proof.
  intros Hbody. induction xs as [|x xs IH]; simpl.
  - intros w HP. exact HP.
  - apply keeps_dogs_bind; [auto|]. intros [|]; [exact IH | intros w HP; exact HP].
Qed.

Lemma keeps_dogs_cleanupStuckDog E dg : keeps_dogs P (cleanupStuckDog E dg).
Proof.
  intros w HP. destruct (cleanupStuckDog_path E dg w) as (tr & _ & Hpath).
  remember (dogs (run (cleanupStuckDog E dg) w)) as ds' eqn:Hds. clear Hds.
  inversion Hpath as [| | |clearErr]; subst; auto.
  destruct clearErr; auto.
Qed.

Lemma keeps_dogs_dispatchPlugin E p : keeps_dogs P (dispatchPlugin E p).
Proof.
  intros w HP. destruct (dispatchPlugin_path E p w) as (tr & _ & Hpath).
  remember (dogs (run (dispatchPlugin E p) w)) as ds' eqn:Hds. clear Hds.
  remember (fst (dispatchPlugin E p w)) as c eqn:Hc. clear Hc.
  invert_BodyPath Hpath; auto.
Qed.

Lemma keeps_dogs_cleanupStuckDogs E : keeps_dogs P (cleanupStuckDogs E).
Proof.
  unfold cleanupStuckDogs. apply keeps_dogs_bind.
  - intros w HP. unfold run, mgr_List. now destruct (List_fault E w).
  - intros [ds|e]; [|intros w HP; exact HP].
    apply keeps_dogs_forEach. apply keeps_dogs_cleanupStuckDog.
Qed.

Lemma keeps_dogs_dispatchPlugins E cfg : keeps_dogs P (dispatchPlugins E cfg).
Proof.
  unfold dispatchPlugins. apply keeps_dogs_bind.
  - intros w HP. exact HP.
  - intros [[|p ps]|e]; try (intros w HP; exact HP).
    apply keeps_dogs_forEachCtl. apply keeps_dogs_dispatchPlugin.
Qed.

Lemma keeps_dogs_handleDogs E : keeps_dogs P (handleDogs E).
Proof.
  unfold handleDogs. apply keeps_dogs_bind.
  - intros w HP. exact HP.
  - intros [c|e]; [|intros w HP; exact HP].
    apply keeps_dogs_bind; [apply keeps_dogs_cleanupStuckDogs|].
    intros _. apply keeps_dogs_dispatchPlugins.
Qed.

End RegistryInvariant.

Lemma map_name_update n f ds :
  (forall x, dog.Name (f x) = dog.Name x) ->
  map dog.Name (update_dog n f ds) = map dog.Name ds.
Proof.
  intros Hf. induction ds as [|x ds IH]; simpl; [reflexivity|].
  destruct (String.eqb (dog.Name x) n); simpl; [now rewrite Hf | now rewrite IH].
Qed.

Lemma Forall_update (Q : dog.Dog -> Prop) n f ds :
  (forall x, Q x -> Q (f x)) ->
  List.Forall Q ds -> List.Forall Q (update_dog n f ds).
Proof.
  intros Hf Hds. induction Hds as [|x ds Hx Hds IH]; simpl; [constructor|].
  destruct (String.eqb (dog.Name x) n); constructor; auto.
Qed.

Lemma well_formed_cleared x : well_formed (cleared x).
Proof. unfold well_formed, cleared. simpl. split; [discriminate | congruence]. Qed.

Lemma well_formed_assigned p x : well_formed (assigned (workDescOf p) x).
Proof.
  unfold well_formed, assigned, workDescOf. simpl.
  split; [intros _; discriminate | reflexivity].
Qed.

(** X1: a scheduling cycle never adds, removes, renames or reorders a dog:
    whatever the collaborators answer, the names of the registry after
    [handleDogs] are those before it, in the same order. *)
Theorem handleDogs_keeps_names E w :
  map dog.Name (dogs (run (handleDogs E) w)) = map dog.Name (dogs w).
Proof.
  apply (keeps_dogs_handleDogs
           (fun ds => map dog.Name ds = map dog.Name (dogs w))); [| |reflexivity].
  - intros n ds <-. now apply map_name_update.
  - intros n p ds <-. now apply map_name_update.
Qed.

(** X2: a scheduling cycle keeps the invariant of the registry: when every
    dog is working exactly when it carries a work description before
    [handleDogs], the same holds after it (the description the dispatch pass
    assigns, [plugin:<name>], is never empty, and the rollback and the
    stuck-repair clear it). *)
Theorem handleDogs_keeps_well_formed E w :
  List.Forall well_formed (dogs w) ->
  List.Forall well_formed (dogs (run (handleDogs E) w)).
Proof.
  apply (keeps_dogs_handleDogs (List.Forall well_formed)).
  - intros n ds Hds. apply Forall_update; [|exact Hds].
    intros x _. apply well_formed_cleared.
  - intros n p ds Hds. apply Forall_update; [|exact Hds].
    intros x _. apply well_formed_assigned.
Qed.

Lemma handleDogs_keeps_well_formed_witness :
  let E := Sample.calm [Sample.cooldown "gc" "1h"] in
  List.Forall well_formed
    (dogs (run (handleDogs E) (Sample.world [Sample.fido; Sample.rex]))).
Proof.
  apply (handleDogs_keeps_well_formed
           (Sample.calm [Sample.cooldown "gc" "1h"])
           (Sample.world [Sample.fido; Sample.rex])).
  repeat constructor; unfold well_formed; simpl;
    try discriminate; try congruence.
Defined.

(** ** Sessions started against idle dogs *)

Lemma idle_count_assigned n desc ds dg :
  find_dog n ds = Some dg ->
  dog.State dg = dog.StateIdle ->
  S (idle_count (update_dog n (assigned desc) ds)) = idle_count ds.
Proof.
  unfold find_dog, idle_count.
  induction ds as [|x ds IH]; simpl; [discriminate|].
  destruct (String.eqb (dog.Name x) n) eqn:Hx.
  - intros [= ->] Hst. simpl. unfold dog.is_idle at 2. rewrite Hst. reflexivity.
  - intros Hf Hst. simpl. destruct (dog.is_idle x); simpl; now rewrite <- (IH Hf Hst).
Qed.

Lemma idle_count_cleared n ds dg :
  find_dog n ds = Some dg ->
  idle_count (update_dog n cleared ds)
  = (idle_count ds + if dog.is_idle dg then 0 else 1)%nat.
Proof.
  unfold find_dog, idle_count.
  induction ds as [|x ds IH]; simpl; [discriminate|].
  destruct (String.eqb (dog.Name x) n) eqn:Hx.
  - intros [= ->]. simpl. destruct (dog.is_idle dg); simpl; lia.
  - intros Hf. simpl. destruct (dog.is_idle x); simpl; rewrite (IH Hf); lia.
Qed.

Lemma sessions_started_app tr1 tr2 :
  sessions_started (tr1 ++ tr2)
  = (sessions_started tr1 + sessions_started tr2)%nat.
Proof.
  unfold sessions_started. now rewrite List.filter_app, length_app.
Qed.

Lemma IdlePath_started p ds c ds' tr :
  IdlePath p ds c ds' tr ->
  (sessions_started tr + idle_count ds' <= idle_count ds)%nat.
Proof.
  intros Hpath. invert_IdlePath Hpath; unfold sessions_started; simpl; try lia.
  all: match goal with
       | H : find_dog ?n ?l = Some ?dg, Hst : dog.State ?dg = dog.StateIdle |- _ =>
           pose proof (idle_count_assigned n (workDescOf p) l dg H Hst) as Ha;
           pose proof (find_dog_update_eq n (assigned (workDescOf p)) l dg
                         (assigned_name _) H) as Hf
       end.
  all: try (rewrite (idle_count_cleared _ _ _ Hf); simpl); lia.
Qed.

Lemma BodyPath_started p ds c ds' tr :
  BodyPath p ds c ds' tr ->
  (sessions_started tr + idle_count ds' <= idle_count ds)%nat.
Proof.
  intros Hpath. inversion Hpath; subst; unfold sessions_started; simpl; try lia.
  - now apply (IdlePath_started p ds c ds' tr).
  - match goal with H : IdlePath _ _ _ _ _ |- _ =>
      apply IdlePath_started in H; unfold sessions_started in H; exact H
    end.
Qed.

Lemma dispatch_loop_started E ps : forall w,
  let w' := run (forEachCtl (dispatchPlugin E) ps) w in
  exists tr,
    trace w' = trace w ++ tr
    /\ (sessions_started tr + idle_count (dogs w') <= idle_count (dogs w))%nat.
Proof.
  induction ps as [|p ps IH]; intros w.
  - exists []. split; [symmetry; apply app_nil_r|].
    unfold sessions_started, run, ret. simpl. lia.
  - cbv zeta. rewrite run_forEachCtl_cons.
    destruct (dispatchPlugin_path E p w) as (tr1 & Htr1 & Hpath).
    apply BodyPath_started in Hpath.
    destruct (fst (dispatchPlugin E p w)).
    + destruct (IH (run (dispatchPlugin E p) w)) as (tr2 & Htr2 & Hle).
      exists (tr1 ++ tr2). split.
      * rewrite Htr2, Htr1. now rewrite app_assoc.
      * rewrite sessions_started_app. lia.
    + exists tr1. split; [exact Htr1 | exact Hpath].
Qed.

(** X3: a dispatch pass never starts more sessions than there were idle
    dogs when it began: the sessions it started and the dogs still idle
    after it together number at most the dogs idle before it, whatever the
    collaborators answer. *)
Theorem dispatchPlugins_never_overbooks E cfg w :
  let w' := run (dispatchPlugins E cfg) w in
  exists tr,
    trace w' = trace w ++ tr
    /\ (sessions_started tr + idle_count (dogs w') <= idle_count (dogs w))%nat.
Proof.
  unfold dispatchPlugins, run, bind, scanner_DiscoverAll, logf, emit, ret.
  destruct (DiscoverAll_result E w _) as [[|p ps]|e] eqn:Hdisc.
  1,3: eexists; split;
         [simpl; rewrite <- ?app_assoc; reflexivity
         | unfold sessions_started; simpl; lia].
  destruct (dispatch_loop_started E (p :: ps)
              (record (EvDiscoverAll
                         match cfg with Some c => Rigs c | None => [] end
                         (fault_of (Ok (p :: ps)))) w))
    as (tr & Htr & Hle).
  eexists. split.
  - unfold run in Htr. rewrite Htr. simpl. rewrite <- app_assoc. reflexivity.
  - rewrite (sessions_started_app [_] tr).
    unfold run in Hle. simpl in *. unfold sessions_started at 1. simpl. exact Hle.
Qed.

(** ** A dispatch pass without an idle dog *)

Lemma BodyPath_no_idle p ds c ds' tr :
  BodyPath p ds c ds' tr ->
  List.find dog.is_idle ds = None ->
  ds' = ds
  /\ List.filter is_claim tr = []
  /\ match c with
     | Continue => List.filter is_lookup tr = []
     | Return => List.filter is_lookup tr = [EvGetIdleDog (Ok None)]
                 \/ exists e, List.filter is_lookup tr = [EvGetIdleDog (Err e)]
     end.
Proof.
  intros Hpath Hnone. invert_BodyPath Hpath; try congruence; simpl; eauto.
Qed.

Lemma dispatch_loop_no_idle E ps : forall w,
  List.find dog.is_idle (dogs w) = None ->
  let w' := run (forEachCtl (dispatchPlugin E) ps) w in
  dogs w' = dogs w
  /\ exists tr,
       trace w' = trace w ++ tr
       /\ List.filter is_claim tr = []
       /\ (List.length (List.filter is_lookup tr) <= 1)%nat.
Proof.
  induction ps as [|p ps IH]; intros w Hnone.
  - split; [reflexivity|]. exists [].
    split; [symmetry; apply app_nil_r | simpl; auto].
  - cbv zeta. rewrite run_forEachCtl_cons.
    destruct (dispatchPlugin_path E p w) as (tr1 & Htr1 & Hpath).
    destruct (BodyPath_no_idle _ _ _ _ _ Hpath Hnone) as (Hds & Hclaim & Hlook).
    destruct (fst (dispatchPlugin E p w)).
    + rewrite <- Hds in Hnone.
      destruct (IH _ Hnone) as (Hds2 & tr2 & Htr2 & Hclaim2 & Hlook2).
      split; [now rewrite Hds2|]. exists (tr1 ++ tr2).
      split; [rewrite Htr2, Htr1; now rewrite app_assoc|].
      rewrite !List.filter_app, Hclaim, Hclaim2, Hlook. auto.
    + split; [exact Hds|]. exists tr1. split; [exact Htr1|].
      split; [exact Hclaim|].
      destruct Hlook as [-> | [e ->]]; simpl; lia.
Qed.

(** X4: when no dog is idle at the start of a dispatch pass, the pass
    leaves the registry as it is, claims no dog, starts no session and
    sends no mail, and asks for an idle dog at most once: the first due
    item ends the pass and the remaining ones are deferred. *)
Theorem dispatchPlugins_without_idle_dog E cfg w :
  List.find dog.is_idle (dogs w) = None ->
  let w' := run (dispatchPlugins E cfg) w in
  dogs w' = dogs w
  /\ exists tr,
       trace w' = trace w ++ tr
       /\ List.filter is_claim tr = []
       /\ (List.length (List.filter is_lookup tr) <= 1)%nat.
Proof.
  intros Hnone.
  unfold dispatchPlugins, run, bind, scanner_DiscoverAll, logf, emit, ret.
  destruct (DiscoverAll_result E w _) as [[|p ps]|e] eqn:Hdisc.
  1,3: split; [reflexivity|]; eexists; split;
         [simpl; rewrite <- ?app_assoc; reflexivity | simpl; auto].
  destruct (dispatch_loop_no_idle E (p :: ps)
              (record (EvDiscoverAll
                         match cfg with Some c => Rigs c | None => [] end
                         (fault_of (Ok (p :: ps)))) w) Hnone)
    as (Hds & tr & Htr & Hclaim & Hlook).
  split; [exact Hds|]. eexists. split.
  - unfold run in Htr. rewrite Htr. simpl. rewrite <- app_assoc. reflexivity.
  - simpl. auto.
Qed.

Lemma dispatchPlugins_without_idle_dog_witness :
  let E := Sample.calm [Sample.cooldown "gc" ""; Sample.cooldown "dream" ""] in
  let w := Sample.world [Sample.fido] in
  let w' := run (dispatchPlugins E None) w in
  dogs w' = dogs w
  /\ exists tr,
       trace w' = trace w ++ tr
       /\ List.filter is_claim tr = []
       /\ (List.length (List.filter is_lookup tr) <= 1)%nat.
Proof.
  apply (dispatchPlugins_without_idle_dog
           (Sample.calm [Sample.cooldown "gc" ""; Sample.cooldown "dream" ""])
           None (Sample.world [Sample.fido])).
  reflexivity.
Defined.

(** ** An item inside its cooldown window *)

Lemma filter_nonempty {A : Type} (f : A -> bool) (l : list A) x :
  In x l -> f x = true -> List.length (List.filter f l) <> 0%nat.
Proof.
  intros Hin Hf Hlen. apply length_zero_iff_nil in Hlen.
  assert (In x (List.filter f l)) as Hx by (apply List.filter_In; auto).
  rewrite Hlen in Hx. destruct Hx.
Qed.

(** X5: an item with a cooldown gate that has a recorded run inside the
    trailing window of its duration is passed over by the loop body: the
    body queries the run count, finds it positive, and continues with the
    next item without logging, looking for a dog or changing anything. *)
Theorem dispatchPlugin_inside_cooldown E p g d ts rest w :
  plugin.Gate p = Some g ->
  plugin.Type_ g = plugin.GateCooldown ->
  plugin.Duration g <> ""%string ->
  ParseDuration E (plugin.Duration g) = Some d ->
  In (plugin.Name p, ts) (runs w) ->
  now w - d <= ts ->
  exists n,
    n <> 0%nat
    /\ let w' := record (EvCountRunsSince (plugin.Name p) (plugin.Duration g)
                          (Ok n)) w in
       dispatchPlugin E p w = (Continue, w')
       /\ forEachCtl (dispatchPlugin E) (p :: rest) w
          = forEachCtl (dispatchPlugin E) rest w'.
Proof.
  intros Hg Hty Hdur Hparse Hin Hts.
  set (n := List.length
              (List.filter (ran_since (plugin.Name p) (now w - d)) (runs w))).
  assert (n <> 0%nat) as Hn.
  { apply (filter_nonempty _ _ (plugin.Name p, ts) Hin).
    unfold ran_since. simpl. rewrite String.eqb_refl. simpl.
    now apply Z.leb_le. }
  exists n. split; [exact Hn|]. cbv zeta.
  assert (dispatchPlugin E p w
          = (Continue,
             record (EvCountRunsSince (plugin.Name p) (plugin.Duration g) (Ok n)) w))
    as Hskip.
  { unfold_body. rewrite Hg, Hty.
    destruct (String.eqb_spec (plugin.Duration g) ""); [contradiction|].
    rewrite Hparse. fold n. destruct n; [contradiction|reflexivity]. }
  split; [exact Hskip|]. simpl. unfold bind. rewrite Hskip. reflexivity.
Qed.

Lemma dispatchPlugin_inside_cooldown_witness :
  let E := Sample.calm [] in
  let p := Sample.cooldown "gc" "1h" in
  let w := {| dogs := [Sample.rex]; sessions := []; mailboxes := ∅;
              runs := [("gc", 9400)]; now := 10000; trace := [] |} in
  exists n,
    n <> 0%nat
    /\ let w' := record (EvCountRunsSince "gc" "1h" (Ok n)) w in
       dispatchPlugin E p w = (Continue, w')
       /\ forEachCtl (dispatchPlugin E) [p] w
          = forEachCtl (dispatchPlugin E) [] w'.
Proof.
  apply (dispatchPlugin_inside_cooldown (Sample.calm [])
           (Sample.cooldown "gc" "1h")
           (plugin.mkGate plugin.GateCooldown "1h") 3600 9400 []
           {| dogs := [Sample.rex]; sessions := []; mailboxes := ∅;
              runs := [("gc", 9400)]; now := 10000; trace := [] |}).
  - reflexivity.
  - reflexivity.
  - discriminate.
  - reflexivity.
  - left. reflexivity.
  - simpl. lia.
Defined.

(** ** A dispatch that goes through *)

Lemma cooldownElapsed_frame E p g w :
  let w0 := run (cooldownElapsed E p g) w in
  dogs w0 = dogs w /\ sessions w0 = sessions w
  /\ mailboxes w0 = mailboxes w /\ now w0 = now w.
Proof.
  unfold run, cooldownElapsed. unfold_prims.
  repeat case_match; simpl; auto.
Qed.

Lemma filter_none {A : Type} (f : A -> bool) (l : list A) :
  (forall x, In x l -> f x = false) -> List.filter f l = [].
Proof.
  induction l as [|x l IH]; intros H; simpl; [reflexivity|].
  rewrite (H x (or_introl eq_refl)). apply IH. intros y Hy. apply H. now right.
Qed.

Lemma cooldownElapsed_due E p g w :
  due E p g w -> fst (cooldownElapsed E p g w) = true.
Proof.
  unfold cooldownElapsed. unfold_prims.
  intros [Hdur | (d & Hparse & Hruns)].
  - rewrite Hdur. reflexivity.
  - destruct (String.eqb (plugin.Duration g) ""); [reflexivity|].
    rewrite Hparse. rewrite filter_none; [reflexivity|].
    intros [n ts] Hin. unfold ran_since. simpl.
    destruct (String.eqb_spec n (plugin.Name p)) as [-> | _]; [|reflexivity].
    simpl. apply Z.leb_gt. now apply Hruns.
Qed.

Lemma find_idle_is_idle ds d :
  List.find dog.is_idle ds = Some d -> In d ds /\ dog.State d = dog.StateIdle.
Proof.
  intros H. apply find_some in H as [Hin Hidle]. split; [exact Hin|].
  unfold dog.is_idle in Hidle. now destruct (dog.State d).
Qed.

(** X6: when the cooldown of an item has elapsed (its gate has no duration,
    or no run is recorded inside the window), the dogs have distinct
    names, one of them is idle and the registry, the session manager and the
    router answer, the loop body dispatches the item to the first idle dog
    of the registry: that dog becomes working on [plugin:<name>] and no
    other dog changes, a session for it is started with that description, a
    task message from the daemon with the subject [Plugin: <name>], the
    instructions of the item and the current time is appended to the active
    inbox of [dog/<dog>], no other mailbox changes, and the loop goes on. *)
Theorem dispatchPlugin_dispatches E p g d w :
  healthy E ->
  plugin.Gate p = Some g ->
  plugin.Type_ g = plugin.GateCooldown ->
  due E p g w ->
  List.NoDup (map dog.Name (dogs w)) ->
  List.find dog.is_idle (dogs w) = Some d ->
  let w' := run (dispatchPlugin E p) w in
  let to := ("dog/" ++ dog.Name d)%string in
  fst (dispatchPlugin E p w) = Continue
  /\ find_dog (dog.Name d) (dogs w')
     = Some (dog.mkDog (dog.Name d) dog.StateWorking (workDescOf p))
  /\ (forall n, n <> dog.Name d -> find_dog n (dogs w') = find_dog n (dogs w))
  /\ sessions w' = sessions w ++ [(dog.Name d, workDescOf p)]
  /\ (forall k, k <> to -> mailboxes w' !! k = mailboxes w !! k)
  /\ exists id box,
       mailboxes w' !! to = Some box
       /\ mail.active box
          = mail.active (default mail.empty (mailboxes w !! to))
            ++ [ {| mail.ID := id; mail.From := "daemon"; mail.To := to;
                    mail.Subject := ("Plugin: " ++ plugin.Name p)%string;
                    mail.Body := plugin.Instructions p;
                    mail.Type_ := mail.TypeTask;
                    mail.Timestamp := now w |} ]
       /\ mail.archived box
          = mail.archived (default mail.empty (mailboxes w !! to)).
Proof.
  intros (Hidle & Hassign & Hstart & Hsend) Hg Hty Hdue Hnd Hfind w' to.
  pose proof (cooldownElapsed_due E p g w Hdue) as Hcool.
  destruct (cooldownElapsed_frame E p g w) as (Hd0 & Hs0 & Hm0 & Hn0).
  destruct (find_idle_is_idle _ _ Hfind) as [Hin Hst].
  pose proof (find_dog_NoDup _ _ Hnd Hin) as Hdog.
  subst w'. unfold run in *.
  destruct (dispatchPlugin E p w) as [c w'] eqn:Hrun. simpl.
  unfold dispatchPlugin in Hrun. rewrite Hg, Hty in Hrun.
  unfold bind at 1 in Hrun.
  destruct (cooldownElapsed E p g w) as [go w0]. simpl in Hcool, Hd0, Hs0, Hm0, Hn0.
  subst go. unfold dispatchToIdleDog in Hrun. unfold_prims.
  rewrite Hidle, Hd0, Hfind, Hassign in Hrun. simpl in Hrun.
  rewrite Hd0, Hdog, Hst, Hstart, Hsend in Hrun. simpl in Hrun.
  injection Hrun as <- <-. simpl.
  split; [reflexivity|]. split; [|split; [|split; [|split]]].
  - rewrite (find_dog_update_eq _ _ _ _ (assigned_name _) Hdog). reflexivity.
  - intros n Hn. now apply find_dog_update_ne.
  - now rewrite Hs0.
  - intros k Hk. unfold deliver. simpl. rewrite Hm0. now apply lookup_insert_ne.
  - eexists _, _. split; [|split].
    + unfold deliver. simpl. apply lookup_insert_eq.
    + simpl. rewrite Hm0, Hn0. reflexivity.
    + simpl. now rewrite Hm0.
Qed.

Lemma dispatchPlugin_dispatches_witness :
  let E := Sample.calm [] in
  let p := Sample.cooldown "gc" "1h" in
  let w := Sample.world [Sample.fido; Sample.rex] in
  let w' := run (dispatchPlugin E p) w in
  find_dog "rex" (dogs w')
  = Some (dog.mkDog "rex" dog.StateWorking (workDescOf p))
  /\ sessions w' = sessions w ++ [("rex", workDescOf p)].
Proof.
  intros E p w w'.
  destruct (dispatchPlugin_dispatches E p
              (plugin.mkGate plugin.GateCooldown "1h") Sample.rex w)
    as (_ & Hdog & _ & Hsess & _).
  - repeat split; intros; reflexivity.
  - reflexivity.
  - reflexivity.
  - right. exists 3600. split; [reflexivity|]. intros ts [].
  - simpl. repeat constructor; simpl; intuition discriminate.
  - reflexivity.
  - split; [exact Hdog | exact Hsess].
Defined.

(** ** What the stuck-repair pass leaves alone *)

Lemma keeps_bind_field {X A B : Type} (f : World -> X) (c : M A) (k : A -> M B) :
  keeps f c -> (forall a, keeps f (k a)) -> keeps f (bind c k).
Proof.
  intros Hc Hk w. unfold keeps, run, bind in *.
  specialize (Hc w). destruct (c w) as [a w1]. simpl in Hc.
  rewrite Hk. exact Hc.
Qed.

Lemma keeps_forEach_field {X A : Type} (f : World -> X) (body : A -> M unit) xs :
  (forall x, keeps f (body x)) -> keeps f (forEach body xs).
Proof.
  intros Hbody. induction xs as [|x xs IH]; simpl.
  - intros w. reflexivity.
  - apply keeps_bind_field; auto.
Qed.

Lemma cleanupStuckDogs_keeps_sessions E : keeps sessions (cleanupStuckDogs E).
Proof.
  unfold cleanupStuckDogs. apply keeps_bind_field.
  - intros w. unfold run, mgr_List. now destruct (List_fault E w).
  - intros [ds|e]; [|intros w; reflexivity].
    apply keeps_forEach_field. intros dg w.
    unfold run, cleanupStuckDog. unfold_prims.
    repeat case_match; simplify_eq; reflexivity.
Qed.

Lemma cleanupStuckDogs_keeps_mailboxes E : keeps mailboxes (cleanupStuckDogs E).
Proof.
  unfold cleanupStuckDogs. apply keeps_bind_field.
  - intros w. unfold run, mgr_List. now destruct (List_fault E w).
  - intros [ds|e]; [|intros w; reflexivity].
    apply keeps_forEach_field. intros dg w.
    unfold run, cleanupStuckDog. unfold_prims.
    repeat case_match; simplify_eq; reflexivity.
Qed.

Lemma find_dog_update_same n f ds :
  (forall x, dog.Name (f x) = dog.Name x) ->
  find_dog n (update_dog n f ds) = option_map f (find_dog n ds).
Proof.
  intros Hf. destruct (find_dog n ds) as [d|] eqn:Hd.
  - now apply find_dog_update_eq.
  - unfold find_dog in *. induction ds as [|x ds IH]; simpl in *; [reflexivity|].
    destruct (String.eqb (dog.Name x) n) eqn:Hx; [discriminate|].
    simpl. rewrite Hx. now apply IH.
Qed.

Lemma update_dog_absent n f ds : find_dog n ds = None -> update_dog n f ds = ds.
Proof.
  unfold find_dog. induction ds as [|x ds IH]; simpl; [reflexivity|].
  destruct (String.eqb (dog.Name x) n); [discriminate|].
  intros H. now rewrite IH.
Qed.

Lemma repair_loop_claims E l : forall w,
  exists tr,
    trace (run (forEach (cleanupStuckDog E) l) w) = trace w ++ tr
    /\ List.filter is_claim tr = [].
Proof.
  induction l as [|a l IH]; intros w.
  - exists []. split; [symmetry; apply app_nil_r | reflexivity].
  - rewrite run_forEach_cons.
    destruct (cleanupStuckDog_path E a w) as (tr1 & Htr1 & Hpath).
    destruct (IH (run (cleanupStuckDog E a) w)) as (tr2 & Htr2 & Hc2).
    exists (tr1 ++ tr2). split; [rewrite Htr2, Htr1; now rewrite app_assoc|].
    rewrite List.filter_app, Hc2, app_nil_r.
    inversion Hpath as [| | |clearErr]; subst; try reflexivity.
    destruct clearErr; reflexivity.
Qed.

(** X7: the stuck-repair pass only ever clears: whatever the listing and
    the probes answer, a dog that is working after [cleanupStuckDogs] was
    registered just so before it, the number of idle dogs has not dropped,
    the sessions and the mailboxes are untouched, and the pass has claimed
    no dog, started no session and sent no mail. *)
Theorem cleanupStuckDogs_only_clears E w :
  let w' := run (cleanupStuckDogs E) w in
  (forall n dg, find_dog n (dogs w') = Some dg ->
                dog.State dg = dog.StateWorking ->
                find_dog n (dogs w) = Some dg)
  /\ (idle_count (dogs w) <= idle_count (dogs w'))%nat
  /\ sessions w' = sessions w
  /\ mailboxes w' = mailboxes w
  /\ exists tr, trace w' = trace w ++ tr /\ List.filter is_claim tr = [].
Proof.
  cbv zeta. split; [|split; [|split; [|split]]].
  - apply (keeps_dogs_cleanupStuckDogs
             (fun ds => forall n dg, find_dog n ds = Some dg ->
                                     dog.State dg = dog.StateWorking ->
                                     find_dog n (dogs w) = Some dg)); [|auto].
    intros m ds Hds n dg Hfind Hst.
    destruct (String.eqb_spec n m) as [-> | Hne].
    + rewrite find_dog_update_same in Hfind by apply cleared_name.
      destruct (find_dog m ds); simpl in Hfind; [|discriminate].
      injection Hfind as <-. discriminate Hst.
    + rewrite find_dog_update_ne in Hfind by auto. now apply Hds.
  - apply (keeps_dogs_cleanupStuckDogs
             (fun ds => (idle_count (dogs w) <= idle_count ds)%nat)); [|lia].
    intros m ds Hds.
    destruct (find_dog m ds) as [dg|] eqn:Hm.
    + rewrite (idle_count_cleared _ _ _ Hm). lia.
    + now rewrite (update_dog_absent _ _ _ Hm).
  - apply cleanupStuckDogs_keeps_sessions.
  - apply cleanupStuckDogs_keeps_mailboxes.
  - unfold cleanupStuckDogs, run, bind, mgr_List, logf, emit.
    destruct (List_fault E w) as [e|].
    + eexists. split; [simpl; rewrite <- app_assoc; reflexivity | reflexivity].
    + destruct (repair_loop_claims E (dogs w) (record (EvList None) w))
        as (tr & Htr & Hc).
      exists (EvList None :: tr). split; [|simpl; exact Hc].
      unfold run in Htr. rewrite Htr. simpl. now rewrite <- app_assoc.
Qed.

(** X8: when the listing of the dogs fails, [cleanupStuckDogs] logs the
    failure and returns: no session is probed, no work is cleared, and the
    registry is the one before the pass. *)
Theorem cleanupStuckDogs_list_failure E w e :
  List_fault E w = Some e ->
  let w' := run (cleanupStuckDogs E) w in
  trace w' = trace w ++ [EvList (Some e); EvLog (LogListFailed e)]
  /\ dogs w' = dogs w.
Proof.
  intros Hlist. unfold cleanupStuckDogs, run, bind, mgr_List, logf, emit.
  rewrite Hlist. simpl. rewrite <- app_assoc. auto.
Qed.

Lemma cleanupStuckDogs_list_failure_witness :
  let E := {| loadRigsConfig_result := fun _ => Ok None;
              List_fault := fun _ => Some StorageError;
              IsRunning_result := fun _ _ => Ok false;
              ClearWork_fault := fun _ _ => None;
              DiscoverAll_result := fun _ _ => Ok [];
              ParseDuration := Sample.parse;
              GetIdleDog_fault := fun _ => None;
              AssignWork_fault := fun _ _ _ => None;
              Start_fault := fun _ _ _ => None;
              Send_fault := fun _ _ => None;
              NewMessageID := fun _ => "msg" |} in
  let w := Sample.world [Sample.fido] in
  let w' := run (cleanupStuckDogs E) w in
  trace w' = trace w ++ [EvList (Some StorageError);
                         EvLog (LogListFailed StorageError)]
  /\ dogs w' = dogs w.
Proof.
  intros E w. apply (cleanupStuckDogs_list_failure E w StorageError).
  reflexivity.
Defined.

(** X9: when the scanner fails, or discovers no plugin, [dispatchPlugins]
    returns at once: no cooldown is queried, no idle dog is asked for, and
    dogs, sessions and mailboxes are those before the pass; only a failure
    is logged. *)
Theorem dispatchPlugins_nothing_discovered E cfg w :
  let rigNames := match cfg with Some c => Rigs c | None => [] end in
  let w' := run (dispatchPlugins E cfg) w in
  (forall e, DiscoverAll_result E w rigNames = Err e ->
     trace w'
     = trace w ++ [EvDiscoverAll rigNames (Some e); EvLog (LogDiscoverFailed e)]
     /\ dogs w' = dogs w /\ sessions w' = sessions w
     /\ mailboxes w' = mailboxes w)
  /\ (DiscoverAll_result E w rigNames = Ok [] ->
      w' = record (EvDiscoverAll rigNames None) w).
Proof.
  cbv zeta. unfold dispatchPlugins, run, bind, scanner_DiscoverAll, logf, emit.
  split.
  - intros e ->. simpl. rewrite <- app_assoc. auto.
  - intros ->. reflexivity.
Qed.

(** * The pending-spawn tracker and its test helpers *)

(** ** [containsSubstr] *)

Lemma string_length_app s1 s2 :
  String.length (s1 ++ s2)%string = (String.length s1 + String.length s2)%nat.
Proof. induction s1 as [|a s1 IH]; simpl; [reflexivity | now rewrite IH]. Qed.

Lemma substring_here sub : forall post,
  String.substring 0 (String.length sub) (sub ++ post)%string = sub.
Proof.
  induction sub as [|a sub IH]; intros post; simpl.
  - now destruct post.
  - now rewrite IH.
Qed.

Lemma substring_at pre sub post :
  String.substring (String.length pre) (String.length sub)
    (pre ++ sub ++ post)%string = sub.
Proof.
  induction pre as [|a pre IH]; [exact (substring_here sub post) | exact IH].
Qed.

Lemma substring_here_inv sub : forall s,
  String.substring 0 (String.length sub) s = sub ->
  exists post, s = (sub ++ post)%string.
Proof.
  induction sub as [|a sub IH]; intros s; simpl.
  - intros _. now exists s.
  - destruct s as [|b s]; [discriminate|].
    intros [= -> Hs]. destruct (IH s Hs) as [post ->]. now exists post.
Qed.

Lemma substring_at_inv sub : forall i s,
  (i + String.length sub <= String.length s)%nat ->
  String.substring i (String.length sub) s = sub ->
  exists pre post, String.length pre = i /\ s = (pre ++ sub ++ post)%string.
Proof.
  induction i as [|i IH]; intros s Hlen Hsub.
  - destruct (substring_here_inv sub s Hsub) as [post ->].
    now exists EmptyString, post.
  - destruct s as [|b s]; [simpl in Hlen; lia|].
    simpl in Hlen, Hsub.
    destruct (IH s) as (pre & post & Hpre & ->); [lia | exact Hsub |].
    exists (String b pre), post. simpl. now rewrite Hpre.
Qed.

Lemma containsSubstrFrom_spec s sub : forall steps i,
  containsSubstrFrom s sub i steps = true <->
  exists j, (i <= j < i + steps)%nat
            /\ String.substring j (String.length sub) s = sub.
Proof.
  induction steps as [|steps IH]; intros i; simpl.
  - split; [discriminate | intros (j & Hj & _); lia].
  - destruct (String.eqb_spec (String.substring i (String.length sub) s) sub)
      as [Heq|Hne].
    + split; [intros _; exists i; split; [lia | exact Heq] | reflexivity].
    + rewrite IH. split; intros (j & Hj & Hs).
      * exists j. split; [lia | exact Hs].
      * exists j. split; [|exact Hs].
        destruct (Nat.eq_dec j i) as [-> | Hji]; [contradiction | lia].
Qed.

(** X10: [containsSubstr] of the test suite answers true exactly when the
    second string occurs in the first, that is when the first is some
    prefix, then the second, then some suffix; so the empty string occurs in
    every string, and a string longer than the first never does (the loop
    bound is then negative and the loop does not run). *)
Theorem containsSubstr_spec s sub :
  containsSubstr s sub = true <->
  exists pre post, s = (pre ++ sub ++ post)%string.
Proof.
  unfold containsSubstr. rewrite containsSubstrFrom_spec. split.
  - intros (j & Hj & Hs).
    destruct (substring_at_inv sub j s) as (pre & post & _ & ->);
      [lia | exact Hs | eauto].
  - intros (pre & post & ->). exists (String.length pre). split.
    + rewrite !string_length_app. lia.
    + apply substring_at.
Qed.

(** ** Clearing the pending spawns of a session *)

Lemma clear_backed session mb : forall pending store box,
  store !! mb = Some box ->
  (forall ps, In ps pending -> mailbox ps = Some mb) ->
  let r := clearPendingSpawnFromList pending session store in
  fst r = None
  /\ exists box',
       snd r !! mb = Some box'
       /\ (forall k, k <> mb -> snd r !! k = store !! k)
       /\ mail.active box'
          = List.filter
              (fun m => negb (backs_session session pending (mail.ID m)))
              (mail.active box)
       /\ (forall m,
             In m (mail.archived box') <->
             In m (mail.archived box)
             \/ (In m (mail.active box)
                 /\ backs_session session pending (mail.ID m) = true)).
Proof.
  induction pending as [|ps rest IH]; intros store box Hbox Hmb.
  - simpl. split; [reflexivity|]. exists box. split; [exact Hbox|].
    split; [reflexivity|]. split; [symmetry; apply List.filter_true|].
    intros m. split; [now left | intros [H|[_ H]]; [exact H | discriminate H]].
  - cbv zeta. simpl clearPendingSpawnFromList. unfold backs_session. simpl existsb.
    destruct (String.eqb (Session ps) session) eqn:Hs.
    + rewrite (Hmb ps (or_introl eq_refl)).
      assert (archive mb (MailID ps) store !! mb
              = Some (mail.ArchiveByID (MailID ps) box)) as Hbox1.
      { unfold archive. rewrite lookup_alter_eq, Hbox. reflexivity. }
      destruct (IH _ _ Hbox1 (fun x Hx => Hmb x (or_intror Hx)))
        as (Hr & box' & Hbox' & Hother & Hact & Harch).
      split; [exact Hr|].
      exists box'. split; [exact Hbox'|]. split; [|split].
      * intros k Hk. rewrite (Hother k Hk). unfold archive.
        apply lookup_alter_ne. congruence.
      * rewrite Hact. simpl. rewrite filter_filter.
        apply List.filter_ext. intros m. simpl.
        now rewrite negb_orb.
      * intros m. rewrite (Harch m). simpl.
        rewrite in_app_iff, !List.filter_In.
        fold (backs_session session rest (mail.ID m)).
        destruct (String.eqb (mail.ID m) (MailID ps));
          destruct (backs_session session rest (mail.ID m)); simpl;
          intuition congruence.
    + destruct (IH _ _ Hbox (fun x Hx => Hmb x (or_intror Hx)))
        as (Hr & box' & Hbox' & Hother & Hact & Harch).
      split; [exact Hr|].
      exists box'. split; [exact Hbox'|]. split; [exact Hother|].
      split; [exact Hact | exact Harch].
Qed.

Lemma backs_session_NoDup session pending :
  List.NoDup (map MailID pending) ->
  forall ps, In ps pending ->
  backs_session session pending (MailID ps) = String.eqb (Session ps) session.
Proof.
  induction pending as [|a rest IH]; intros Hnd ps Hin; [destruct Hin|].
  simpl in Hnd. apply List.NoDup_cons_iff in Hnd as [Ha Hnd].
  unfold backs_session. simpl. fold (backs_session session rest (MailID ps)).
  destruct Hin as [-> | Hin].
  - rewrite String.eqb_refl, andb_true_r.
    destruct (String.eqb (Session ps) session) eqn:Hst; [reflexivity|]. simpl.
    destruct (backs_session session rest (MailID ps)) eqn:Hb; [|reflexivity].
    exfalso. apply Ha. unfold backs_session in Hb.
    apply existsb_exists in Hb as (x & Hx & Hxb).
    apply andb_true_iff in Hxb as [_ Hxb]. apply String.eqb_eq in Hxb.
    rewrite Hxb. now apply in_map.
  - rewrite (IH Hnd ps Hin).
    destruct (String.eqb_spec (MailID ps) (MailID a)) as [Heq|_];
      [|now rewrite andb_false_r].
    exfalso. apply Ha. rewrite <- Heq. now apply in_map.
Qed.

Lemma clear_no_match session : forall pending store,
  (forall ps, In ps pending -> Session ps <> session) ->
  clearPendingSpawnFromList pending session store = (None, store).
Proof.
  induction pending as [|ps rest IH]; intros store Hno; [reflexivity|].
  simpl. destruct (String.eqb_spec (Session ps) session) as [Heq|_].
  - exfalso. now apply (Hno ps (or_introl eq_refl)).
  - apply IH. intros x Hx. apply Hno. now right.
Qed.

Lemma clear_rescan session mb pending store box :
  store !! mb = Some box ->
  pending = scan mb (mail.active box) ->
  List.NoDup (map MailID pending) ->
  let r := clearPendingSpawnFromList pending session store in
  fst r = None
  /\ checkMailboxForSpawns mb (snd r)
     = Ok (List.filter (fun ps => negb (String.eqb (Session ps) session)) pending).
Proof.
  intros Hbox Hscan Hnd.
  assert (forall ps, In ps pending -> mailbox ps = Some mb) as Hmb.
  { rewrite Hscan. clear. induction (mail.active box) as [|m l IH]; simpl; [tauto|].
    destruct (parseSpawn mb m) as [ps0|] eqn:Hp; [|exact IH].
    intros ps [<- | Hin]; [|now apply IH].
    unfold parseSpawn in Hp. repeat case_match; simplify_eq. reflexivity. }
  destruct (clear_backed session mb pending store box Hbox Hmb)
    as (Hr & box' & Hbox' & _ & Hact & _).
  cbv zeta. split; [exact Hr|].
  unfold checkMailboxForSpawns. rewrite Hbox'. simpl. rewrite Hact.
  rewrite (scan_filter mb (fun id => negb (backs_session session pending id))).
  rewrite <- Hscan. f_equal. apply List.filter_ext_in.
  intros ps Hin. now rewrite (backs_session_NoDup session pending Hnd ps Hin).
Qed.

(** X11: clearing a session on a fresh scan of a mailbox whose spawn
    notifications carry distinct ids succeeds, and a new scan of the mailbox
    returns exactly the pending spawns of the other sessions, in their
    order (the scenario of TestClearPendingSpawnFromList_ClearsAllMatching,
    for any mailbox). *)
Theorem clearPendingSpawnFromList_clears_all_matching session mb store box :
  store !! mb = Some box ->
  List.NoDup (map MailID (scan mb (mail.active box))) ->
  let pending := scan mb (mail.active box) in
  let r := clearPendingSpawnFromList pending session store in
  fst r = None
  /\ checkMailboxForSpawns mb (snd r)
     = Ok (List.filter (fun ps => negb (String.eqb (Session ps) session)) pending).
Proof.
  intros Hbox Hnd. now apply (clear_rescan session mb _ store box).
Qed.

Lemma clearPendingSpawnFromList_clears_all_matching_witness :
  let store : gmap string mail.Mailbox :=
    {[ "deacon" := mail.mkMailbox [Sample.old_toast; Sample.new_toast] [] ]} in
  let pending := scan "deacon" [Sample.old_toast; Sample.new_toast] in
  let r := clearPendingSpawnFromList pending "gt-gastown-polecat-OldToast" store in
  fst r = None
  /\ checkMailboxForSpawns "deacon" (snd r)
     = Ok (List.filter
             (fun ps => negb (String.eqb (Session ps) "gt-gastown-polecat-OldToast"))
             pending).
Proof.
  apply (clearPendingSpawnFromList_clears_all_matching
           "gt-gastown-polecat-OldToast" "deacon" _
           (mail.mkMailbox [Sample.old_toast; Sample.new_toast] [])).
  - apply lookup_singleton_eq.
  - simpl. repeat constructor; simpl; intuition discriminate.
Defined.

(** X12: clearing is idempotent: a session that matches no pending entry
    is cleared with success and without touching any mailbox, whether or not
    the entries have a mailbox; so after a session has been cleared on a
    fresh scan, clearing it again on the new scan changes nothing.  A
    matching entry without a mailbox is a NilMailboxError. *)
Theorem clearPendingSpawnFromList_idempotent session pending store :
  ((forall ps, In ps pending -> Session ps <> session) ->
   clearPendingSpawnFromList pending session store = (None, store))
  /\ (forall mb box,
        store !! mb = Some box ->
        pending = scan mb (mail.active box) ->
        List.NoDup (map MailID pending) ->
        let store' := snd (clearPendingSpawnFromList pending session store) in
        exists pending',
          checkMailboxForSpawns mb store' = Ok pending'
          /\ clearPendingSpawnFromList pending' session store' = (None, store'))
  /\ ((exists ps, In ps pending /\ Session ps = session /\ mailbox ps = None) ->
      fst (clearPendingSpawnFromList pending session store)
      = Some NilMailboxError).
Proof.
  split; [apply clear_no_match|]. split.
  - intros mb box Hbox Hscan Hnd.
    destruct (clear_rescan session mb pending store box Hbox Hscan Hnd)
      as [_ Hre].
    cbv zeta. eexists. split; [exact Hre|].
    apply clear_no_match. intros ps Hin Heq.
    apply List.filter_In in Hin as [_ Hin].
    apply negb_true_iff in Hin. apply String.eqb_neq in Hin. contradiction.
  - revert store. induction pending as [|ps0 rest IH];
      intros store (ps & Hin & Hs & Hnil); [destruct Hin|].
    simpl. destruct (String.eqb_spec (Session ps0) session) as [Heq|Hne].
    + destruct (mailbox ps0) as [mb|] eqn:Hmb0; [|reflexivity].
      apply IH. exists ps. destruct Hin as [-> | Hin]; [congruence | auto].
    + apply IH. exists ps. destruct Hin as [-> | Hin]; [congruence | auto].
Qed.

(** ** Pruning when nothing is stale *)

Lemma pruneLoop_nothing_stale cutoff : forall pending pruned store,
  (forall ps, In ps pending -> stale cutoff ps = false) ->
  pruneLoop cutoff pending pruned store = (Ok pruned, store).
Proof.
  induction pending as [|ps rest IH]; intros pruned store Hno; [reflexivity|].
  simpl. rewrite (Hno ps (or_introl eq_refl)).
  apply IH. intros x Hx. apply Hno. now right.
Qed.

(** X13: pruning is idempotent: when no entry was spawned before
    [now - maxAge], [pruneStalePendingFromList] returns 0 and touches no
    mailbox, whether or not the entries have a mailbox; so after a fresh
    scan with distinct ids has been pruned, pruning the new scan with the
    same cutoff prunes nothing and changes nothing. *)
Theorem pruneStalePendingFromList_idempotent now maxAge pending store :
  ((forall ps, In ps pending -> SpawnedAt ps >= now - maxAge) ->
   pruneStalePendingFromList now pending maxAge store = (Ok 0%nat, store))
  /\ (forall mb box,
        store !! mb = Some box ->
        pending = scan mb (mail.active box) ->
        List.NoDup (map MailID pending) ->
        let store' := snd (pruneStalePendingFromList now pending maxAge store) in
        exists pending',
          checkMailboxForSpawns mb store' = Ok pending'
          /\ pruneStalePendingFromList now pending' maxAge store'
             = (Ok 0%nat, store')).
Proof.
  unfold pruneStalePendingFromList. split.
  - intros Hyoung. apply pruneLoop_nothing_stale.
    intros ps Hin. unfold stale. apply Z.ltb_ge. specialize (Hyoung ps Hin). lia.
  - intros mb box Hbox Hscan Hnd.
    assert (forall ps, In ps pending -> mailbox ps = Some mb) as Hmb.
    { rewrite Hscan. clear. induction (mail.active box) as [|m l IH]; simpl; [tauto|].
      destruct (parseSpawn mb m) as [ps0|] eqn:Hp; [|exact IH].
      intros ps [<- | Hin]; [|now apply IH].
      unfold parseSpawn in Hp. repeat case_match; simplify_eq. reflexivity. }
    destruct (pruneLoop_backed (now - maxAge) mb pending 0%nat store box Hbox Hmb)
      as (_ & box' & Hbox' & _ & Hact & _).
    cbv zeta. unfold checkMailboxForSpawns. rewrite Hbox'. simpl. rewrite Hact.
    rewrite (scan_filter mb
               (fun id => negb (backs_stale (now - maxAge) pending id))).
    rewrite <- Hscan. eexists. split; [reflexivity|].
    apply pruneLoop_nothing_stale. intros ps Hin.
    apply List.filter_In in Hin as [Hin Hkeep].
    rewrite (backs_stale_NoDup _ pending Hnd ps Hin) in Hkeep.
    now apply negb_true_iff in Hkeep.
Qed.

(** * Test utilities: [parseCSVLine] *)

Section CsvReader.

Import utf8 testutil.

(** ** Bytes and bit operations *)

Lemma byteOf_range c : 0 <= byteOf c < 256.
Proof.
  unfold byteOf. pose proof (N_ascii_bounded c). lia.
Qed.

Lemma chr_byteOf c : chr (byteOf c) = c.
Proof.
  unfold chr, byteOf. rewrite N2Z.id. apply ascii_N_embedding.
Qed.

Lemma byteOf_chr x : 0 <= x < 256 -> byteOf (chr x) = x.
Proof.
  intros Hx. unfold chr, byteOf. rewrite N_ascii_embedding by lia. lia.
Qed.

Lemma land_mod x n : 0 <= n -> Z.land x (2 ^ n - 1) = x mod 2 ^ n.
Proof.
  intros Hn. replace (2 ^ n - 1) with (Z.ones n) by (rewrite Z.ones_equiv; lia).
  now apply Z.land_ones.
Qed.

Lemma lor_add n a b :
  0 <= n -> 0 <= b < 2 ^ n -> a mod 2 ^ n = 0 -> Z.lor a b = a + b.
Proof.
  intros Hn Hb Ha. symmetry. apply Z.add_nocarry_lor.
  apply Z.bits_inj'. intros m Hm. rewrite Z.land_spec, Z.bits_0.
  destruct (Z.lt_ge_cases m n) as [Hlt|Hge].
  - rewrite <- (Z.mod_pow2_bits_low a n m) by lia. rewrite Ha, Z.bits_0.
    reflexivity.
  - rewrite <- (Z.mod_small b (2 ^ n)) by lia.
    rewrite Z.mod_pow2_bits_high by lia. apply andb_false_r.
Qed.

Ltac to_arith :=
  unfold byte, cont in *;
  change 0xFF with (2 ^ 8 - 1) in *;
  change 0x3F with (2 ^ 6 - 1) in *;
  change 0x1F with (2 ^ 5 - 1) in *;
  change 0x0F with (2 ^ 4 - 1) in *;
  change 0x07 with (2 ^ 3 - 1) in *;
  rewrite ?land_mod, ?Z.shiftl_mul_pow2, ?Z.shiftr_div_pow2 in * by lia;
  change (2 ^ 3) with 8 in *; change (2 ^ 4) with 16 in *;
  change (2 ^ 5) with 32 in *; change (2 ^ 6) with 64 in *;
  change (2 ^ 8) with 256 in *; change (2 ^ 12) with 4096 in *;
  change (2 ^ 18) with 262144 in *.

Ltac arith := Z.div_mod_to_equations; lia.

(** The runes of two, three and four bytes, as numbers. *)
Lemma rune2 s0 s1 :
  Z.lor (Z.shiftl (Z.land s0 0x1F) 6) (Z.land s1 0x3F)
  = s0 mod 32 * 64 + s1 mod 64.
Proof.
  to_arith. apply (lor_add 6); [lia | change (2 ^ 6) with 64; arith ..].
Qed.

Lemma rune3 s0 s1 s2 :
  Z.lor (Z.lor (Z.shiftl (Z.land s0 0x0F) 12) (Z.shiftl (Z.land s1 0x3F) 6))
        (Z.land s2 0x3F)
  = s0 mod 16 * 4096 + s1 mod 64 * 64 + s2 mod 64.
Proof.
  to_arith.
  rewrite (lor_add 12 (s0 mod 16 * 4096) (s1 mod 64 * 64)); [| lia | change (2 ^ 12) with 4096; arith ..].
  apply (lor_add 6); [lia | change (2 ^ 6) with 64; arith ..].
Qed.

Lemma rune4 s0 s1 s2 s3 :
  Z.lor (Z.lor (Z.lor (Z.shiftl (Z.land s0 0x07) 18)
                      (Z.shiftl (Z.land s1 0x3F) 12))
               (Z.shiftl (Z.land s2 0x3F) 6))
        (Z.land s3 0x3F)
  = s0 mod 8 * 262144 + s1 mod 64 * 4096 + s2 mod 64 * 64 + s3 mod 64.
Proof.
  to_arith.
    rewrite (lor_add 18 _ (s1 mod 64 * 4096)); [| lia | change (2 ^ 18) with 262144; arith ..].
  rewrite (lor_add 12 _ (s2 mod 64 * 64)); [| lia | change (2 ^ 12) with 4096; arith ..].
  apply (lor_add 6); [lia | change (2 ^ 6) with 64; arith ..].
Qed.

(** The bytes [AppendRune] writes, as numbers. *)
Lemma cont_byte x : 0 <= x -> cont x = chr (128 + x mod 64).
Proof.
  intros Hx. unfold cont. f_equal. to_arith.
  rewrite (lor_add 6); [| lia | change (2 ^ 6) with 64; arith ..]. arith.
Qed.

Lemma lead_byte t n x :
  0 <= n -> 0 <= x < 2 ^ n -> 2 ^ n <= 256 -> t mod 2 ^ n = 0 ->
  Z.lor t (byte x) = t + x.
Proof.
  intros Hn Hx Hle Ht. unfold byte.
  change 0xFF with (2 ^ 8 - 1). rewrite land_mod by lia.
  rewrite Z.mod_small by (change (2 ^ 8) with 256; lia).
  now apply (lor_add n).
Qed.

(** ** Decoding and encoding one rune *)

Ltac bool_lia :=
  rewrite ?andb_true_iff, ?andb_false_iff, ?orb_true_iff, ?orb_false_iff,
    ?Z.leb_le, ?Z.leb_gt, ?Z.ltb_lt, ?Z.ltb_ge, ?Z.eqb_eq, ?Z.eqb_neq in *;
  lia.

(** Takes the branch of the leading conditional of the goal. *)
Ltac branch :=
  match goal with
  | |- context [if ?b then _ else _] =>
      let H := fresh "Hb" in
      destruct b eqn:H; [try (exfalso; bool_lia) | try (exfalso; bool_lia)]
  end.

(** What [first] says of a leading byte. *)
Lemma first_lead s0 sz lo hi :
  first s0 = Some (sz, lo, hi) ->
  (sz = 2%nat /\ 0xC2 <= s0 <= 0xDF /\ lo = 0x80 /\ hi = 0xBF)
  \/ (sz = 3%nat /\ 0xE0 <= s0 <= 0xEF /\ 0x80 <= lo /\ hi <= 0xBF
      /\ (s0 = 0xE0 -> lo = 0xA0) /\ (s0 = 0xED -> hi = 0x9F))
  \/ (sz = 4%nat /\ 0xF0 <= s0 <= 0xF4 /\ 0x80 <= lo /\ hi <= 0xBF
      /\ (s0 = 0xF0 -> lo = 0x90) /\ (s0 = 0xF4 -> hi = 0x8F)).
Proof.
  unfold first.
  repeat match goal with
         | |- context [if ?b then _ else _] => destruct b eqn:?
         end; intros [= <- <- <-]; lia.
Qed.

Lemma append1 s0 :
  0 <= s0 < 0x80 -> AppendRune s0 = String (chr s0) "".
Proof.
  intros H. unfold AppendRune. branch. do 2 f_equal. to_arith. arith.
Qed.

Lemma append2 s0 s1 :
  0xC2 <= s0 <= 0xDF -> 0x80 <= s1 <= 0xBF ->
  AppendRune (s0 mod 32 * 64 + s1 mod 64) = String (chr s0) (String (chr s1) "").
Proof.
  intros H0 H1. remember (s0 mod 32 * 64 + s1 mod 64) as r eqn:Er.
  assert (0x80 <= r <= 0x7FF /\ r / 64 = s0 - 192 /\ r mod 64 = s1 - 128)
    as (Hr & Hhi & Hlo) by (subst r; arith).
  unfold AppendRune. do 2 branch.
  rewrite (lead_byte 0xC0 5), cont_byte, Z.shiftr_div_pow2 by
    (rewrite ?Z.shiftr_div_pow2 by lia; change (2 ^ 5) with 32;
     change (2 ^ 6) with 64; first [reflexivity | lia]).
  change (2 ^ 6) with 64. rewrite Hhi, Hlo. do 3 f_equal; lia.
Qed.

Ltac bytes_by_arith :=
  rewrite ?Z.shiftr_div_pow2 by lia;
  change (2 ^ 3) with 8; change (2 ^ 4) with 16; change (2 ^ 6) with 64;
  change (2 ^ 12) with 4096; change (2 ^ 18) with 262144;
  first [reflexivity | arith].

Lemma append3 s0 s1 s2 :
  0xE0 <= s0 <= 0xEF -> 0x80 <= s1 <= 0xBF -> 0x80 <= s2 <= 0xBF ->
  (s0 = 0xE0 -> 0xA0 <= s1) -> (s0 = 0xED -> s1 <= 0x9F) ->
  AppendRune (s0 mod 16 * 4096 + s1 mod 64 * 64 + s2 mod 64)
  = String (chr s0) (String (chr s1) (String (chr s2) "")).
Proof.
  intros H0 H1 H2 Hlo Hhi.
  remember (s0 mod 16 * 4096 + s1 mod 64 * 64 + s2 mod 64) as r eqn:Er.
  assert (0x800 <= r <= 0xFFFF /\ (r < 0xD800 \/ 0xDFFF < r)
          /\ r / 4096 = s0 - 224 /\ (r / 64) mod 64 = s1 - 128
          /\ r mod 64 = s2 - 128)
    as (Hr & Hsur & Hb0 & Hb1 & Hb2) by (subst r; arith).
  unfold AppendRune. do 3 branch.
  rewrite (lead_byte 0xE0 4), !cont_byte by bytes_by_arith.
  rewrite !Z.shiftr_div_pow2 by lia.
  change (2 ^ 6) with 64; change (2 ^ 12) with 4096.
  rewrite Hb0, Hb1, Hb2. do 4 f_equal; lia.
Qed.

Lemma append4 s0 s1 s2 s3 :
  0xF0 <= s0 <= 0xF4 -> 0x80 <= s1 <= 0xBF -> 0x80 <= s2 <= 0xBF ->
  0x80 <= s3 <= 0xBF ->
  (s0 = 0xF0 -> 0x90 <= s1) -> (s0 = 0xF4 -> s1 <= 0x8F) ->
  AppendRune (s0 mod 8 * 262144 + s1 mod 64 * 4096 + s2 mod 64 * 64
              + s3 mod 64)
  = String (chr s0) (String (chr s1) (String (chr s2) (String (chr s3) ""))).
Proof.
  intros H0 H1 H2 H3 Hlo Hhi.
  remember (s0 mod 8 * 262144 + s1 mod 64 * 4096 + s2 mod 64 * 64 + s3 mod 64)
    as r eqn:Er.
  assert (0x10000 <= r <= 0x10FFFF
          /\ r / 262144 = s0 - 240 /\ (r / 4096) mod 64 = s1 - 128
          /\ (r / 64) mod 64 = s2 - 128 /\ r mod 64 = s3 - 128)
    as (Hr & Hb0 & Hb1 & Hb2 & Hb3) by (subst r; arith).
  unfold AppendRune. do 4 branch.
  rewrite (lead_byte 0xF0 3), !cont_byte by bytes_by_arith.
  rewrite !Z.shiftr_div_pow2 by lia.
  change (2 ^ 6) with 64; change (2 ^ 12) with 4096;
    change (2 ^ 18) with 262144.
  rewrite Hb0, Hb1, Hb2, Hb3. do 5 f_equal; lia.
Qed.

(** A step of the decoding that is not an invalid encoding reads the
    encoding of its rune, which [AppendRune] writes back and which decodes
    to that rune whatever follows. *)
Lemma decode_encode c rest r w :
  DecodeRuneInString (String c rest) = (r, w) ->
  (r =? RuneError) && (w =? 1)%nat = false ->
  exists tail,
    String c rest = (AppendRune r ++ tail)%string
    /\ String.length (AppendRune r) = w
    /\ forall tail',
         DecodeRuneInString (AppendRune r ++ tail')%string = (r, w).
Proof.
  unfold DecodeRuneInString at 1. cbv zeta.
  pose proof (byteOf_range c) as Hc.
  destruct (byteOf c <? 0x80) eqn:Hascii.
  { intros [= <- <-] _. rewrite append1 by bool_lia. rewrite chr_byteOf.
    exists rest. repeat split. intros tail'.
    change (String c "" ++ tail')%string with (String c tail').
    unfold DecodeRuneInString. cbv zeta. now rewrite Hascii. }
  destruct (first (byteOf c)) as [[[sz lo] hi]|] eqn:Hfirst;
    [|intros [= <- <-] Hv; discriminate Hv].
  pose proof (first_lead _ _ _ _ Hfirst) as Hlead.
  destruct (String.length (String c rest) <? sz)%nat eqn:Hlen;
    [intros [= <- <-] Hv; discriminate Hv|].
  destruct rest as [|c1 t1].
  { exfalso. destruct Hlead as [H|[H|H]]; destruct H as [-> _];
      discriminate Hlen. }
  change (at_ (String c (String c1 t1)) 1) with (byteOf c1).
  pose proof (byteOf_range c1) as Hc1.
  destruct ((byteOf c1 <? lo) || (hi <? byteOf c1)) eqn:H1;
    [intros [= <- <-] Hv; discriminate Hv|].
  destruct (sz <=? 2)%nat eqn:Hsz2.
  { intros [= <- <-] _.
    assert (sz = 2%nat) as ->
      by (destruct Hlead as [H|[H|H]]; destruct H as [-> _];
          first [reflexivity | discriminate Hsz2]).
    destruct Hlead as [H|[H|H]]; destruct H as [Hsz H]; try discriminate Hsz.
    destruct H as (H0 & -> & ->).
    rewrite rune2, append2, !chr_byteOf by bool_lia.
    exists t1. repeat split. intros tail'.
    change (String c (String c1 "") ++ tail')%string
      with (String c (String c1 tail')).
    unfold DecodeRuneInString. cbv zeta. rewrite Hascii, Hfirst.
    change (String.length (String c (String c1 tail')) <? 2)%nat with false.
    change (at_ (String c (String c1 tail')) 1) with (byteOf c1).
    rewrite H1, Hsz2, rune2. reflexivity. }
  destruct t1 as [|c2 t2].
  { exfalso. destruct Hlead as [H|[H|H]]; destruct H as [-> _];
      discriminate. }
  change (at_ (String c (String c1 (String c2 t2))) 2) with (byteOf c2).
  pose proof (byteOf_range c2) as Hc2.
  destruct ((byteOf c2 <? 0x80) || (0xBF <? byteOf c2)) eqn:H2;
    [intros [= <- <-] Hv; discriminate Hv|].
  destruct (sz <=? 3)%nat eqn:Hsz3.
  { intros [= <- <-] _.
    destruct Hlead as [H|[H|H]]; destruct H as [-> H]; try discriminate.
    destruct H as (H0 & Hlo & Hhi & Hlo' & Hhi').
    rewrite rune3, append3, !chr_byteOf by bool_lia.
    exists t2. repeat split. intros tail'.
    change (String c (String c1 (String c2 "")) ++ tail')%string
      with (String c (String c1 (String c2 tail'))).
    unfold DecodeRuneInString. cbv zeta. rewrite Hascii, Hfirst.
    change (String.length (String c (String c1 (String c2 tail'))) <? 3)%nat
      with false.
    change (at_ (String c (String c1 (String c2 tail'))) 1) with (byteOf c1).
    change (at_ (String c (String c1 (String c2 tail'))) 2) with (byteOf c2).
    rewrite H1, H2, rune3. reflexivity. }
  destruct t2 as [|c3 t3].
  { exfalso. destruct Hlead as [H|[H|H]]; destruct H as [-> _];
      discriminate. }
  change (at_ (String c (String c1 (String c2 (String c3 t3)))) 3)
    with (byteOf c3).
  pose proof (byteOf_range c3) as Hc3.
  destruct ((byteOf c3 <? 0x80) || (0xBF <? byteOf c3)) eqn:H3;
    [intros [= <- <-] Hv; discriminate Hv|].
  intros [= <- <-] _.
  destruct Hlead as [H|[H|H]]; destruct H as [-> H]; try discriminate.
  destruct H as (H0 & Hlo & Hhi & Hlo' & Hhi').
  rewrite rune4, append4, !chr_byteOf by bool_lia.
  exists t3. repeat split. intros tail'.
  change (String c (String c1 (String c2 (String c3 ""))) ++ tail')%string
    with (String c (String c1 (String c2 (String c3 tail')))).
  unfold DecodeRuneInString. cbv zeta. rewrite Hascii, Hfirst.
  change (String.length (String c (String c1 (String c2 (String c3 tail'))))
          <? 4)%nat with false.
  change (at_ (String c (String c1 (String c2 (String c3 tail')))) 1)
    with (byteOf c1).
  change (at_ (String c (String c1 (String c2 (String c3 tail')))) 2)
    with (byteOf c2).
  change (at_ (String c (String c1 (String c2 (String c3 tail')))) 3)
    with (byteOf c3).
  rewrite H1, H2, H3, rune4. reflexivity.
Qed.

(** ** Decoding and encoding a string *)

Lemma sapp_cons c (a b : string) :
  (String c a ++ b)%string = String c (a ++ b).
Proof. reflexivity. Qed.

Lemma sapp_nil_r (s : string) : (s ++ "")%string = s.
Proof.
  induction s as [|c s IH]; [reflexivity | now rewrite sapp_cons, IH].
Qed.

Lemma sapp_assoc (a b c : string) :
  ((a ++ b) ++ c)%string = (a ++ (b ++ c))%string.
Proof.
  induction a as [|x a IH]; [reflexivity | rewrite !sapp_cons; simpl; now rewrite IH].
Qed.

Lemma slength_app (a b : string) :
  String.length (a ++ b) = (String.length a + String.length b)%nat.
Proof.
  induction a as [|x a IH]; [reflexivity | rewrite !sapp_cons; simpl; now rewrite IH].
Qed.

Lemma rangeFrom_skip p t :
  rangeFrom (p ++ t) (String.length p) = rangeFrom t 0.
Proof. induction p as [|c p IH]; [reflexivity | exact IH]. Qed.

Lemma validFrom_skip p t :
  validFrom (p ++ t) (String.length p) = validFrom t 0.
Proof. induction p as [|c p IH]; [reflexivity | exact IH]. Qed.

Lemma AppendRune_nonempty r : exists c p, AppendRune r = String c p.
Proof.
  unfold AppendRune.
  repeat match goal with
         | |- context [if ?b then _ else _] => destruct b
         end; eauto.
Qed.

(** The loop over a string that begins with an encoding which decodes to
    its rune. *)
Lemma range_step r t :
  (forall tail', DecodeRuneInString (AppendRune r ++ tail')%string
                 = (r, String.length (AppendRune r))) ->
  range (AppendRune r ++ t) = r :: range t
  /\ ((r =? RuneError) && (String.length (AppendRune r) =? 1)%nat = false ->
      ValidString (AppendRune r ++ t) = ValidString t).
Proof.
  intros Hdec. specialize (Hdec t).
  destruct (AppendRune_nonempty r) as (c & p & Hcp). rewrite Hcp in *.
  unfold range, ValidString.
  change (String c p ++ t)%string with (String c (p ++ t)%string) in *.
  cbn [rangeFrom validFrom]. rewrite Hdec.
  cbn [String.length]. rewrite Nat.sub_succ, Nat.sub_0_r.
  rewrite rangeFrom_skip, validFrom_skip. split; [reflexivity|].
  intros ->. reflexivity.
Qed.

(** How the loop starts on a string: with an invalid byte, which it reads
    as [RuneError], or with the encoding of a rune. *)
Lemma range_inv s :
  s = ""%string
  \/ (exists c rest,
        s = String c rest /\ range s = RuneError :: range rest
        /\ ValidString s = false)
  \/ (exists r tail,
        s = (AppendRune r ++ tail)%string
        /\ (forall tail', DecodeRuneInString (AppendRune r ++ tail')%string
                          = (r, String.length (AppendRune r)))
        /\ (r =? RuneError) && (String.length (AppendRune r) =? 1)%nat = false).
Proof.
  destruct s as [|c rest]; [now left | right].
  destruct (DecodeRuneInString (String c rest)) as [r w] eqn:Hdec.
  destruct ((r =? RuneError) && (w =? 1)%nat) eqn:Hv.
  - left. exists c, rest. split; [reflexivity|].
    apply andb_true_iff in Hv as [Hr Hw].
    apply Z.eqb_eq in Hr as ->. apply Nat.eqb_eq in Hw as ->.
    unfold range, ValidString. cbn [rangeFrom validFrom]. rewrite Hdec.
    split; reflexivity.
  - right. destruct (decode_encode c rest r w Hdec Hv) as (tail & Hs & Hlen & Hall).
    exists r, tail. rewrite Hlen. auto.
Qed.

(** Induction on a string along the steps of the loop. *)
Lemma range_ind (P : string -> Prop) :
  P ""%string ->
  (forall c rest,
     range (String c rest) = RuneError :: range rest ->
     ValidString (String c rest) = false ->
     P rest -> P (String c rest)) ->
  (forall r tail,
     range (AppendRune r ++ tail) = r :: range tail ->
     ValidString (AppendRune r ++ tail) = ValidString tail ->
     (forall t, range (AppendRune r ++ t) = r :: range t) ->
     (forall t, ValidString (AppendRune r ++ t) = ValidString t) ->
     P tail -> P (AppendRune r ++ tail)%string) ->
  forall s, P s.
Proof.
  intros Hnil Hbad Hgood s.
  remember (String.length s) as n eqn:Hn. revert s Hn.
  induction n as [n IH] using lt_wf_ind. intros s ->.
  destruct (range_inv s) as [-> | [(c & rest & -> & Hr & Hv) | (r & tail & -> & Hdec & Hv)]].
  - exact Hnil.
  - apply Hbad; auto. apply (IH (String.length rest)); simpl; auto.
  - apply Hgood; try (intros t); try apply (range_step r _ Hdec); auto.
    apply (IH (String.length tail)); auto.
    rewrite slength_app. destruct (AppendRune_nonempty r) as (c & p & ->).
    simpl. lia.
Qed.

(** A valid string is what the loop reads, written back. *)
Lemma encode_range s : ValidString s = true -> encode (range s) = s.
Proof.
  induction s as [|c rest Hr Hv IH|r tail Hr Hv _ _ IH] using range_ind.
  - reflexivity.
  - intros H. congruence.
  - rewrite Hr, Hv. intros H. simpl. now rewrite IH.
Qed.

Lemma range_app a b :
  ValidString a = true ->
  range (a ++ b) = range a ++ range b
  /\ ValidString (a ++ b) = ValidString b.
Proof.
  induction a as [|c rest Hr Hv IH|r tail Hr Hv Hrs Hvs IH] using range_ind.
  - intros _. split; reflexivity.
  - intros H. congruence.
  - rewrite Hv. intros H. destruct (IH H) as [IHr IHv].
    rewrite sapp_assoc, Hrs, Hvs, Hr, IHr, IHv. split; reflexivity.
Qed.

(** ** The fields [parseCSVLine] returns *)

Lemma holds_app c a b : holds c (a ++ b) <-> holds c a \/ holds c b.
Proof.
  unfold holds. induction a as [|x a IH]; [simpl; tauto|].
  rewrite sapp_cons. simpl. tauto.
Qed.

Lemma chr_inj x y : 0 <= x < 256 -> 0 <= y < 256 -> chr x = chr y -> x = y.
Proof.
  intros Hx Hy H. apply (f_equal byteOf) in H.
  now rewrite !byteOf_chr in H.
Qed.

Lemma high_not_quote x : 128 <= x < 256 -> chr x <> dquote.
Proof.
  intros Hx H. apply chr_inj in H; lia.
Qed.

Lemma cont_not_quote x : 0 <= x -> cont x <> dquote.
Proof.
  intros Hx. rewrite cont_byte by assumption. apply high_not_quote. arith.
Qed.

Lemma shiftr_nonneg r n : 0 <= r -> 0 <= Z.shiftr r n.
Proof. intros H. now apply Z.shiftr_nonneg. Qed.

(** [WriteRune] writes a double quote for the rune of the double quote
    only. *)
Lemma AppendRune_no_quote r : r <> quote -> ~ holds dquote (AppendRune r).
Proof.
  unfold quote, holds, AppendRune. intros Hr.
  destruct ((0 <=? r) && (r <=? 0x7F)) eqn:H1.
  { simpl. intros [H|[]]. unfold dquote in H. apply chr_inj in H.
    - to_arith. arith.
    - to_arith. arith.
    - lia. }
  destruct ((0 <=? r) && (r <=? 0x7FF)) eqn:H2.
  { assert (0 <= r <= 0x7FF) as Hb by bool_lia.
    simpl. intros [H|[H|[]]]; revert H.
    - rewrite (lead_byte 0xC0 5) by bytes_by_arith.
      apply high_not_quote. bytes_by_arith.
    - apply cont_not_quote. lia. }
  destruct ((0 <=? r) && ((r <? 0xD800) || (0xDFFF <? r) && (r <=? 0xFFFF)))
    eqn:H3.
  { assert (0 <= r <= 0xFFFF) as Hb by bool_lia.
    simpl. intros [H|[H|[H|[]]]]; revert H.
    - rewrite (lead_byte 0xE0 4) by bytes_by_arith.
      apply high_not_quote. bytes_by_arith.
    - apply cont_not_quote, shiftr_nonneg. lia.
    - apply cont_not_quote. lia. }
  destruct ((0xFFFF <? r) && (r <=? 0x10FFFF)) eqn:H4.
  { assert (0xFFFF < r <= 0x10FFFF) as Hb by bool_lia.
    simpl. intros [H|[H|[H|[H|[]]]]]; revert H.
    - rewrite (lead_byte 0xF0 3) by bytes_by_arith.
      apply high_not_quote. bytes_by_arith.
    - apply cont_not_quote, shiftr_nonneg. lia.
    - apply cont_not_quote, shiftr_nonneg. lia.
    - apply cont_not_quote. lia. }
  simpl. intros [H|[H|[H|[]]]]; revert H;
    apply high_not_quote; lia.
Qed.

(** The loop reads a double quote only where the string holds one. *)
Lemma range_quote s : In quote (range s) -> holds dquote s.
Proof.
  induction s as [|c rest Hr Hv IH|r tail Hr Hv _ _ IH] using range_ind.
  - intros [].
  - rewrite Hr. intros [H|H]; [discriminate H|].
    unfold holds. simpl. right. now apply IH.
  - rewrite Hr. intros [-> | H]; apply holds_app.
    + left. unfold holds. simpl. now left.
    + right. now apply IH.
Qed.

Lemma range_ascii c t :
  byteOf c < 0x80 ->
  range (String c t) = byteOf c :: range t
  /\ ValidString (String c t) = ValidString t.
Proof.
  intros Hc. apply Z.ltb_lt in Hc as Hb.
  assert (byteOf c <> RuneError) as Hne by (unfold RuneError; lia).
  apply Z.eqb_neq in Hne.
  unfold range, ValidString. cbn [rangeFrom validFrom].
  unfold DecodeRuneInString. cbv zeta. rewrite Hb, Hne. split; reflexivity.
Qed.

Lemma range_quoted f :
  ValidString f = true ->
  range (quoted f) = quote :: range f ++ [quote]
  /\ ValidString (quoted f) = true.
Proof.
  intros Hf. unfold quoted.
  destruct (range_ascii dquote (f ++ String dquote "")) as [-> ->];
    [vm_compute; reflexivity|].
  destruct (range_app f (String dquote "") Hf) as [-> ->].
  split; reflexivity.
Qed.

Lemma concat_cons sep f g gs :
  String.concat sep (f :: g :: gs)
  = (f ++ sep ++ String.concat sep (g :: gs))%string.
Proof. reflexivity. Qed.






Example range_cafe : range "café" = [99; 97; 102; 0xE9].
Proof. reflexivity. Qed.

Lemma csv_inside_quotes : forall rs st,
  ~ In quote rs ->
  inQuotes st = true ->
  fold_left csvStep rs st
  = mkCSV (fields st) (current st ++ encode rs) true.
Proof.
  induction rs as [|r rs IH]; intros st Hq Hin; simpl.
  - rewrite sapp_nil_r. destruct st. simpl in Hin. now subst.
  - assert (r <> quote) as Hr by (intros ->; apply Hq; now left).
    assert (~ In quote rs) as Hq' by (intros H; apply Hq; now right).
    unfold csvStep at 2. rewrite (proj2 (Z.eqb_neq r quote) Hr), Hin.
    destruct (r =? comma); rewrite IH by auto; unfold WriteRune; simpl;
      now rewrite sapp_assoc.
Qed.

Lemma csv_quoted_field rs st :
  ~ In quote rs ->
  inQuotes st = false ->
  fold_left csvStep (quote :: rs ++ [quote]) st
  = mkCSV (fields st) (current st ++ encode rs) false.
Proof.
  intros Hq Hin. simpl. rewrite fold_left_app.
  assert (csvStep st quote = mkCSV (fields st) (current st) true) as ->
    by (unfold csvStep; simpl; now rewrite Hin).
  rewrite (csv_inside_quotes rs (mkCSV (fields st) (current st) true) Hq eq_refl).
  reflexivity.
Qed.

Lemma csv_quoted_run : forall fs f st,
  (forall g, In g (f :: fs) -> ValidString g = true /\ ~ holds dquote g) ->
  inQuotes st = false ->
  current st = ""%string ->
  csvFinish (fold_left csvStep
               (range (String.concat "," (map quoted (f :: fs)))) st)
  = fields st ++ f :: fs
  /\ ValidString (String.concat "," (map quoted (f :: fs))) = true.
Proof.
  induction fs as [|g fs IH]; intros f st Hq Hin Hcur.
  - destruct (Hq f (in_eq _ _)) as [Hv Hnq].
    change (String.concat "," (map quoted [f])) with (quoted f).
    destruct (range_quoted f Hv) as [-> ->].
    rewrite csv_quoted_field by (auto using range_quote).
    unfold csvFinish. simpl. now rewrite Hcur, encode_range.
  - destruct (Hq f (in_eq _ _)) as [Hv Hnq].
    change (map quoted (f :: g :: fs))
      with (quoted f :: quoted g :: map quoted fs).
    rewrite concat_cons.
    change (quoted g :: map quoted fs) with (map quoted (g :: fs)).
    destruct (range_quoted f Hv) as [Hrf Hvf].
    destruct (range_app (quoted f)
                ("," ++ String.concat "," (map quoted (g :: fs))) Hvf)
      as [-> ->].
    destruct (range_ascii ","%char (String.concat "," (map quoted (g :: fs))))
      as [Hrc Hvc]; [vm_compute; reflexivity|].
    change ("," ++ String.concat "," (map quoted (g :: fs)))%string
      with (String ","%char (String.concat "," (map quoted (g :: fs)))).
    rewrite Hrc, Hvc, Hrf, fold_left_app.
    rewrite csv_quoted_field by (auto using range_quote).
    change (byteOf ","%char) with comma.
    change (fold_left csvStep
              (comma :: range (String.concat "," (map quoted (g :: fs))))
              (mkCSV (fields st) (current st ++ encode (range f)) false))
      with (fold_left csvStep
              (range (String.concat "," (map quoted (g :: fs))))
              (mkCSV (fields st ++ [(current st ++ encode (range f))%string])
                 "" false)).
    destruct (IH g (mkCSV (fields st ++ [(current st ++ encode (range f))%string])
                      "" false)) as [-> ->]; auto.
    + intros h Hh. apply Hq. now right.
    + simpl. rewrite Hcur, encode_range, <- app_assoc by assumption.
      split; reflexivity.
Qed.

(** X15: [parseCSVLine] reads back a line of quoted fields, the format of
    the listing it is used on: for fields that are valid UTF-8 and hold no
    double quote (commas are allowed), parsing the fields written between
    double quotes and joined with commas returns the fields. *)
Theorem parseCSVLine_quoted f fs :
  (forall g, In g (f :: fs) -> ValidString g = true /\ ~ holds dquote g) ->
  parseCSVLine (String.concat "," (map quoted (f :: fs))) = f :: fs.
Proof.
  intros Hq. unfold parseCSVLine.
  now destruct (csv_quoted_run fs f (mkCSV [] "" false) Hq eq_refl eq_refl)
    as [-> _].
Qed.

Lemma parseCSVLine_quoted_witness :
  parseCSVLine (String.concat "," (map quoted ["dolt.exe"; "12,5 Kö"]%string))
  = ["dolt.exe"; "12,5 Kö"]%string.
Proof.
  apply (parseCSVLine_quoted "dolt.exe" ["12,5 Kö"]%string).
  intros g [<- | [<- | []]]; (split; [reflexivity|]);
    unfold holds, dquote; simpl; intuition discriminate.
Defined.

Lemma csv_no_quote : forall rs st,
  (forall g, In g (csvFinish st) -> ~ holds dquote g) ->
  forall g, In g (csvFinish (fold_left csvStep rs st)) -> ~ holds dquote g.
Proof.
  induction rs as [|r rs IH]; intros st Hst; [exact Hst|].
  simpl. apply IH. intros g Hg. unfold csvFinish, csvStep in *.
  destruct (Z.eqb_spec r quote) as [Hrq|Hrq]; simpl in *; [now apply Hst|].
  assert (forall c, In c (fields st ++ [current st]) ->
                    ~ holds dquote (WriteRune c r)) as Hext.
  { intros c Hc Hin. apply holds_app in Hin as [Hin|Hin];
      [now apply (Hst c Hc) | now apply (AppendRune_no_quote r)]. }
  destruct (r =? comma); [destruct (inQuotes st)|]; simpl in Hg.
  - apply in_app_or in Hg as [Hg|[<- | []]].
    + apply Hst, in_or_app. now left.
    + apply Hext, in_or_app. right. now left.
  - apply in_app_or in Hg as [Hg|[<- | []]]; [now apply Hst|].
    intros [].
  - apply in_app_or in Hg as [Hg|[<- | []]].
    + apply Hst, in_or_app. now left.
    + apply Hext, in_or_app. right. now left.
Qed.

(** X16: [parseCSVLine] never returns an empty list, and no field it
    returns holds a double quote, whatever the bytes of the line (valid
    UTF-8 or not, balanced quotes or not): the quotes only switch the
    reading of commas. *)
Theorem parseCSVLine_fields line :
  parseCSVLine line <> []
  /\ forall g, In g (parseCSVLine line) -> ~ holds dquote g.
Proof.
  split.
  - unfold parseCSVLine, csvFinish. intros H. now apply app_eq_nil in H as [_ H].
  - unfold parseCSVLine. apply csv_no_quote. intros g [<- | []]. intros [].
Qed.

(** An invalid byte is read as U+FFFD and written as its three bytes: the
    field is not the byte that was on the line. *)
Example parseCSVLine_invalid_byte :
  parseCSVLine (String (chr 0xFF) ",b")
  = [String (chr 0xEF) (String (chr 0xBF) (String (chr 0xBD) "")); "b"]%string
  /\ ValidString (String (chr 0xFF) ",b") = false.
Proof. split; reflexivity. Qed.

End CsvReader.

(** * The doctor's leak check *)

Import doctor.

Lemma extractDataDirParts_skip part rest :
  is_data_dir_flag part = false ->
  extractDataDirParts (part :: rest) = extractDataDirParts rest.
Proof.
  unfold is_data_dir_flag. intros H. apply orb_false_iff in H as [Heq Hpre].
  cbn -[trimPrefix String.eqb]. rewrite Heq.
  now rewrite (trimPrefix_prefix _ _ Hpre).
Qed.

(** X17: [extractDataDir] returns the value of the first data-dir flag of
    the command line: after parts that are not the flag, it returns the part
    that follows [--data-dir], or what follows [--data-dir=], whatever comes
    later; without the flag it returns the empty string, and so it does when
    [--data-dir] is the last part and has no value. *)
Theorem extractDataDirParts_first_flag pre v post :
  forallb (fun part => negb (is_data_dir_flag part)) pre = true ->
  extractDataDirParts (pre ++ "--data-dir" :: v :: post) = v
  /\ extractDataDirParts (pre ++ ("--data-dir=" ++ v)%string :: post) = v
  /\ extractDataDirParts pre = ""
  /\ extractDataDirParts (pre ++ ["--data-dir"]) = "".
Proof.
  induction pre as [|part pre IH]; intros Hpre.
  - repeat split; reflexivity.
  - simpl in Hpre. apply andb_true_iff in Hpre as [Hpart Hpre].
    apply negb_true_iff in Hpart.
    destruct (IH Hpre) as (H1 & H2 & H3 & H4).
    rewrite <- !app_comm_cons, !(extractDataDirParts_skip _ _ Hpart).
    auto.
Qed.

Lemma extractDataDirParts_first_flag_witness :
  let pre := ["sql-server"; "--port"; "12345"] in
  let v := "/tmp/dolt-test-server-abc" in
  extractDataDirParts (pre ++ "--data-dir" :: v :: []) = v
  /\ extractDataDirParts (pre ++ ("--data-dir=" ++ v)%string :: []) = v
  /\ extractDataDirParts pre = ""
  /\ extractDataDirParts (pre ++ ["--data-dir"]) = "".
Proof.
  apply (extractDataDirParts_first_flag
           ["sql-server"; "--port"; "12345"] "/tmp/dolt-test-server-abc" []).
  reflexivity.
Defined.

(** * The compactor dog *)

Import compactor.

(** X18: the accessors of the compactor's configuration always return
    usable values: whatever the configuration (absent at any level, an
    interval that is empty, does not parse or is not positive, an empty
    database list, a threshold that is not positive), the interval and the
    commit threshold are positive and the database list is not empty; and a
    configured positive threshold or non-empty database list is the one
    returned. *)
Theorem compactorDog_config_defaults ParseDuration config :
  0 < compactorDogInterval ParseDuration config
  /\ compactorDogDatabases config <> []
  /\ 0 < compactorDogCommitThreshold config
  /\ (forall cd, configured config = Some cd ->
        (0 < CommitThreshold cd ->
         compactorDogCommitThreshold config = CommitThreshold cd)
        /\ (Databases cd <> [] -> compactorDogDatabases config = Databases cd)).
Proof.
  unfold compactorDogInterval, compactorDogDatabases, compactorDogCommitThreshold.
  destruct (configured config) as [cd|].
  - split; [|split; [|split]].
    + destruct (String.eqb (IntervalStr cd) ""); [reflexivity|].
      destruct (ParseDuration (IntervalStr cd)) as [d|]; [|reflexivity].
      destruct (Z.ltb_spec 0 d); [assumption | reflexivity].
    + destruct (Databases cd); simpl; discriminate.
    + destruct (Z.ltb_spec 0 (CommitThreshold cd)); [assumption | reflexivity].
    + intros cd' [= <-]. split.
      * intros H. now apply Z.ltb_lt in H as ->.
      * intros H. destruct (Databases cd); [contradiction | reflexivity].
  - repeat split; try reflexivity; try discriminate.
Qed.

(** ** Flattening one database *)

Ltac flatten_paths :=
  unfold compactorDogFlattenDatabase, flatten, backToMain, dbind, dret, leave,
    dlog, note, sqlOpen, countCommits, getHead, getRootHash, exec in *;
  repeat case_match; simplify_eq; simpl in *.

Ltac in_dead :=
  repeat match goal with
    | H : _ \/ _ |- _ => destruct H
    | H : False |- _ => contradiction
    | H : @eq DbEvent _ _ |- _ => first [discriminate H | injection H as H; subst]
    | H : @eq Outcome _ _ |- _ => first [discriminate H | injection H as H; subst]
    end.

(** X19: [compactorDogFlattenDatabase] executes no statement on a database
    unless the connection opened, the commit count reached the threshold,
    and the head of main and the root commit read back as two different
    well-formed Dolt hashes; below the threshold, on a malformed hash or on
    a history that is already flat it only queries. *)
Theorem flatten_executes_only_when_due E threshold s r :
  let tr := snd (compactorDogFlattenDatabase E threshold) in
  In (Exec s r) tr ->
  exists n mainHead rootHash rest,
    tr = DbOpen None :: QCount (Ok n) :: DbLog (LogFlattening n threshold)
         :: QHead (Ok mainHead) :: QRoot (Ok rootHash) :: rest
    /\ threshold <= n
    /\ validDoltHash mainHead = true
    /\ validDoltHash rootHash = true
    /\ mainHead <> rootHash.
Proof.
  cbv zeta. intros Hin. flatten_paths; in_dead.
  all: do 4 eexists; (split; [reflexivity|]);
    repeat match goal with
      | H : negb _ = false |- _ => apply negb_false_iff in H
      | H : (_ <? _) = false |- _ => apply Z.ltb_ge in H
      | H : String.eqb _ _ = false |- _ => apply String.eqb_neq in H
      end; auto.
Qed.

Example flatten_steady_run :
  compactorDogFlattenDatabase SampleDb.steady 500
  = (Returned true None,
     [DbOpen None; QCount (Ok 600); DbLog (LogFlattening 600 500);
      QHead (Ok SampleDb.main_hash); QRoot (Ok SampleDb.root_hash);
      Exec DeleteTempBranch None; Exec CreateTempBranch None;
      Exec (SoftReset SampleDb.root_hash) None; Exec CommitAll None;
      QHead (Ok SampleDb.flat_hash); Exec CheckoutMain None;
      QHead (Ok SampleDb.main_hash);
      Exec (HardReset SampleDb.flat_hash) None;
      Exec DeleteTempBranch None; QCount (Ok 600);
      DbLog (LogFlattened 600 600)]).
Proof. reflexivity. Qed.

Example flatten_racing_run :
  compactorDogFlattenDatabase SampleDb.racing 500
  = (Returned false None,
     [DbOpen None; QCount (Ok 600); DbLog (LogFlattening 600 500);
      QHead (Ok SampleDb.main_hash); QRoot (Ok SampleDb.root_hash);
      Exec DeleteTempBranch None; Exec CreateTempBranch None;
      Exec (SoftReset SampleDb.root_hash) None; Exec CommitAll None;
      QHead (Ok SampleDb.flat_hash); Exec CheckoutMain None;
      QHead (Ok SampleDb.moved_hash);
      DbLog (LogMainMoved "01234567" "abcdefgh");
      Exec DeleteTempBranch None]).
Proof. reflexivity. Qed.

Lemma flatten_executes_only_when_due_witness :
  let tr := snd (compactorDogFlattenDatabase SampleDb.steady 500) in
  exists n mainHead rootHash rest,
    tr = DbOpen None :: QCount (Ok n) :: DbLog (LogFlattening n 500)
         :: QHead (Ok mainHead) :: QRoot (Ok rootHash) :: rest
    /\ 500 <= n
    /\ validDoltHash mainHead = true
    /\ validDoltHash rootHash = true
    /\ mainHead <> rootHash.
Proof.
  apply (flatten_executes_only_when_due SampleDb.steady 500
           (HardReset SampleDb.flat_hash) None).
  vm_compute. tauto.
Defined.

(** X20: main is hard-reset only to the commit that was flattened on the
    temporary branch, and only after main was read again and found where it
    was at the start: a hard reset in the trace is preceded by exactly the
    creation of the temporary branch, the soft reset to the root commit, the
    commit, the reading of the flattened head, the checkout of main and a
    reading of main's head equal to the one recorded first, all
    successful. *)
Theorem flatten_hard_reset_is_guarded E threshold h r :
  let tr := snd (compactorDogFlattenDatabase E threshold) in
  In (Exec (HardReset h) r) tr ->
  exists n mainHead rootHash cleanup rest,
    tr = [DbOpen None; QCount (Ok n); DbLog (LogFlattening n threshold);
          QHead (Ok mainHead); QRoot (Ok rootHash);
          Exec DeleteTempBranch cleanup; Exec CreateTempBranch None;
          Exec (SoftReset rootHash) None; Exec CommitAll None;
          QHead (Ok h); Exec CheckoutMain None; QHead (Ok mainHead);
          Exec (HardReset h) r] ++ rest.
Proof.
  cbv zeta. intros Hin. flatten_paths; in_dead.
  all: match goal with
       | H : negb (String.eqb _ _) = false |- _ =>
           apply negb_false_iff, String.eqb_eq in H; subst
       end.
  all: do 5 eexists; reflexivity.
Qed.

Lemma flatten_hard_reset_is_guarded_witness :
  let tr := snd (compactorDogFlattenDatabase SampleDb.steady 500) in
  exists n mainHead rootHash cleanup rest,
    tr = [DbOpen None; QCount (Ok n); DbLog (LogFlattening n 500);
          QHead (Ok mainHead); QRoot (Ok rootHash);
          Exec DeleteTempBranch cleanup; Exec CreateTempBranch None;
          Exec (SoftReset rootHash) None; Exec CommitAll None;
          QHead (Ok SampleDb.flat_hash); Exec CheckoutMain None;
          QHead (Ok mainHead);
          Exec (HardReset SampleDb.flat_hash) None] ++ rest.
Proof.
  apply (flatten_hard_reset_is_guarded SampleDb.steady 500
           SampleDb.flat_hash None).
  vm_compute. tauto.
Defined.

(** X21: [compactorDogFlattenDatabase] reports a compaction exactly when
    the hard reset of main succeeded: it returns [(true, nil)] if and only
    if a successful hard reset is in the trace, it never returns true with
    an error, and a failure to delete the temporary branch or to count the
    commits afterwards does not change the result. *)
Theorem flatten_compacted_iff_reset E threshold :
  let '(out, tr) := compactorDogFlattenDatabase E threshold in
  (out = Returned true None <-> exists h, In (Exec (HardReset h) None) tr)
  /\ (forall e, out <> Returned true (Some e)).
Proof.
  flatten_paths; split;
    try (intros ? Hne; discriminate Hne);
    (split; [intros H; first [discriminate H | eexists; simpl; eauto 20]
            | intros [h Hin]; in_dead; reflexivity]).
Qed.

(** X22: once the temporary branch has been created, every way out of
    [compactorDogFlattenDatabase] but two ends with an attempt to delete
    it: the last statement executed is the deletion of the temporary branch,
    unless the checkout of main failed (the function then returns that error
    at once) or the log line of a moved main panicked; and the panic occurs
    only when main was read back as a head shorter than eight bytes. *)
Theorem flatten_deletes_temp_branch E threshold :
  let '(out, tr) := compactorDogFlattenDatabase E threshold in
  (In (Exec CreateTempBranch None) tr ->
   (exists e, out = Returned false (Some (ErrCheckoutMain e)))
   \/ out = Panicked
   \/ exists r, List.last (List.filter is_exec tr) (DbOpen None)
                = Exec DeleteTempBranch r)
  /\ (out = Panicked ->
      exists cur, In (QHead (Ok cur)) tr /\ (String.length cur < 8)%nat).
Proof.
  flatten_paths; split; intros H; in_dead; eauto.
  all: try (right; right; eexists; reflexivity).
  all: match goal with
       | H : (String.length ?c <? 8)%nat = true |- _ =>
           apply Nat.ltb_lt in H; exists c; split; [simpl; tauto | exact H]
       end.
Qed.

Lemma flatten_deletes_temp_branch_witness :
  exists cur,
    In (QHead (Ok cur)) (snd (compactorDogFlattenDatabase SampleDb.truncated 500))
    /\ (String.length cur < 8)%nat.
Proof.
  pose proof (flatten_deletes_temp_branch SampleDb.truncated 500) as H.
  assert (Hrun : compactorDogFlattenDatabase SampleDb.truncated 500
                 = (Panicked,
                    snd (compactorDogFlattenDatabase SampleDb.truncated 500)))
    by reflexivity.
  rewrite Hrun in H. destruct H as [_ H]. exact (H eq_refl).
Defined.

Lemma dispatchPlugins_nothing_discovered_witness :
  run (dispatchPlugins (Sample.calm []) None) (Sample.world [Sample.rex])
  = record (EvDiscoverAll [] None) (Sample.world [Sample.rex]).
Proof.
  apply (proj2 (dispatchPlugins_nothing_discovered (Sample.calm []) None
                  (Sample.world [Sample.rex]))).
  reflexivity.
Defined.

Lemma clearPendingSpawnFromList_idempotent_witness :
  let session := "gt-gastown-polecat-OldToast"%string in
  let pending := scan "deacon" [Sample.old_toast; Sample.new_toast] in
  let store' :=
    snd (clearPendingSpawnFromList pending session Sample.deacon_store) in
  exists pending',
    checkMailboxForSpawns "deacon" store' = Ok pending'
    /\ clearPendingSpawnFromList pending' session store' = (None, store').
Proof.
  apply (proj1 (proj2 (clearPendingSpawnFromList_idempotent
                         "gt-gastown-polecat-OldToast"
                         (scan "deacon" [Sample.old_toast; Sample.new_toast])
                         Sample.deacon_store))
           "deacon" (mail.mkMailbox [Sample.old_toast; Sample.new_toast] [])).
  - apply lookup_singleton_eq.
  - reflexivity.
  - simpl. repeat constructor; simpl; intuition discriminate.
Defined.

Lemma pruneStalePendingFromList_idempotent_witness :
  let pending := scan "deacon" [Sample.old_toast; Sample.new_toast] in
  let store' :=
    snd (pruneStalePendingFromList 1000 pending 300 Sample.deacon_store) in
  exists pending',
    checkMailboxForSpawns "deacon" store' = Ok pending'
    /\ pruneStalePendingFromList 1000 pending' 300 store' = (Ok 0%nat, store').
Proof.
  apply (proj2 (pruneStalePendingFromList_idempotent 1000 300
                  (scan "deacon" [Sample.old_toast; Sample.new_toast])
                  Sample.deacon_store)
           "deacon" (mail.mkMailbox [Sample.old_toast; Sample.new_toast] [])).
  - apply lookup_singleton_eq.
  - reflexivity.
  - simpl. repeat constructor; simpl; intuition discriminate.
Defined.
